(** * VideoService (plugin-video): a shallow embedding of src/services/video.ts

    The definitions follow the source: JavaScript strings and values, the
    pure helpers ([getVideoId], the URL pattern, [parseSRT],
    [parseCaption]), the asynchronous methods as processes over the calls
    they make, the cache and files those calls act on, and the queue of
    [processVideo] / [processQueue] as a machine that a schedule drives
    one step at a time.  The properties come after, grouped by the part
    of the service they are about. *)

From Stdlib Require Import ZArith List Bool Ascii String Lia.
From stdpp Require Import base option list gmap.

Local Open Scope Z_scope.

Set Warnings "-register-all".

(** ** JavaScript strings

    A JavaScript string is a sequence of UTF-16 code units; [charCodeAt]
    reads one of them as a number. *)

Abbreviation jsstring := (list Z).

(** Literals are written as in the source: [\n] is the only escape used
    there. *)
Fixpoint js (s : string) : jsstring :=
  match s with
  | EmptyString => []
  | String "\"%char (String "n"%char s') => 10 :: js s'
  | String a s' => Z.of_N (N_of_ascii a) :: js s'
  end.
Arguments js : simpl never.

Module JsString.

(** [s.startsWith(p)] *)
Fixpoint startsWith (p s : jsstring) : bool :=
  match p, s with
  | [], _ => true
  | _ :: _, [] => false
  | a :: p', b :: s' => (a =? b) && startsWith p' s'
  end.

(** [s.includes(p)] *)
Fixpoint includes (p s : jsstring) : bool :=
  startsWith p s ||
  match s with
  | [] => false
  | _ :: s' => includes p s'
  end.

(** [s.endsWith(p)] *)
Definition endsWith (p s : jsstring) : bool :=
  startsWith (rev p) (rev s).

(** [parts.join(sep)] on an array of strings *)
Fixpoint join (sep : jsstring) (parts : list jsstring) : jsstring :=
  match parts with
  | [] => []
  | [x] => x
  | x :: rest => x ++ sep ++ join sep rest
  end.

(** The scan of [String.prototype.split] for a non-empty separator:
    [cur] holds (reversed) the code units of the piece being read, and
    [skip] counts the code units of a separator just matched that are
    still to be passed over. *)
Fixpoint split_scan (sep : jsstring) (skip : nat) (cur s : jsstring)
  : list jsstring :=
  match s with
  | [] => [rev cur]
  | c :: s' =>
      match skip with
      | S n => split_scan sep n cur s'
      | O =>
          if startsWith sep s
          then rev cur :: split_scan sep (length sep - 1) [] s'
          else split_scan sep 0 (c :: cur) s'
      end
  end.

(** [s.split(sep)]; with the empty separator the string falls apart into
    its code units. *)
Definition split (sep s : jsstring) : list jsstring :=
  match sep with
  | [] => map (fun c => [c]) s
  | _ :: _ => split_scan sep 0 [] s
  end.

(** [s.replace(pat, rep)] with a string pattern: the first occurrence
    only.  [rep] is taken literally (the source passes [" "], which has
    no [$] pattern in it). *)
Fixpoint replace (pat rep s : jsstring) : jsstring :=
  if startsWith pat s then rep ++ drop (length pat) s
  else match s with
       | [] => []
       | c :: s' => c :: replace pat rep s'
       end.

End JsString.

(** ** JavaScript values

    [videoInfo] and the parsed caption payload are untyped ([any]) in the
    source: values as [JSON.parse] builds them, and [undefined] for what a
    property read may give.  A number is kept as its canonical rendering
    ([Number.prototype.toString]), which is all the source can observe of
    it: whether it is zero, and what [join] prints. *)

Inductive jsvalue : Type :=
| JUndefined
| JNull
| JBool (b : bool)
| JNum (repr : jsstring)
| JStr (s : jsstring)
| JArr (items : list jsvalue)
| JObj (props : list (jsstring * jsvalue)).

Definition jsstring_eqb (a b : jsstring) : bool := bool_decide (a = b).

Module JsValue.

(** ToBoolean *)
Definition truthy (v : jsvalue) : bool :=
  match v with
  | JUndefined | JNull => false
  | JBool b => b
  | JNum r => negb (jsstring_eqb r (js "0") || jsstring_eqb r (js "NaN"))
  | JStr s => negb (jsstring_eqb s [])
  | JArr _ | JObj _ => true
  end.

(** Own property of an object literal: the first binding of the name. *)
Fixpoint own (name : jsstring) (props : list (jsstring * jsvalue))
  : option jsvalue :=
  match props with
  | [] => None
  | (k, v) :: rest => if jsstring_eqb k name then Some v else own name rest
  end.

(** [v.name] for a name that no built-in prototype defines (every name
    the source reads: events, segs, utf8, subtitles, automatic_captions,
    en, url, categories, title, channel, description).  Reading a
    property of [undefined] or [null] throws a TypeError: [None]. *)
Definition get (name : jsstring) (v : jsvalue) : option jsvalue :=
  match v with
  | JUndefined | JNull => None
  | JObj props => Some (default JUndefined (own name props))
  | JBool _ | JNum _ | JStr _ | JArr _ => Some JUndefined
  end.

(** [v[0]] *)
Definition first (v : jsvalue) : option jsvalue :=
  match v with
  | JUndefined | JNull => None
  | JArr items => Some (default JUndefined (head items))
  | JStr s => Some (match s with [] => JUndefined | c :: _ => JStr [c] end)
  | JObj props => Some (default JUndefined (own (js "0") props))
  | JBool _ | JNum _ => Some JUndefined
  end.

(** The receiver of an array method ([filter], [map]): anything else has
    no such method, and calling it throws a TypeError. *)
Definition as_array (v : jsvalue) : option (list jsvalue) :=
  match v with
  | JArr items => Some items
  | _ => None
  end.

(** ToString, and the element conversion of [Array.prototype.join]
    ([undefined] and [null] print as the empty string). *)
Fixpoint toString (v : jsvalue) : jsstring :=
  match v with
  | JUndefined => js "undefined"
  | JNull => js "null"
  | JBool true => js "true"
  | JBool false => js "false"
  | JNum r => r
  | JStr s => s
  | JArr items =>
      JsString.join (js ",")
        (map (fun x => match x with
                       | JUndefined | JNull => []
                       | _ => toString x
                       end) items)
  | JObj _ => js "[object Object]"
  end.

Definition join_element (v : jsvalue) : jsstring :=
  match v with
  | JUndefined | JNull => []
  | _ => toString v
  end.

(** [items.join(sep)] *)
Definition join (sep : jsstring) (items : list jsvalue) : jsstring :=
  JsString.join sep (map join_element items).

End JsValue.

(** ** What the host provides

    [JSON.parse] ([None] when it throws a SyntaxError), and Node's [path]
    and [os] helpers. *)

Class Host := {
  JSON_parse : jsstring -> option jsvalue;
  path_join : jsstring -> jsstring -> jsstring;
  path_basename : jsstring -> jsstring;
  tmpdir : jsstring;
}.

(** ** Identity: [getVideoId] *)

(** ToInt32 *)
Definition toInt32 (z : Z) : Z := (z + 2 ^ 31) mod 2 ^ 32 - 2 ^ 31.

(** [a << n] *)
Definition int32_shl (a n : Z) : Z := toInt32 (Z.shiftl (toInt32 a) n).

(** [a & b] *)
Definition int32_and (a b : Z) : Z := Z.land (toInt32 a) (toInt32 b).

Definition digit36 (d : Z) : Z := if d <? 10 then 48 + d else 87 + d.

Fixpoint to_base36 (fuel : nat) (n : Z) (acc : jsstring) : jsstring :=
  match fuel with
  | O => acc
  | S fuel' =>
      let acc' := digit36 (n mod 36) :: acc in
      if n / 36 =? 0 then acc' else to_base36 fuel' (n / 36) acc'
  end.

(** [n.toString(36)] for an integer [0 <= n < 36^7]; [Math.abs] of an
    int32 is at most [2^31]. *)
Definition toString36 (n : Z) : jsstring := to_base36 7 n [].

(** One turn of the loop body:
    [hash = ((hash << 5) - hash) + char; hash = hash & hash]. *)
Definition hash_step (hash char : Z) : Z :=
  let hash := (int32_shl hash 5 - hash) + char in
  int32_and hash hash.

Definition getVideoId (url : jsstring) : jsstring :=
  toString36 (Z.abs (fold_left hash_step url 0)).

(** ** The URL pattern of [processVideoFromUrl]

    [/(?:youtu\.be\/|youtube\.com(?:\/embed\/|\/v\/|\/watch\?v=|\/watch\?.+&v=))([^\/&?]+)/]
    matched the way a backtracking matcher does: start positions left to
    right, alternatives in order, both [+] greedy. *)

Module UrlPattern.

Fixpoint strip (p s : jsstring) : option jsstring :=
  match p, s with
  | [], _ => Some s
  | _ :: _, [] => None
  | a :: p', b :: s' => if a =? b then strip p' s' else None
  end.

(** A code unit of the class [[^\/&?]]. *)
Definition id_char (c : Z) : bool :=
  negb ((c =? 47) || (c =? 38) || (c =? 63)).

(** What [.] refuses: the line terminators. *)
Definition line_terminator (c : Z) : bool :=
  (c =? 10) || (c =? 13) || (c =? 8232) || (c =? 8233).

Fixpoint id_run (s : jsstring) : jsstring :=
  match s with
  | [] => []
  | c :: s' => if id_char c then c :: id_run s' else []
  end.

(** The group [([^\/&?]+)]: nothing follows it in the pattern, so the
    greedy run is the match; it must not be empty. *)
Definition group (s : jsstring) : option jsstring :=
  match id_run s with
  | [] => None
  | g => Some g
  end.

(** [.+] followed by [k]: one code unit at least, as many as possible,
    giving back one at a time until [k] matches. *)
Fixpoint dots_then {A} (k : jsstring -> option A) (s : jsstring) : option A :=
  match s with
  | [] => None
  | c :: s' =>
      if line_terminator c then None
      else match dots_then k s' with
           | Some r => Some r
           | None => k s'
           end
  end.

Definition or_else {A} (a b : option A) : option A :=
  match a with
  | Some x => Some x
  | None => b
  end.

(** The pattern anchored at the head of [s]; the result is group 1. *)
Definition match_here (s : jsstring) : option jsstring :=
  or_else (strip (js "youtu.be/") s ≫= group)
    (strip (js "youtube.com") s ≫= fun rest =>
     or_else (strip (js "/embed/") rest ≫= group)
    (or_else (strip (js "/v/") rest ≫= group)
    (or_else (strip (js "/watch?v=") rest ≫= group)
             (strip (js "/watch?") rest ≫=
              dots_then (fun r => strip (js "&v=") r ≫= group))))).

(** [url.match(pattern)?.[1]] *)
Fixpoint group1 (s : jsstring) : option jsstring :=
  match match_here s with
  | Some g => Some g
  | None =>
      match s with
      | [] => None
      | _ :: s' => group1 s'
      end
  end.

End UrlPattern.

(** ** Transcript parsers *)

(** [parseSRT] *)
Definition parseSRT (srtContent : jsstring) : jsstring :=
  JsString.join (js " ")
    (map (fun block =>
            JsString.join (js " ") (drop 2 (JsString.split (js "\n") block)))
         (JsString.split (js "\n\n") srtContent)).

Definition caption_error : jsstring := js "Error: Unable to parse captions".

(** [events.filter((event) => event.segs)]: the callback throws on a
    [null] event. *)
Fixpoint filter_segs (events : list jsvalue) : option (list jsvalue) :=
  match events with
  | [] => Some []
  | event :: rest =>
      segs ← JsValue.get (js "segs") event;
      kept ← filter_segs rest;
      Some (if JsValue.truthy segs then event :: kept else kept)
  end.

(** [event.segs.map((seg) => seg.utf8).join("")] *)
Definition event_text (event : jsvalue) : option jsstring :=
  segs ← JsValue.get (js "segs") event;
  items ← JsValue.as_array segs;
  fragments ← mapM (JsValue.get (js "utf8")) items;
  Some (JsValue.join [] fragments).

Section Parsers.
Context `{Host}.

(** The body of the [try] of [parseCaption]; [None] is a thrown
    exception. *)
Definition parseCaption_try (captionContent : jsstring) : option jsstring :=
  jsonContent ← JSON_parse captionContent;
  events ← JsValue.get (js "events") jsonContent;
  if JsValue.truthy events then
    all ← JsValue.as_array events;
    kept ← filter_segs all;
    texts ← mapM event_text kept;
    Some (JsString.replace (js "\n") (js " ") (JsString.join [] texts))
  else Some caption_error.

(** [parseCaption]: the [catch] turns every exception into the same
    string. *)
Definition parseCaption (captionContent : jsstring) : jsstring :=
  match parseCaption_try captionContent with
  | Some text => text
  | None => caption_error
  end.

End Parsers.

(** ** The cached record and the external calls

    [result] of [processVideoFromUrl]: what [cacheManager.set] stores. *)

Record TranscriptRecord := {
  id : jsstring;
  url : jsstring;
  title : jsvalue;
  source : jsvalue;
  description : jsvalue;
  text : jsstring;
}.

(** What is thrown. *)
Inductive exn : Type :=
| Error (message : jsstring)
| TypeError
| SystemError (code : jsstring)
| Rejection (reason : Z).

Inductive result (A : Type) : Type :=
| Ok (a : A)
| Err (e : exn).
Arguments Ok {A} a.
Arguments Err {A} e.

(** The [Response] of [fetch]: [ok], [statusText], and a handle on the
    body that [text()] and [arrayBuffer()] read. *)
Record Response := {
  ok : bool;
  statusText : jsstring;
  body : Z;
}.

(** The two option sets [youtubeDl] is called with on the transcript
    path. *)
Inductive ytdl_options : Type :=
| DumpJson
| ExtractAudio (output : jsstring).

(** Everything the methods call outside themselves. *)
Inductive op : Type :=
| CacheGet (key : jsstring)
| CacheSet (key : jsstring) (value : TranscriptRecord)
| HttpFetch (target : jsvalue)
| ResponseText (r : Response)
| ResponseArrayBuffer (r : Response)
| YoutubeDl (target : jsstring) (options : ytdl_options)
| Ffmpeg (input output : jsstring)
| ExistsSync (path : jsstring)
| WriteFileSync (path : jsstring) (data : list Z)
| UnlinkSync (path : jsstring)
| ReadFileSync (path : jsstring)
| GetService (name : jsstring)
| Transcribe (audio : list Z).

(** What each call answers with when it does not throw. *)
Definition resp (o : op) : Type :=
  match o with
  | CacheGet _ => option TranscriptRecord
  | CacheSet _ _ => unit
  | HttpFetch _ => Response
  | ResponseText _ => jsstring
  | ResponseArrayBuffer _ => list Z
  | YoutubeDl _ _ => jsvalue
  | Ffmpeg _ _ => unit
  | ExistsSync _ => bool
  | WriteFileSync _ _ => unit
  | UnlinkSync _ => unit
  | ReadFileSync _ => list Z
  | GetService _ => bool
  | Transcribe _ => option jsstring
  end.

(** The [fs.*Sync] calls and [runtime.getService] answer on the spot; the
    others are awaited. *)
Definition is_sync (o : op) : bool :=
  match o with
  | ExistsSync _ | WriteFileSync _ _ | UnlinkSync _ | ReadFileSync _
  | GetService _ => true
  | _ => false
  end.

(** ** Asynchronous methods as processes

    A method is a tree: it returns, throws, or makes a call and goes on
    with the answer.  [Crash] is an exception that escapes an event
    callback: no promise sees it and no [catch] stops it. *)

Inductive proc (A : Type) : Type :=
| Ret (a : A)
| Throw (e : exn)
| Crash (e : exn)
| Call (o : op) (k : result (resp o) -> proc A).
Arguments Ret {A} a.
Arguments Throw {A} e.
Arguments Crash {A} e.
Arguments Call {A} o k.

Module Proc.

Fixpoint bind {A B} (p : proc A) (f : A -> proc B) : proc B :=
  match p with
  | Ret a => f a
  | Throw e => Throw e
  | Crash e => Crash e
  | Call o k => Call o (fun r => bind (k r) f)
  end.

(** [try { p } catch (e) { h e }] *)
Fixpoint try_catch {A} (p : proc A) (h : exn -> proc A) : proc A :=
  match p with
  | Ret a => Ret a
  | Throw e => h e
  | Crash e => Crash e
  | Call o k => Call o (fun r => try_catch (k r) h)
  end.

(** A call whose failure is thrown where it is made. *)
Definition call (o : op) : proc (resp o) :=
  Call o (fun r => match r with
                   | Ok x => Ret x
                   | Err e => Throw e
                   end).

(** A property read: [None] is the TypeError. *)
Definition read {A} (x : option A) : proc A :=
  match x with
  | Some a => Ret a
  | None => Throw TypeError
  end.

End Proc.

#[global] Instance proc_ret : MRet proc := @Ret.
#[global] Instance proc_bind : MBind proc := fun A B f p => Proc.bind p f.

(** The calls, each with the type of its answer. *)
Module Ext.
Definition cacheGet (key : jsstring) : proc (option TranscriptRecord) :=
  Proc.call (CacheGet key).
Definition cacheSet (key : jsstring) (value : TranscriptRecord) : proc unit :=
  Proc.call (CacheSet key value).
Definition fetch (target : jsvalue) : proc Response :=
  Proc.call (HttpFetch target).
Definition responseText (r : Response) : proc jsstring :=
  Proc.call (ResponseText r).
Definition arrayBuffer (r : Response) : proc (list Z) :=
  Proc.call (ResponseArrayBuffer r).
Definition youtubeDl (target : jsstring) (options : ytdl_options)
  : proc jsvalue :=
  Proc.call (YoutubeDl target options).
Definition existsSync (path : jsstring) : proc bool :=
  Proc.call (ExistsSync path).
Definition writeFileSync (path : jsstring) (data : list Z) : proc unit :=
  Proc.call (WriteFileSync path data).
Definition readFileSync (path : jsstring) : proc (list Z) :=
  Proc.call (ReadFileSync path).
Definition getService (name : jsstring) : proc bool :=
  Proc.call (GetService name).
Definition transcribe (audio : list Z) : proc (option jsstring) :=
  Proc.call (Transcribe audio).
End Ext.

(** ** The methods of [VideoService] *)

Definition cacheKey : jsstring := js "content/video".
Definition dataDir : jsstring := js "./content_cache".

Definition isVideoUrl (url : jsstring) : bool :=
  JsString.includes (js "youtube.com") url ||
  JsString.includes (js "youtu.be") url ||
  JsString.includes (js "vimeo.com") url.

(** [url.endsWith(".mp4") || url.includes(".mp4?")] *)
Definition is_mp4 (url : jsstring) : bool :=
  JsString.endsWith (js ".mp4") url || JsString.includes (js ".mp4?") url.

(** [a && b], with [b] evaluated only when [a] is truthy. *)
Definition js_and (a : jsvalue) (b : proc jsvalue) : proc jsvalue :=
  if JsValue.truthy a then b else Ret a.

(** [categories.includes("Music")]: an array method, and a string method
    too; any other receiver has none. *)
Definition includes_Music (categories : jsvalue) : option bool :=
  match categories with
  | JArr items =>
      Some (existsb (fun x => match x with
                              | JStr s => jsstring_eqb s (js "Music")
                              | _ => false
                              end) items)
  | JStr s => Some (JsString.includes (js "Music") s)
  | _ => None
  end.

Section Methods.
Context `{Host}.

(** [url.match(...)?.[1] || ""] *)
Definition matched_videoId (url : jsstring) : jsstring :=
  match UrlPattern.group1 url with
  | Some g => if JsValue.truthy (JStr g) then g else []
  | None => []
  end.

(** The key [processVideoFromUrl] reads and writes the cache under. *)
Definition cache_key_of (url : jsstring) : jsstring :=
  cacheKey ++ js "/" ++ getVideoId (matched_videoId url).

Definition fetchVideoInfo (url : jsstring) : proc jsvalue :=
  direct ← (if is_mp4 url then
              Proc.try_catch
                (response ← Ext.fetch (JStr url);
                 if ok response then
                   Ret (Some (JObj [(js "title", JStr (path_basename url));
                                    (js "description", JStr []);
                                    (js "channel", JStr [])]))
                 else Ret None)
                (fun _ => Ret None)
            else Ret None);
  match direct with
  | Some info => Ret info
  | None =>
      Proc.try_catch
        (Ext.youtubeDl url DumpJson)
        (fun _ => Throw (Error (js "Failed to fetch video information")))
  end.

Definition downloadSRT (target : jsvalue) : proc jsstring :=
  response ← Ext.fetch target;
  Ext.responseText response.

Definition downloadCaption (target : jsvalue) : proc jsstring :=
  response ← Ext.fetch target;
  if negb (ok response) then
    Throw (Error (js "Failed to download caption: " ++ statusText response))
  else Ext.responseText response.

(** The promise around [ffmpeg(inputPath)...run()]: resolved on "end",
    rejected on "error". *)
Definition convertMp4ToMp3 (inputPath outputPath : jsstring) : proc unit :=
  Proc.call (Ffmpeg inputPath outputPath).

Definition downloadAudio (url : jsstring) (outputFile : option jsstring)
  : proc jsstring :=
  let outputFile :=
    default (path_join dataDir (getVideoId url ++ js ".mp3")) outputFile in
  Proc.try_catch
    (if is_mp4 url then
       let tempMp4File := path_join tmpdir (getVideoId url ++ js ".mp4") in
       response ← Ext.fetch (JStr url);
       buffer ← Ext.arrayBuffer response;
       _ ← Ext.writeFileSync tempMp4File buffer;
       _ ← Call (Ffmpeg tempMp4File outputFile)
             (fun r =>
                match r with
                | Ok _ =>
                    (* .on("end", () => { fs.unlinkSync(tempMp4File); resolve(); }) *)
                    Call (UnlinkSync tempMp4File)
                      (fun u => match u with
                                | Ok _ => Ret tt
                                | Err e => Crash e
                                end)
                | Err err =>
                    (* .on("error", (err) => { reject(err); }) *)
                    Throw err
                end);
       Ret outputFile
     else
       _ ← Ext.youtubeDl url (ExtractAudio outputFile);
       Ret outputFile)
    (fun _ => Throw (Error (js "Failed to download audio"))).

Definition transcribeAudio (url : jsstring) : proc jsstring :=
  let mp4FilePath := path_join dataDir (getVideoId url ++ js ".mp4") in
  let mp3FilePath := path_join dataDir (getVideoId url ++ js ".mp3") in
  has_mp3 ← Ext.existsSync mp3FilePath;
  _ ← (if negb has_mp3 then
         has_mp4 ← Ext.existsSync mp4FilePath;
         if (has_mp4 : bool) then convertMp4ToMp3 mp4FilePath mp3FilePath
         else _ ← downloadAudio url (Some mp3FilePath); Ret tt
       else Ret tt);
  audioBuffer ← Ext.readFileSync mp3FilePath;
  transcriptionService ← Ext.getService (js "TRANSCRIPTION");
  if negb transcriptionService then
    Throw (Error (js "Transcription service not found"))
  else
    transcript ← Ext.transcribe audioBuffer;
    Ret (match transcript with
         | Some t => if JsValue.truthy (JStr t) then t
                     else js "Transcription failed"
         | None => js "Transcription failed"
         end).

Definition getTranscript (url : jsstring) (videoInfo : jsvalue)
  : proc jsstring :=
  Proc.try_catch
    (subtitles ← Proc.read (JsValue.get (js "subtitles") videoInfo);
     manual ← js_and subtitles (Proc.read (JsValue.get (js "en") subtitles));
     if JsValue.truthy manual then
       track ← Proc.read (JsValue.first manual);
       target ← Proc.read (JsValue.get (js "url") track);
       srtContent ← downloadSRT target;
       Ret (parseSRT srtContent)
     else
       captions ← Proc.read (JsValue.get (js "automatic_captions") videoInfo);
       automatic ← js_and captions (Proc.read (JsValue.get (js "en") captions));
       if JsValue.truthy automatic then
         track ← Proc.read (JsValue.first automatic);
         captionUrl ← Proc.read (JsValue.get (js "url") track);
         captionContent ← downloadCaption captionUrl;
         Ret (parseCaption captionContent)
       else
         categories ← Proc.read (JsValue.get (js "categories") videoInfo);
         music ← (if JsValue.truthy categories
                  then Proc.read (includes_Music categories)
                  else Ret false);
         if (music : bool) then Ret (js "No lyrics available.")
         else transcribeAudio url)
    (fun error => Throw error).

Definition processVideoFromUrl (url : jsstring) : proc TranscriptRecord :=
  let videoId := matched_videoId url in
  let videoUuid := getVideoId videoId in
  let cacheKey := cacheKey ++ js "/" ++ videoUuid in
  cached ← Ext.cacheGet cacheKey;
  match cached with
  | Some record => Ret record
  | None =>
      videoInfo ← fetchVideoInfo url;
      transcript ← getTranscript url videoInfo;
      title ← Proc.read (JsValue.get (js "title") videoInfo);
      source ← Proc.read (JsValue.get (js "channel") videoInfo);
      description ← Proc.read (JsValue.get (js "description") videoInfo);
      let result := {| id := videoUuid; url := url; title := title;
                       source := source; description := description;
                       text := transcript |} in
      _ ← Ext.cacheSet cacheKey result;
      Ret result
  end.

End Methods.

(** ** The store the calls act on

    The cache behind [runtime.cacheManager] (a key-value store that keeps
    what [set] gave it), the files [fs] sees, and the calls made so far,
    oldest first. *)

Record World := {
  cache : gmap (list Z) TranscriptRecord;
  files : gmap (list Z) (list Z);
  log : list op;
}.

(** The world outside: how the network, the tools and the host answer,
    given everything that happened before.  A tool also says what it
    leaves at its output path ([None]: nothing written); it touches no
    other file. *)
Record Env := {
  env_fetch : World -> jsvalue -> result Response;
  env_text : World -> Response -> result (list Z);
  env_bytes : World -> Response -> result (list Z);
  env_youtubeDl :
    World -> list Z -> ytdl_options -> result jsvalue * option (list Z);
  env_ffmpeg : World -> list Z -> list Z -> result unit * option (list Z);
  env_service : World -> list Z -> bool;
  env_transcribe : World -> list Z -> result (option (list Z));
}.

Definition logged (o : op) (w : World) : World :=
  {| cache := cache w; files := files w; log := log w ++ [o] |}.

Definition with_cache (c : gmap (list Z) TranscriptRecord) (w : World)
  : World :=
  {| cache := c; files := files w; log := log w |}.

Definition with_files (f : gmap (list Z) (list Z)) (w : World) : World :=
  {| cache := cache w; files := f; log := log w |}.

Definition written (path : jsstring) (data : option (list Z)) (w : World)
  : World :=
  match data with
  | Some d => with_files (<[path := d]> (files w)) w
  | None => w
  end.

Definition ENOENT : exn := SystemError (js "ENOENT").

(** One call, made in world [w]. *)
Definition perform (env : Env) (o : op) (w : World)
  : result (resp o) * World :=
  let w1 := logged o w in
  match o return result (resp o) * World with
  | CacheGet key => (Ok (cache w !! key), w1)
  | CacheSet key value => (Ok tt, with_cache (<[key := value]> (cache w)) w1)
  | HttpFetch target => (env_fetch env w target, w1)
  | ResponseText r => (env_text env w r, w1)
  | ResponseArrayBuffer r => (env_bytes env w r, w1)
  | YoutubeDl target options =>
      let '(answer, data) := env_youtubeDl env w target options in
      (answer, match options with
               | ExtractAudio output => written output data w1
               | DumpJson => w1
               end)
  | Ffmpeg input output =>
      let '(answer, data) := env_ffmpeg env w input output in
      (answer, written output data w1)
  | ExistsSync path => (Ok (bool_decide (is_Some (files w !! path))), w1)
  | WriteFileSync path data => (Ok tt, written path (Some data) w1)
  | UnlinkSync path =>
      match files w !! path with
      | Some _ => (Ok tt, with_files (delete path (files w)) w1)
      | None => (Err ENOENT, w1)
      end
  | ReadFileSync path =>
      match files w !! path with
      | Some data => (Ok data, w1)
      | None => (Err ENOENT, w1)
      end
  | GetService name => (Ok (env_service env w name), w1)
  | Transcribe audio => (env_transcribe env w audio, w1)
  end.

Inductive outcome (A : Type) : Type :=
| Returned (a : A)
| Thrown (e : exn)
| Crashed (e : exn).
Arguments Returned {A} a.
Arguments Thrown {A} e.
Arguments Crashed {A} e.

(** A method run alone, from its call to its end. *)
Fixpoint run {A} (env : Env) (w : World) (p : proc A) : World * outcome A :=
  match p with
  | Ret a => (w, Returned a)
  | Throw e => (w, Thrown e)
  | Crash e => (w, Crashed e)
  | Call o k => let '(r, w') := perform env o w in run env w' (k r)
  end.

(** A method run up to its next [await]. *)
Fixpoint settle {A} (env : Env) (w : World) (p : proc A) : World * proc A :=
  match p with
  | Call o k =>
      if is_sync o
      then let '(r, w') := perform env o w in settle env w' (k r)
      else (w, p)
  | _ => (w, p)
  end.

(** The awaited call answers, and the method goes on to its next
    [await]. *)
Definition resume {A} (env : Env) (w : World) (p : proc A) : World * proc A :=
  match p with
  | Call o k => let '(r, w') := perform env o w in settle env w' (k r)
  | _ => (w, p)
  end.

(** ** The queue: [processVideo], [processQueue], [checkQueue]

    The service runs on one thread; what is in flight at any time is a
    set of suspended activations.  A schedule says which one goes on
    next, or that a new [processVideo] call arrives. *)

(** Who started an invocation of [processVideoFromUrl]: the drain loop of
    [processQueue], or the [checkQueue] of submission [id]. *)
Inductive origin : Type :=
| ByDrain
| ByCaller (id : nat).

Inductive task : Type :=
| Drain (p : proc TranscriptRecord)
    (** [processQueue], inside [await this.processVideoFromUrl(url, runtime)] *)
| Poll (id : nat) (url : jsstring)
    (** [checkQueue], waiting for [setTimeout(checkQueue, 100)] *)
| Caller (id : nat) (url : jsstring) (p : proc TranscriptRecord)
    (** [checkQueue], inside its own [await this.processVideoFromUrl(url, runtime)] *)
| Finished.

(** How the promise returned by [processVideo] is settled. *)
Inductive settled : Type :=
| Resolved (r : TranscriptRecord)
| Rejected (e : exn).

Record Machine := {
  queue : list (list Z);            (** [this.queue] *)
  processing : bool;                (** [this.processing] *)
  world : World;
  tasks : list task;
  submitted : list (list Z);        (** the URL of each [processVideo] call, by id *)
  promises : gmap nat settled;      (** the settled ones among their promises *)
  invoked : list (origin * list Z); (** every [processVideoFromUrl] call, oldest first *)
  halted : bool;                    (** an exception escaped or a rejection
                                        went unhandled: the process is gone *)
}.

Definition init (w : World) : Machine :=
  {| queue := []; processing := false; world := w; tasks := [];
     submitted := []; promises := ∅; invoked := []; halted := false |}.

Definition set_queue (q : list (list Z)) (m : Machine) : Machine :=
  {| queue := q; processing := processing m; world := world m;
     tasks := tasks m; submitted := submitted m; promises := promises m;
     invoked := invoked m; halted := halted m |}.

Definition set_processing (b : bool) (m : Machine) : Machine :=
  {| queue := queue m; processing := b; world := world m;
     tasks := tasks m; submitted := submitted m; promises := promises m;
     invoked := invoked m; halted := halted m |}.

Definition set_tasks (ts : list task) (m : Machine) : Machine :=
  {| queue := queue m; processing := processing m; world := world m;
     tasks := ts; submitted := submitted m; promises := promises m;
     invoked := invoked m; halted := halted m |}.

Definition set_submitted (s : list (list Z)) (m : Machine) : Machine :=
  {| queue := queue m; processing := processing m; world := world m;
     tasks := tasks m; submitted := s; promises := promises m;
     invoked := invoked m; halted := halted m |}.

Definition set_promises (ps : gmap nat settled) (m : Machine) : Machine :=
  {| queue := queue m; processing := processing m; world := world m;
     tasks := tasks m; submitted := submitted m; promises := ps;
     invoked := invoked m; halted := halted m |}.

Definition set_halted (b : bool) (m : Machine) : Machine :=
  {| queue := queue m; processing := processing m; world := world m;
     tasks := tasks m; submitted := submitted m; promises := promises m;
     invoked := invoked m; halted := b |}.

Definition crashed {A} (p : proc A) : bool :=
  match p with
  | Crash _ => true
  | _ => false
  end.

Section Queue.
Context `{Host}.
Variable env : Env.

(** [this.processVideoFromUrl(url, runtime)] is called: it runs to its
    first [await]. *)
Definition invoke (who : origin) (url : jsstring) (m : Machine)
  : Machine * proc TranscriptRecord :=
  let '(w, p) := settle env (world m) (processVideoFromUrl url) in
  ({| queue := queue m; processing := processing m; world := w;
      tasks := tasks m; submitted := submitted m; promises := promises m;
      invoked := invoked m ++ [(who, url)];
      halted := halted m || crashed p |}, p).

(** The awaited call of a suspended invocation answers. *)
Definition answer (p : proc TranscriptRecord) (m : Machine)
  : Machine * proc TranscriptRecord :=
  let '(w, p') := resume env (world m) p in
  ({| queue := queue m; processing := processing m; world := w;
      tasks := tasks m; submitted := submitted m; promises := promises m;
      invoked := invoked m; halted := halted m || crashed p' |}, p').

(** The [while] of [processQueue] at its test: take the head of the queue
    and process it, or leave the loop and clear the flag. *)
Definition drain_turn (m : Machine) : Machine * task :=
  match queue m with
  | [] => (set_processing false m, Finished)
  | url :: rest =>
      let '(m', p) := invoke ByDrain url (set_queue rest m) in
      (m', Drain p)
  end.

(** [processQueue(runtime)], up to its first [await]. *)
Definition processQueue (m : Machine) : Machine :=
  if processing m || bool_decide (queue m = []) then m
  else
    let '(m', t) := drain_turn (set_processing true m) in
    set_tasks (tasks m' ++ [t]) m'.

(** [checkQueue()] of submission [id]. *)
Definition checkQueue (id : nat) (url : jsstring) (m : Machine)
  : Machine * task :=
  if bool_decide (url ∈ queue m)    (* this.queue.indexOf(url) !== -1 *)
  then (m, Poll id url)
  else
    let '(m', p) := invoke (ByCaller id) url m in
    (m', Caller id url p).

(** [processVideo(url, runtime)], up to the return of its promise. *)
Definition processVideo (url : jsstring) (m : Machine) : Machine :=
  let id := length (submitted m) in
  let m := set_submitted (submitted m ++ [url]) (set_queue (queue m ++ [url]) m) in
  let m := processQueue m in
  let '(m, t) := checkQueue id url m in
  set_tasks (tasks m ++ [t]) m.

Definition set_task (i : nat) (t : task) (m : Machine) : Machine :=
  set_tasks (<[i := t]> (tasks m)) m.

(** Task [i] goes on. *)
Definition fire (i : nat) (m : Machine) : Machine :=
  match tasks m !! i with
  | None | Some Finished => m
  | Some (Poll id url) =>
      let '(m', t) := checkQueue id url m in set_task i t m'
  | Some (Drain p) =>
      match p with
      | Call _ _ => let '(m', p') := answer p m in set_task i (Drain p') m'
      | Ret _ => let '(m', t) := drain_turn m in set_task i t m'
      | Throw _ =>
          (* the [await] throws and nothing in [processQueue] catches it:
             its promise is rejected, and [processVideo] called it with
             neither [await] nor [catch], so the rejection is unhandled
             and ends the process *)
          set_halted true m
      | Crash _ => set_halted true m
      end
  | Some (Caller id url p) =>
      match p with
      | Call _ _ => let '(m', p') := answer p m in set_task i (Caller id url p') m'
      | Ret r =>
          set_task i Finished (set_promises (<[id := Resolved r]> (promises m)) m)
      | Throw e =>
          set_task i Finished (set_promises (<[id := Rejected e]> (promises m)) m)
      | Crash _ => set_halted true m
      end
  end.

Inductive event : Type :=
| Submit (url : jsstring)
| Fire (i : nat).

Definition step (m : Machine) (ev : event) : Machine :=
  if halted m then m
  else match ev with
       | Submit url => processVideo url m
       | Fire i => fire i m
       end.

Definition exec (evs : list event) (m : Machine) : Machine :=
  fold_left step evs m.

End Queue.

(** ** [downloadMedia]

    The download outside the transcript path, on the files alone.
    [youtubeDl] is called here with [{verbose, output, writeInfoJson}]:
    given the files, the URL and the output path, it answers and says
    what it leaves at the output path ([None]: nothing written). *)

Definition Downloader : Type :=
  gmap (list Z) (list Z) -> jsstring -> jsstring ->
  result jsvalue * option (list Z).

Section Download.
Context `{Host}.
Variable youtubeDl : Downloader.

Definition downloadMedia (url : jsstring) (fs : gmap (list Z) (list Z))
  : gmap (list Z) (list Z) * outcome jsstring :=
  let videoId := getVideoId url in
  let outputFile := path_join dataDir (videoId ++ js ".mp4") in
  (* if it already exists, return it *)
  if bool_decide (is_Some (fs !! outputFile)) then (fs, Returned outputFile)
  else
    let '(answer, data) := youtubeDl fs url outputFile in
    let fs' := match data with
               | Some d => <[outputFile := d]> fs
               | None => fs
               end in
    match answer with
    | Ok _ => (fs', Returned outputFile)
    | Err _ => (fs', Thrown (Error (js "Failed to download media")))
    end.

End Download.

(** ** The vocabulary of the statements *)

#[global] Instance origin_eq_dec : EqDecision origin.
Proof. solve_decision. Defined.

(** An answer as the outcome of the call that got it. *)
Definition as_outcome {A} (r : result A) : outcome A :=
  match r with
  | Ok x => Returned x
  | Err e => Thrown e
  end.

(** The calls made between two worlds. *)
Definition calls_since (w w' : World) : list op :=
  drop (length (log w)) (log w').

(** *** Caption payloads *)

(** The parsed value has a field of that name. *)
Definition has_field (name : jsstring) (v : jsvalue) : Prop :=
  ∃ props x, v = JObj props ∧ JsValue.own name props = Some x.

(** A well-formed caption payload, read next to the text it carries: a
    segment is an object with a string [utf8]; an event is an object with
    no [segs] (it carries nothing) or with an array of segments; the
    payload is an object whose [events] is an array of events. *)
Definition segment (seg : jsvalue) (fragment : jsstring) : Prop :=
  ∃ props, seg = JObj props ∧ JsValue.own (js "utf8") props = Some (JStr fragment).

Definition caption_event (event : jsvalue) (fragments : list jsstring) : Prop :=
  ∃ props, event = JObj props ∧
    ((JsValue.own (js "segs") props = None ∧ fragments = []) ∨
     (∃ segs, JsValue.own (js "segs") props = Some (JArr segs) ∧
              Forall2 segment segs fragments)).

Definition caption_payload (v : jsvalue) (events : list (list jsstring)) : Prop :=
  ∃ props evs, v = JObj props ∧
    JsValue.own (js "events") props = Some (JArr evs) ∧
    Forall2 caption_event evs events.

(** *** Tracks of [videoInfo] *)

(** [videoInfo[field].en] is a non-empty array whose first element is a
    track object; [target] is what its [url] reads as. *)
Definition english_track (field : jsstring) (videoInfo target : jsvalue)
  : Prop :=
  ∃ props langs tprops rest,
    videoInfo = JObj props ∧
    JsValue.own field props = Some (JObj langs) ∧
    JsValue.own (js "en") langs = Some (JArr (JObj tprops :: rest)) ∧
    target = default JUndefined (JsValue.own (js "url") tprops).

(** *** Suspended methods *)

(** What a suspended method has become after its awaited calls were
    answered one after the other, the first in the first world of [ws],
    the next in the second, and so on: each answer is the one the outside
    world gives in that world, and the method runs on to its next
    [await]. *)
Fixpoint turns {A} (env : Env) (ws : list World) (p : proc A) : proc A :=
  match ws with
  | [] => p
  | w :: ws' => turns env ws' (resume env w p).2
  end.

(** The worlds a schedule goes through: the one each of its events
    happens in, in their order. *)
Fixpoint worlds `{Host} (env : Env) (m : Machine) (evs : list event)
  : list World :=
  match evs with
  | [] => []
  | ev :: evs' => world m :: worlds env (step env m ev) evs'
  end.

(** The call a suspended method is waiting for. *)
Definition head_call {A} (p : proc A) : option op :=
  match p with
  | Call o _ => Some o
  | _ => None
  end.

(** The first call of [fetchVideoInfo]. *)
Definition metadata_call (url : list Z) : op :=
  if is_mp4 url then HttpFetch (JStr url) else YoutubeDl url DumpJson.

(** How a settled promise looks as the end of an invocation. *)
Definition leaf (s : settled) : proc TranscriptRecord :=
  match s with
  | Resolved r => Ret r
  | Rejected e => Throw e
  end.

(** *** States of the queue *)

(** Task [t] is a drain loop. *)
Definition is_drain (t : task) : bool :=
  match t with
  | Drain _ => true
  | _ => false
  end.

(** At most one task is a drain loop, and none is when the flag is
    down. *)
Definition lone_drain (flag : bool) (ts : list task) : Prop :=
  (∀ i j p q, ts !! i = Some (Drain p) → ts !! j = Some (Drain q) → i = j) ∧
  (flag = false → ∀ i p, ts !! i ≠ Some (Drain p)).

Definition single_flight (m : Machine) : Prop :=
  lone_drain (processing m) (tasks m).

(** In the list of invocations, each one made by a caller comes after one
    made by the drain loop for the same URL. *)
Definition follows_drain (l : list (origin * list Z)) : Prop :=
  ∀ l1 id u l2, l = l1 ++ (ByCaller id, u) :: l2 → (ByDrain, u) ∈ l1.

Section Known.
Context `{Host}.
Variable env : Env.

(** What is known of a task, [past] being the worlds gone through so far:
    a poll belongs to a submission of its URL; a caller, besides, is
    inside an invocation of [processVideoFromUrl] for that URL that it
    made itself, and is where that invocation stands after its turns, in
    worlds gone through, in that order. *)
Definition known (past : list World) (sub : list (list Z))
    (inv : list (origin * list Z)) (t : task) : Prop :=
  match t with
  | Poll id u => sub !! id = Some u
  | Caller id u p =>
      sub !! id = Some u ∧ (ByCaller id, u) ∈ inv ∧
      ∃ ws, ws `sublist_of` past ∧ turns env ws (processVideoFromUrl u) = p
  | Drain _ | Finished => True
  end.

Record consistent_of (past : list World) (q : list (list Z))
    (ts : list task) (sub : list (list Z)) (pr : gmap nat settled)
    (inv : list (origin * list Z)) : Prop := {
  drained_or_queued : ∀ u, u ∈ sub → u ∈ q ∨ (ByDrain, u) ∈ inv;
  tasks_known : Forall (known past sub inv) ts;
  callers_follow : follows_drain inv;
  promises_known : ∀ id s, pr !! id = Some s →
    ∃ u ws, sub !! id = Some u ∧ (ByCaller id, u) ∈ inv ∧
            ws `sublist_of` past ∧
            turns env ws (processVideoFromUrl u) = leaf s;
}.

Definition consistent (past : list World) (m : Machine) : Prop :=
  consistent_of past (queue m) (tasks m) (submitted m) (promises m)
    (invoked m).

End Known.

(** *** Identifiers *)

(** A digit as [toString(36)] prints it: [0-9a-z]. *)
Definition base36_digit (c : Z) : bool :=
  ((48 <=? c) && (c <=? 57)) || ((97 <=? c) && (c <=? 122)).

(** The loop of [getVideoId] in exact arithmetic, without the wrap-around
    of [<<] and [&]: [31 * hash + char] at every turn. *)
Definition polynomial31 (url : jsstring) : Z :=
  fold_left (fun hash char => 31 * hash + char) url 0.

(** *** URL shapes *)

(** The URLs of one video, by the shapes the pattern knows. *)
Definition short_url (videoId : jsstring) : jsstring :=
  js "https://youtu.be/" ++ videoId.
Definition watch_url (videoId : jsstring) : jsstring :=
  js "https://www.youtube.com/watch?v=" ++ videoId.
Definition embed_url (videoId : jsstring) : jsstring :=
  js "https://www.youtube.com/embed/" ++ videoId.
Definition v_url (videoId : jsstring) : jsstring :=
  js "https://www.youtube.com/v/" ++ videoId.

(** A non-empty run of code units of the class [[^\/&?]]. *)
Definition is_video_id (videoId : jsstring) : bool :=
  negb (jsstring_eqb videoId []) && forallb UrlPattern.id_char videoId.

(** What may follow a video ID in a URL: nothing, or a code unit outside
    the class. *)
Definition ends_id (tail : jsstring) : bool :=
  match tail with
  | [] => true
  | c :: _ => negb (UrlPattern.id_char c)
  end.

(** *** SRT cues *)

(** A line of a cue: not empty, and with no line feed in it. *)
Definition srt_line (line : jsstring) : bool :=
  negb (jsstring_eqb line []) && forallb (fun c => negb (c =? 10)) line.

(** A cue as an SRT file has it: the counter, the timing, and the lines
    of text. *)
Record Cue := {
  counter : jsstring;
  timing : jsstring;
  captions : list jsstring;
}.

Definition well_formed_cue (c : Cue) : bool :=
  srt_line (counter c) && srt_line (timing c) && forallb srt_line (captions c).

Definition cue_block (c : Cue) : jsstring :=
  JsString.join (js "\n") (counter c :: timing c :: captions c).

(** The file: the cues, a blank line between two of them. *)
Definition srt_of (cues : list Cue) : jsstring :=
  JsString.join (js "\n\n") (cue_block <$> cues).

(** *** Caption payloads that do not parse *)

(** [segs] is there and truthy, but is no array, or holds a [null] or
    [undefined] segment. *)
Definition malformed_segs (event : jsvalue) : Prop :=
  ∃ segs, JsValue.get (js "segs") event = Some segs ∧
    JsValue.truthy segs = true ∧
    (JsValue.as_array segs = None ∨
     ∃ items, segs = JArr items ∧ (JNull ∈ items ∨ JUndefined ∈ items)).

(** [events] is falsy, or is no array, or holds a [null] or [undefined]
    event, or an event with malformed segments. *)
Definition malformed_events (events : jsvalue) : Prop :=
  JsValue.truthy events = false ∨
  JsValue.as_array events = None ∨
  ∃ items, events = JArr items ∧
    (JNull ∈ items ∨ JUndefined ∈ items ∨
     ∃ event, event ∈ items ∧ malformed_segs event).

(** *** Metadata *)

(** The simplified video info [fetchVideoInfo] builds for a direct
    link. *)
Definition direct_info `{Host} (url : jsstring) : jsvalue :=
  JObj [(js "title", JStr (path_basename url));
        (js "description", JStr []);
        (js "channel", JStr [])].

(** The URL is a direct link and [fetch] answers it with [ok]. *)
Definition fetched_directly (env : Env) (w : World) (url : jsstring) : bool :=
  is_mp4 url &&
  match env_fetch env w (JStr url) with
  | Ok response => ok response
  | Err _ => false
  end.

(** [videoInfo[field] && videoInfo[field].en] is falsy. *)
Definition no_english_track (field : jsstring) (videoInfo : jsvalue) : Prop :=
  ∃ tracks, JsValue.get field videoInfo = Some tracks ∧
    (JsValue.truthy tracks = false ∨
     ∃ en, JsValue.get (js "en") tracks = Some en ∧ JsValue.truthy en = false).

(** [videoInfo[field].en] is an array with nothing in it. *)
Definition empty_english_track (field : jsstring) (videoInfo : jsvalue)
  : Prop :=
  ∃ props langs,
    videoInfo = JObj props ∧
    JsValue.own field props = Some (JObj langs) ∧
    JsValue.own (js "en") langs = Some (JArr []).

(** [videoInfo.categories && videoInfo.categories.includes("Music")] is
    truthy, or is falsy without a TypeError. *)
Definition music_video (videoInfo : jsvalue) : Prop :=
  ∃ categories, JsValue.get (js "categories") videoInfo = Some categories ∧
    JsValue.truthy categories = true ∧ includes_Music categories = Some true.

Definition no_music_video (videoInfo : jsvalue) : Prop :=
  ∃ categories, JsValue.get (js "categories") videoInfo = Some categories ∧
    (JsValue.truthy categories = false ∨ includes_Music categories = Some false).

(** *** What a method never does *)

(** However its calls are answered, [p] makes no [cacheManager.set]. *)
Fixpoint cache_free {A} (p : proc A) : Prop :=
  match p with
  | Call o k =>
      match o with
      | CacheSet _ _ => False
      | _ => True
      end ∧ ∀ r, cache_free (k r)
  | _ => True
  end.

(** *** The order of the queue *)

(** The URLs the drain loop has taken, in the order it took them. *)
Definition drained (inv : list (origin * list Z)) : list (list Z) :=
  omap (fun x => match x.1 with
                 | ByDrain => Some x.2
                 | ByCaller _ => None
                 end) inv.

(** What was submitted is what the drain loop has taken followed by what
    is still queued. *)
Definition fifo (m : Machine) : Prop :=
  submitted m = drained (invoked m) ++ queue m.

(** ** A sample host and sample inputs

    Used where a statement is tried on concrete data.  The caption text is
    written without its quotation marks. *)

Definition sample_caption_text : jsstring :=
  js "{events:[{segs:[{utf8:Hello\nbig}]},{},{segs:[{utf8:\nworld},{utf8:!}]}]}".

Definition sample_caption_value : jsvalue :=
  JObj [(js "events",
         JArr [JObj [(js "tStartMs", JNum (js "0"));
                     (js "segs", JArr [JObj [(js "utf8", JStr (js "Hello\nbig"))]])];
               JObj [(js "tStartMs", JNum (js "40"))];
               JObj [(js "segs", JArr [JObj [(js "utf8", JStr (js "\nworld"))];
                                       JObj [(js "utf8", JStr (js "!"))]])]])].

#[local] Instance sample_host : Host := {|
  JSON_parse := fun s =>
    if jsstring_eqb s sample_caption_text then Some sample_caption_value
    else None;
  path_join := fun a b => a ++ js "/" ++ b;
  path_basename := fun p => List.last (JsString.split (js "/") p) [];
  tmpdir := js "/tmp";
|}.

(** A music video as [youtubeDl] describes it, with no subtitle and no
    caption track. *)
Definition sample_music_info : jsvalue :=
  JObj [(js "title", JStr (js "A song"));
        (js "channel", JStr (js "A band"));
        (js "description", JStr (js "Official video"));
        (js "categories", JArr [JStr (js "Music")])].

(** A video with both tracks. *)
Definition sample_subtitled_info : jsvalue :=
  JObj [(js "title", JStr (js "A talk"));
        (js "subtitles",
         JObj [(js "en", JArr [JObj [(js "ext", JStr (js "srt"));
                                     (js "url", JStr (js "https://subs.example/en.srt"))]])]);
        (js "automatic_captions",
         JObj [(js "en", JArr [JObj [(js "url", JStr (js "https://subs.example/auto.json3"))]])])].

Definition sample_srt : jsstring :=
  js "1\n00:00:00,000 --> 00:00:02,000\nHello world\n\n2\n00:00:02,000 --> 00:00:04,000\nSecond line\n\n".

(** An outside world where everything answers: metadata is the music
    video's, every download succeeds, the tools write their output. *)
Definition sample_env : Env := {|
  env_fetch := fun _ _ => Ok {| ok := true; statusText := js "OK"; body := 1 |};
  env_text := fun _ _ => Ok sample_srt;
  env_bytes := fun _ _ => Ok [0; 0; 0; 24];
  env_youtubeDl := fun _ _ _ => (Ok sample_music_info, Some [73; 68; 51]);
  env_ffmpeg := fun _ _ _ => (Ok tt, Some [73; 68; 51]);
  env_service := fun _ _ => true;
  env_transcribe := fun _ _ => Ok (Some (js "spoken words"));
|}.

(** An outside world where every call fails. *)
Definition failing_env : Env := {|
  env_fetch := fun _ _ => Err (Rejection 1);
  env_text := fun _ _ => Err (Rejection 2);
  env_bytes := fun _ _ => Err (Rejection 3);
  env_youtubeDl := fun _ _ _ => (Err (Rejection 4), None);
  env_ffmpeg := fun _ _ _ => (Err (Rejection 5), None);
  env_service := fun _ _ => false;
  env_transcribe := fun _ _ => Err (Rejection 6);
|}.

(** Downloads succeed, the conversion does not. *)
Definition ffmpeg_failing_env : Env := {|
  env_fetch := env_fetch sample_env;
  env_text := env_text sample_env;
  env_bytes := env_bytes sample_env;
  env_youtubeDl := env_youtubeDl sample_env;
  env_ffmpeg := fun _ _ _ => (Err (Rejection 5), None);
  env_service := env_service sample_env;
  env_transcribe := env_transcribe sample_env;
|}.

(** Metadata of the first sample URL cannot be fetched; everything else
    answers. *)
Definition sample_urlA : jsstring := js "https://youtu.be/AAAA".
Definition sample_urlB : jsstring := js "https://youtu.be/BBBB".


(** Metadata is handed out once: a [youtubeDl] call made after another
    one was answered fails. *)
Definition metadata_fetched (w : World) : bool :=
  existsb (fun o => match o with
                    | YoutubeDl _ DumpJson => true
                    | _ => false
                    end) (log w).

Definition second_fetch_fails_env : Env := {|
  env_fetch := env_fetch sample_env;
  env_text := env_text sample_env;
  env_bytes := env_bytes sample_env;
  env_youtubeDl := fun w _ _ =>
    if metadata_fetched w then (Err (Rejection 4), None)
    else (Ok sample_music_info, Some [73; 68; 51]);
  env_ffmpeg := env_ffmpeg sample_env;
  env_service := env_service sample_env;
  env_transcribe := env_transcribe sample_env;
|}.

(** A direct link to a video file. *)
Definition sample_clip : jsstring := js "https://example.com/clip.mp4".

(** The record a resolve of the second sample URL builds in
    [sample_env]. *)
Definition sample_recordB : TranscriptRecord :=
  {| id := js "17jpc"; url := sample_urlB;
     title := JStr (js "A song"); source := JStr (js "A band");
     description := JStr (js "Official video");
     text := js "No lyrics available." |}.

Definition empty_world : World := {| cache := ∅; files := ∅; log := [] |}.

(** A payload whose second event has a string for [segs], and a host
    whose [JSON.parse] answers with it. *)
Definition malformed_caption_value : jsvalue :=
  JObj [(js "events",
         JArr [JObj [(js "segs", JArr [JObj [(js "utf8", JStr (js "a"))]])];
               JObj [(js "segs", JStr (js "b"))]])].

Definition malformed_host : Host := {|
  JSON_parse := fun _ => Some malformed_caption_value;
  path_join := fun a b => a ++ js "/" ++ b;
  path_basename := fun p => List.last (JsString.split (js "/") p) [];
  tmpdir := js "/tmp";
|}.

(** A [youtubeDl] that downloads, and one that fails. *)
Definition sample_downloader : Downloader :=
  fun _ _ _ => (Ok JUndefined, Some [0; 0; 0; 24]).

Definition failing_downloader : Downloader :=
  fun _ _ _ => (Err (Rejection 4), None).

(** * Properties *)

Arguments processVideoFromUrl : simpl never.
Arguments getTranscript : simpl never.
Arguments fetchVideoInfo : simpl never.
Arguments getVideoId : simpl never.

(** ** Strings *)

Lemma join_empty_sep (parts : list (list Z)) :
  JsString.join [] parts = concat parts.
Proof.
  induction parts as [|x [|y rest] IH]; simpl in *.
  - reflexivity.
  - by rewrite app_nil_r.
  - by rewrite <- IH.
Qed.

Lemma startsWith_cons_false (c d : Z) (s : list Z) :
  c ≠ d → JsString.startsWith [c] (d :: s) = false.
Proof. intros Hne. simpl. destruct (Z.eqb_spec c d); [done | reflexivity]. Qed.

(** [replace] leaves a text without the pattern's code unit as it is. *)
Lemma replace_absent (c : Z) (rep text : list Z) :
  c ∉ text → JsString.replace [c] rep text = text.
Proof.
  induction text as [|d text IH]; intros Hnot; [reflexivity |].
  apply not_elem_of_cons in Hnot as [Hne Hnot].
  cbn [JsString.replace]. rewrite startsWith_cons_false by done.
  by rewrite IH.
Qed.

(** [replace] changes the first occurrence and nothing after it. *)
Lemma replace_first_only (c : Z) (rep before after : list Z) :
  c ∉ before →
  JsString.replace [c] rep (before ++ c :: after) = before ++ rep ++ after.
Proof.
  induction before as [|d before IH]; intros Hnot.
  - cbn. rewrite Z.eqb_refl. reflexivity.
  - apply not_elem_of_cons in Hnot as [Hne Hnot].
    cbn [app JsString.replace]. rewrite startsWith_cons_false by done.
    by rewrite IH.
Qed.

(** ** The string helpers, checked *)

Lemma startsWith_app (p s : list Z) :
  JsString.startsWith p s = true → s = p ++ drop (length p) s.
Proof.
  revert s. induction p as [|a p IH]; intros [|b s]; cbn; try done.
  intros [Hab Hps]%andb_prop. apply Z.eqb_eq in Hab as ->.
  f_equal. by apply IH.
Qed.

Lemma split_scan_nonempty (sep : list Z) (skip : nat) (cur s : list Z) :
  JsString.split_scan sep skip cur s ≠ [].
Proof.
  revert skip cur. induction s as [|c s IH]; intros skip cur; cbn; [done |].
  destruct skip; [| apply IH].
  destruct (JsString.startsWith sep (c :: s)); [done | apply IH].
Qed.

Lemma join_cons (sep x : list Z) (rest : list (list Z)) :
  rest ≠ [] → JsString.join sep (x :: rest) = x ++ sep ++ JsString.join sep rest.
Proof. by destruct rest. Qed.

Lemma join_split_scan (sep : list Z) (s : list Z) (skip : nat) (cur : list Z) :
  sep ≠ [] → (skip ≤ length s)%nat →
  JsString.join sep (JsString.split_scan sep skip cur s) = rev cur ++ drop skip s.
Proof.
  intros Hsep. revert skip cur.
  induction s as [|c s IH]; intros skip cur Hskip.
  - cbn in *. assert (skip = 0%nat) as -> by lia. by rewrite app_nil_r.
  - cbn [JsString.split_scan]. destruct skip as [|n].
    + destruct (JsString.startsWith sep (c :: s)) eqn:Hstart.
      * pose proof (startsWith_app _ _ Hstart) as Heq.
        rewrite join_cons by apply split_scan_nonempty.
        destruct sep as [|a sep]; [done |].
        cbn [length] in *. rewrite Nat.sub_succ, Nat.sub_0_r.
        injection Heq as -> Hs. rewrite IH.
        -- cbn [rev app drop]. rewrite <- Hs. done.
        -- rewrite Hs, length_app. lia.
      * rewrite IH by lia. cbn. by rewrite <- app_assoc.
    + rewrite IH by (cbn in Hskip; lia). done.
Qed.

(** Joining the pieces of [split] with the separator gives the string
    back. *)
Lemma join_split (sep s : list Z) :
  sep ≠ [] → JsString.join sep (JsString.split sep s) = s.
Proof.
  intros Hsep. destruct sep as [|a sep]; [done |].
  unfold JsString.split. rewrite join_split_scan by (done || cbn; lia). done.
Qed.

(** ** [getVideoId], checked *)

Lemma toInt32_range (z : Z) : - 2 ^ 31 ≤ toInt32 z < 2 ^ 31.
Proof.
  unfold toInt32. pose proof (Z.mod_pos_bound (z + 2 ^ 31) (2 ^ 32)). lia.
Qed.

Lemma hash_range (url : list Z) :
  0 ≤ Z.abs (fold_left hash_step url 0) ≤ 2 ^ 31.
Proof.
  assert (∀ h, - 2 ^ 31 ≤ h < 2 ^ 31 →
               - 2 ^ 31 ≤ fold_left hash_step url h < 2 ^ 31) as Hfold.
  { induction url as [|c url IH]; intros h Hh; [done |].
    cbn [fold_left]. apply IH. unfold hash_step, int32_and.
    rewrite Z.land_diag. apply toInt32_range. }
  specialize (Hfold 0). lia.
Qed.

(** Seven digits are enough for [Math.abs] of an int32: more fuel changes
    nothing. *)
Lemma to_base36_enough (fuel extra : nat) (n : Z) (acc : list Z) :
  0 ≤ n < 36 ^ Z.of_nat (S fuel) →
  to_base36 (S fuel + extra) n acc = to_base36 (S fuel) n acc.
Proof.
  revert n acc. induction fuel as [|fuel IH]; intros n acc Hn.
  - cbn [to_base36 Nat.add]. assert (n `div` 36 = 0) as ->
      by (apply Z.div_small; lia).
    done.
  - cbn [to_base36 Nat.add].
    destruct (n `div` 36 =? 0) eqn:Hq; [done |].
    apply (IH (n `div` 36)). split; [apply Z.div_pos; lia |].
    apply Z.div_lt_upper_bound; [lia |].
    rewrite <- Z.pow_succ_r by lia. rewrite <- Nat2Z.inj_succ. apply Hn.
Qed.

Lemma getVideoId_fuel (url : list Z) (extra : nat) :
  to_base36 (7 + extra) (Z.abs (fold_left hash_step url 0)) []
  = getVideoId url.
Proof.
  unfold getVideoId, toString36. apply (to_base36_enough 6).
  pose proof (hash_range url). split; [lia |].
  change (36 ^ Z.of_nat 7) with 78364164096. lia.
Qed.

(** ** Small inputs *)

Example getVideoId_samples :
  getVideoId [] = js "0" ∧ getVideoId (js "AAAA") = js "16vy8" ∧
  getVideoId (js "dQw4w9WgXcQ") = js "x4j3nu".
Proof. vm_compute. repeat split; reflexivity. Qed.

Example pattern_samples :
  UrlPattern.group1 (js "https://youtu.be/dQw4w9WgXcQ?t=3") = Some (js "dQw4w9WgXcQ") ∧
  UrlPattern.group1 (js "https://www.youtube.com/embed/abc_DEF-1") = Some (js "abc_DEF-1") ∧
  UrlPattern.group1 (js "https://youtube.com/v/abc/def") = Some (js "abc") ∧
  UrlPattern.group1 (js "https://www.youtube.com/watch?feature=share&v=first&v=last&t=5")
  = Some (js "last") ∧
  UrlPattern.group1 (js "https://www.youtube.com/watch?v=&v=second") = Some (js "second") ∧
  UrlPattern.group1 (js "https://youtu.be/") = None ∧
  UrlPattern.group1 (js "https://www.youtube.com/playlist?list=PL1") = None ∧
  UrlPattern.group1 (js "https://example.com/clip.mp4") = None.
Proof. vm_compute. repeat split; reflexivity. Qed.

Example split_samples :
  JsString.split (js "\n\n") (js "a\n\n\nb") = [js "a"; js "\nb"] ∧
  JsString.split (js "\n\n") [] = [[]] ∧
  JsString.split (js "\n") (js "x\n") = [js "x"; []] ∧
  JsString.replace (js "\n") (js " ") (js "a\nb\nc") = js "a b\nc".
Proof. vm_compute. repeat split; reflexivity. Qed.

Example parseSRT_short_blocks :
  parseSRT (js "only a header") = [] ∧
  parseSRT (js "1\n00:01 --> 00:02\nfirst\nsecond") = js "first second".
Proof. vm_compute. repeat split; reflexivity. Qed.

Example truthy_samples :
  JsValue.truthy (JNum (js "0")) = false ∧ JsValue.truthy (JStr []) = false ∧
  JsValue.truthy (JArr []) = true ∧ JsValue.truthy (JNum (js "0.5")) = true.
Proof. vm_compute. repeat split; reflexivity. Qed.

(** A [null] event, segments that are no array, and an [events] that is
    no array all end in the [catch]; an event whose [segs] is falsy is
    skipped; a number among the fragments is printed. *)
Example event_text_samples :
  filter_segs [JNull] = None ∧
  event_text (JObj [(js "segs", JStr (js "text"))]) = None ∧
  filter_segs [JObj [(js "segs", JNum (js "0"))]; JNum (js "7")] = Some [] ∧
  event_text (JObj [(js "segs", JArr [JObj [(js "utf8", JNum (js "42"))];
                                      JObj []; JStr (js "x")])])
  = Some (js "42").
Proof. vm_compute. repeat split; reflexivity. Qed.

(** ** C8: the SRT example *)

(** C8. [parseSRT] on the two-block example of the specification gives
    exactly ["Hello world Second line "]: the text is split on blank lines
    (the last piece is empty), each block loses its first two lines, and
    lines and blocks are joined with single spaces. *)
Theorem parseSRT_example :
  parseSRT (js "1\n00:00:00,000 --> 00:00:02,000\nHello world\n\n2\n00:00:02,000 --> 00:00:04,000\nSecond line\n\n")
  = js "Hello world Second line ".
Proof. vm_compute. reflexivity. Qed.

(** ** C5, C6: [parseCaption] *)

Lemma get_without_field (name : jsstring) (v : jsvalue) :
  ¬ has_field name v →
  JsValue.get name v = None ∨ JsValue.get name v = Some JUndefined.
Proof.
  intros Hno. destruct v; simpl; auto.
  destruct (JsValue.own name props) as [x|] eqn:Hown; auto.
  exfalso. apply Hno. by exists props, x.
Qed.

(** C5. A caption text that [JSON.parse] rejects, or whose parsed value
    has no [events] field, makes [parseCaption] return the string
    ["Error: Unable to parse captions"]; [parseCaption] is a function to
    strings, so nothing is thrown. *)
Theorem parseCaption_failure `{Host} (captionContent : jsstring) :
  (JSON_parse captionContent = None ∨
   ∃ v, JSON_parse captionContent = Some v ∧ ¬ has_field (js "events") v) →
  parseCaption captionContent = js "Error: Unable to parse captions".
Proof.
  intros [Hbad | (v & Hv & Hno)]; unfold parseCaption, parseCaption_try.
  - by rewrite Hbad.
  - rewrite Hv. cbn -[JsValue.get].
    destruct (get_without_field _ _ Hno) as [-> | ->]; reflexivity.
Qed.

Lemma parseCaption_failure_witness :
  parseCaption (js "<html>not json</html>") = js "Error: Unable to parse captions".
Proof.
  apply (parseCaption_failure (js "<html>not json</html>")).
  left. vm_compute. reflexivity.
Defined.

Lemma segments_utf8 (segs : list jsvalue) (fragments : list jsstring) :
  Forall2 segment segs fragments →
  mapM (JsValue.get (js "utf8")) segs = Some (JStr <$> fragments).
Proof.
  intros Hall. apply mapM_Some. induction Hall as [|seg fr segs frs Hseg _ IH].
  - constructor.
  - cbn. constructor; [|exact IH].
    destruct Hseg as (props & -> & Hown). simpl. by rewrite Hown.
Qed.

Lemma join_strings (fragments : list jsstring) :
  JsValue.join [] (JStr <$> fragments) = concat fragments.
Proof.
  unfold JsValue.join. rewrite join_empty_sep. f_equal.
  induction fragments as [|x rest IH]; [reflexivity |].
  rewrite fmap_cons. simpl. by rewrite IH.
Qed.

Lemma event_text_wf (event : jsvalue) (segs : list jsvalue)
    (props : list (jsstring * jsvalue)) (fragments : list jsstring) :
  event = JObj props →
  JsValue.own (js "segs") props = Some (JArr segs) →
  Forall2 segment segs fragments →
  event_text event = Some (concat fragments).
Proof.
  intros -> Hown Hall. unfold event_text. simpl. rewrite Hown. simpl.
  rewrite (segments_utf8 _ _ Hall). simpl. by rewrite join_strings.
Qed.

(** On well-formed events [filter] keeps those with segments, and the
    texts of the kept ones, in order, make up the whole text. *)
Lemma events_text (evs : list jsvalue) (events : list (list jsstring)) :
  Forall2 caption_event evs events →
  ∃ kept texts,
    filter_segs evs = Some kept ∧ mapM event_text kept = Some texts ∧
    concat texts = concat (concat events).
Proof.
  induction 1 as [|event frs evs events Hev _ (kept & texts & Hk & Ht & Hc)].
  - by exists [], [].
  - destruct Hev as (props & -> & [[Hnone ->] | (segs & Hsome & Hsegs)]).
    + exists kept, texts. cbn. rewrite Hnone, Hk. cbn. done.
    + exists (JObj props :: kept), (concat frs :: texts).
      pose proof (event_text_wf _ segs props frs eq_refl Hsome Hsegs) as Hev.
      cbn [filter_segs]. simpl JsValue.get. rewrite Hsome, Hk.
      split; [reflexivity |]. split.
      * cbn -[event_text]. rewrite Hev. cbn. rewrite Ht. reflexivity.
      * cbn. by rewrite Hc, concat_app.
Qed.

Lemma parseCaption_wf `{Host} (captionContent : jsstring) (v : jsvalue)
    (events : list (list jsstring)) :
  JSON_parse captionContent = Some v →
  caption_payload v events →
  parseCaption captionContent
  = JsString.replace (js "\n") (js " ") (concat (concat events)).
Proof.
  intros Hv (props & evs & -> & Hown & Hall).
  destruct (events_text _ _ Hall) as (kept & texts & Hk & Ht & Hc).
  unfold parseCaption, parseCaption_try. rewrite Hv. simpl.
  rewrite Hown. simpl. rewrite Hk. simpl. rewrite Ht. simpl.
  by rewrite join_empty_sep, Hc.
Qed.

(** C6. On a well-formed caption payload [parseCaption] returns the text
    fragments of all segments of all events, in order, as one string in
    which the first newline, and only it, has become a space: a text
    without a newline comes back unchanged, and in [before ++ newline ++
    after], with no newline in [before], [after] comes back as it is. *)
Theorem parseCaption_first_newline `{Host} (captionContent : jsstring)
    (v : jsvalue) (events : list (list jsstring)) :
  JSON_parse captionContent = Some v →
  caption_payload v events →
  let text := concat (concat events) in
  parseCaption captionContent = JsString.replace (js "\n") (js " ") text ∧
  (10 ∉ text → parseCaption captionContent = text) ∧
  (∀ before after, 10 ∉ before → text = before ++ 10 :: after →
     parseCaption captionContent = before ++ 32 :: after).
Proof.
  intros Hv Hwf text.
  pose proof (parseCaption_wf _ _ _ Hv Hwf) as Heq. fold text in Heq.
  split; [exact Heq |]. split.
  - intros Hnot. rewrite Heq. by apply replace_absent.
  - intros before after Hnot Htext. rewrite Heq, Htext.
    by apply (replace_first_only 10 (js " ")).
Qed.

Lemma parseCaption_first_newline_witness :
  parseCaption sample_caption_text = js "Hello big\nworld!".
Proof.
  refine (proj2 (proj2 (parseCaption_first_newline sample_caption_text
            sample_caption_value
            [[js "Hello\nbig"]; []; [js "\nworld"; js "!"]] _ _))
          (js "Hello") (js "big\nworld!") _ _).
  - vm_compute. reflexivity.
  - eexists _, _. split; [reflexivity |]. split; [vm_compute; reflexivity |].
    constructor.
    { eexists; split; [reflexivity |]. right. eexists.
      split; [vm_compute; reflexivity |].
      constructor; [| constructor].
      eexists; split; [reflexivity | vm_compute; reflexivity]. }
    constructor.
    { eexists; split; [reflexivity |]. left.
      split; [vm_compute; reflexivity | reflexivity]. }
    constructor; [| constructor].
    eexists; split; [reflexivity |]. right. eexists.
    split; [vm_compute; reflexivity |].
    constructor;
      [eexists; split; [reflexivity | vm_compute; reflexivity] |].
    constructor; [| constructor].
    eexists; split; [reflexivity | vm_compute; reflexivity].
  - compute_done.
  - vm_compute. reflexivity.
Defined.

(** ** Running a process *)

Lemma run_bind {A B} (env : Env) (p : proc A) (f : A → proc B) (w : World) :
  run env w (p ≫= f)
  = match run env w p with
    | (w', Returned a) => run env w' (f a)
    | (w', Thrown e) => (w', Thrown e)
    | (w', Crashed e) => (w', Crashed e)
    end.
Proof.
  revert w. induction p as [a | e | e | o k IH]; intros w; try reflexivity.
  change (run env w (Call o k ≫= f))
    with (let '(r, w') := perform env o w in run env w' (k r ≫= f)).
  simpl. destruct (perform env o w) as [r w']. apply IH.
Qed.

Lemma run_try_catch {A} (env : Env) (p : proc A) (h : exn → proc A)
    (w : World) :
  run env w (Proc.try_catch p h)
  = match run env w p with
    | (w', Thrown e) => run env w' (h e)
    | other => other
    end.
Proof.
  revert w. induction p as [a | e | e | o k IH]; intros w; try reflexivity.
  simpl. destruct (perform env o w) as [r w']. apply IH.
Qed.

Lemma run_call (env : Env) (o : op) (w : World) :
  run env w (Proc.call o)
  = match perform env o w with
    | (Ok x, w') => (w', Returned x)
    | (Err e, w') => (w', Thrown e)
    end.
Proof. simpl. by destruct (perform env o w) as [[x | e] w']. Qed.

Lemma run_cacheGet (env : Env) (key : list Z) (w : World) :
  run env w (Ext.cacheGet key)
  = (logged (CacheGet key) w, Returned (cache w !! key)).
Proof. reflexivity. Qed.

Lemma run_cacheSet (env : Env) (key : list Z) (v : TranscriptRecord)
    (w : World) :
  run env w (Ext.cacheSet key v)
  = (with_cache (<[key := v]> (cache w)) (logged (CacheSet key v) w),
     Returned tt).
Proof. reflexivity. Qed.

Lemma run_fetch (env : Env) (target : jsvalue) (w : World) :
  run env w (Ext.fetch target)
  = (logged (HttpFetch target) w, as_outcome (env_fetch env w target)).
Proof. unfold Ext.fetch. simpl. by destruct (env_fetch env w target). Qed.

Lemma run_responseText (env : Env) (r : Response) (w : World) :
  run env w (Ext.responseText r)
  = (logged (ResponseText r) w, as_outcome (env_text env w r)).
Proof. unfold Ext.responseText. simpl. by destruct (env_text env w r). Qed.

Lemma run_arrayBuffer (env : Env) (r : Response) (w : World) :
  run env w (Ext.arrayBuffer r)
  = (logged (ResponseArrayBuffer r) w, as_outcome (env_bytes env w r)).
Proof. unfold Ext.arrayBuffer. simpl. by destruct (env_bytes env w r). Qed.

Lemma run_writeFileSync (env : Env) (path data : list Z) (w : World) :
  run env w (Ext.writeFileSync path data)
  = (written path (Some data) (logged (WriteFileSync path data) w),
     Returned tt).
Proof. reflexivity. Qed.

Lemma bind_read_Some {A B} (x : A) (f : A → proc B) :
  Proc.read (Some x) ≫= f = f x.
Proof. reflexivity. Qed.

Lemma js_and_truthy (a : jsvalue) (b : proc jsvalue) :
  JsValue.truthy a = true → js_and a b = b.
Proof. unfold js_and. by intros ->. Qed.

Lemma run_bind_returned {A B} (env : Env) (p : proc A) (f : A → proc B)
    (w w' : World) (a : A) :
  run env w p = (w', Returned a) → run env w (p ≫= f) = run env w' (f a).
Proof. intros Hp. by rewrite run_bind, Hp. Qed.

Lemma run_bind_thrown {A B} (env : Env) (p : proc A) (f : A → proc B)
    (w w' : World) (e : exn) :
  run env w p = (w', Thrown e) → run env w (p ≫= f) = (w', Thrown e).
Proof. intros Hp. by rewrite run_bind, Hp. Qed.

Lemma run_try_catch_thrown {A} (env : Env) (p : proc A) (h : exn → proc A)
    (w w' : World) (e : exn) :
  run env w p = (w', Thrown e) →
  run env w (Proc.try_catch p h) = run env w' (h e).
Proof. intros Hp. by rewrite run_try_catch, Hp. Qed.

Lemma run_try_catch_returned {A} (env : Env) (p : proc A) (h : exn → proc A)
    (w w' : World) (a : A) :
  run env w p = (w', Returned a) →
  run env w (Proc.try_catch p h) = (w', Returned a).
Proof. intros Hp. by rewrite run_try_catch, Hp. Qed.

(** ** The pattern's group and the cache key *)

Lemma id_run_group (s g : list Z) : UrlPattern.group s = Some g → g ≠ [].
Proof.
  unfold UrlPattern.group. destruct (UrlPattern.id_run s); [done |].
  by intros [= <-].
Qed.

Lemma dots_then_nonempty (s g : list Z) (k : list Z → option (list Z)) :
  (∀ r x, k r = Some x → x ≠ []) → UrlPattern.dots_then k s = Some g → g ≠ [].
Proof.
  intros Hk. induction s as [|c s IH]; simpl; [done |].
  destruct (UrlPattern.line_terminator c); [done |].
  destruct (UrlPattern.dots_then k s) eqn:Hd.
  - intros [= <-]. by apply IH.
  - apply Hk.
Qed.

Lemma strip_group_nonempty (p s g : list Z) :
  UrlPattern.strip p s ≫= UrlPattern.group = Some g → g ≠ [].
Proof.
  destruct (UrlPattern.strip p s) as [r|]; simpl; [|done]. apply id_run_group.
Qed.

Lemma or_else_Some {A} (a b : option A) (x : A) :
  UrlPattern.or_else a b = Some x → a = Some x ∨ b = Some x.
Proof. destruct a; simpl; auto. Qed.

Lemma match_here_nonempty (s g : list Z) :
  UrlPattern.match_here s = Some g → g ≠ [].
Proof.
  unfold UrlPattern.match_here. intros Hm.
  apply or_else_Some in Hm as [Hm | Hm];
    [by eapply strip_group_nonempty |].
  apply bind_Some in Hm as (rest & _ & Hm).
  repeat (apply or_else_Some in Hm as [Hm | Hm];
          [by eapply strip_group_nonempty |]).
  apply bind_Some in Hm as (r & _ & Hm).
  eapply dots_then_nonempty; [| exact Hm].
  intros r' x. apply strip_group_nonempty.
Qed.

Lemma group1_unfold (s : list Z) :
  UrlPattern.group1 s
  = UrlPattern.or_else (UrlPattern.match_here s)
      (match s with
       | [] => None
       | _ :: s' => UrlPattern.group1 s'
       end).
Proof. destruct s; reflexivity. Qed.

(** Group 1 of a match is never empty, so [|| ""] only acts when there is
    no match. *)
Lemma group1_nonempty (s g : list Z) : UrlPattern.group1 s = Some g → g ≠ [].
Proof.
  induction s as [|c s IH]; rewrite group1_unfold; intros Hg;
    apply or_else_Some in Hg as [Hg | Hg];
    eauto using match_here_nonempty; done.
Qed.

Lemma cache_key_matched (url g : list Z) :
  UrlPattern.group1 url = Some g →
  cache_key_of url = js "content/video" ++ js "/" ++ getVideoId g.
Proof.
  intros Hg. unfold cache_key_of, matched_videoId. rewrite Hg.
  pose proof (group1_nonempty _ _ Hg) as Hne.
  unfold JsValue.truthy, jsstring_eqb. by rewrite bool_decide_eq_false_2.
Qed.

Lemma cache_key_unmatched (url : list Z) :
  UrlPattern.group1 url = None →
  cache_key_of url = js "content/video" ++ js "/" ++ getVideoId [].
Proof. intros Hg. unfold cache_key_of, matched_videoId. by rewrite Hg. Qed.

(** ** C3: the cache short-circuits [processVideoFromUrl] *)

Section Pipeline.
Context `{Host}.
Variable env : Env.

(** A hit: one [cacheManager.get], and the cached record is returned. *)
Lemma cache_hit (url : list Z) (w : World) (r : TranscriptRecord) :
  cache w !! cache_key_of url = Some r →
  run env w (processVideoFromUrl url)
  = (logged (CacheGet (cache_key_of url)) w, Returned r).
Proof.
  intros Hhit. unfold processVideoFromUrl. rewrite run_bind, run_cacheGet.
  fold (cache_key_of url). by rewrite Hhit.
Qed.

(** A miss: the method goes on with [fetchVideoInfo]. *)
Lemma cache_miss (url : list Z) (w : World) :
  cache w !! cache_key_of url = None →
  run env w (processVideoFromUrl url)
  = run env (logged (CacheGet (cache_key_of url)) w)
      (videoInfo ← fetchVideoInfo url;
       transcript ← getTranscript url videoInfo;
       title ← Proc.read (JsValue.get (js "title") videoInfo);
       source ← Proc.read (JsValue.get (js "channel") videoInfo);
       description ← Proc.read (JsValue.get (js "description") videoInfo);
       let result := {| id := getVideoId (matched_videoId url); url := url;
                        title := title; source := source;
                        description := description; text := transcript |} in
       _ ← Ext.cacheSet (cache_key_of url) result;
       Ret result).
Proof.
  intros Hmiss. unfold processVideoFromUrl. rewrite run_bind, run_cacheGet.
  fold (cache_key_of url). by rewrite Hmiss.
Qed.

Lemma run_read {A} (x : option A) (w : World) :
  run env w (Proc.read x)
  = (w, match x with Some a => Returned a | None => Thrown TypeError end).
Proof. by destruct x. Qed.

(** Whatever record the method returns is in the cache when it returns. *)
Lemma returned_is_cached (url : list Z) (w w1 : World) (r : TranscriptRecord) :
  run env w (processVideoFromUrl url) = (w1, Returned r) →
  cache w1 !! cache_key_of url = Some r.
Proof.
  destruct (cache w !! cache_key_of url) as [r0|] eqn:Hc.
  - rewrite (cache_hit _ _ _ Hc). by intros [= <- <-].
  - rewrite (cache_miss _ _ Hc), run_bind.
    destruct (run env _ (fetchVideoInfo url)) as [w2 [info | e | e]]; [|done..].
    rewrite run_bind.
    destruct (run env w2 (getTranscript url info)) as [w3 [tr | e | e]]; [|done..].
    rewrite run_bind, run_read.
    destruct (JsValue.get (js "title") info) as [ti|]; [|done].
    rewrite run_bind, run_read.
    destruct (JsValue.get (js "channel") info) as [ch|]; [|done].
    rewrite run_bind, run_read.
    destruct (JsValue.get (js "description") info) as [de|]; [|done].
    cbv zeta. rewrite run_bind, run_cacheSet.
    cbn [run]. intros [= <- <-]. cbn [cache with_cache].
    apply lookup_insert_eq.
Qed.

End Pipeline.

(** C3. Once a resolve of a URL has returned a record, whether it found
    it in the cache or built it and wrote it there, the next resolve of
    the same URL returns that same record, and the only call it makes is
    the one [cacheManager.get]: neither [fetchVideoInfo] nor
    [getTranscript] runs again, whatever the outside world would have
    answered. *)
Theorem cache_idempotence `{Host} (env env' : Env) (url : list Z)
    (w w1 : World) (r : TranscriptRecord) :
  run env w (processVideoFromUrl url) = (w1, Returned r) →
  cache w1 !! cache_key_of url = Some r ∧
  run env' w1 (processVideoFromUrl url)
  = (logged (CacheGet (cache_key_of url)) w1, Returned r).
Proof.
  intros Hrun. pose proof (returned_is_cached env _ _ _ _ Hrun) as Hc.
  split; [exact Hc |]. by apply cache_hit.
Qed.

Lemma cache_idempotence_witness :
  let w1 := (run sample_env empty_world (processVideoFromUrl sample_urlB)).1 in
  cache w1 !! cache_key_of sample_urlB = Some sample_recordB ∧
  run failing_env w1 (processVideoFromUrl sample_urlB)
  = (logged (CacheGet (cache_key_of sample_urlB)) w1, Returned sample_recordB).
Proof.
  apply (cache_idempotence sample_env failing_env sample_urlB empty_world).
  vm_compute. reflexivity.
Defined.

(** ** C2, C9: what the key is derived from *)

Lemma built_record_id `{Host} (env : Env) (url : list Z) (w w1 : World)
    (r : TranscriptRecord) :
  cache w !! cache_key_of url = None →
  run env w (processVideoFromUrl url) = (w1, Returned r) →
  id r = getVideoId (matched_videoId url).
Proof.
  intros Hmiss. rewrite (cache_miss _ _ _ Hmiss), run_bind.
  destruct (run env _ (fetchVideoInfo url)) as [w2 [info | e | e]]; [|done..].
  rewrite run_bind.
  destruct (run env w2 (getTranscript url info)) as [w3 [tr | e | e]]; [|done..].
  rewrite run_bind, run_read.
  destruct (JsValue.get (js "title") info) as [ti|]; [|done].
  rewrite run_bind, run_read.
  destruct (JsValue.get (js "channel") info) as [ch|]; [|done].
  rewrite run_bind, run_read.
  destruct (JsValue.get (js "description") info) as [de|]; [|done].
  cbv zeta. rewrite run_bind, run_cacheSet. cbn [run].
  by intros [= _ <-].
Qed.

(** C2. What [processVideoFromUrl] does with a URL the pattern does not
    match: the raw URL is not hashed.  The identifier is the hash of the
    empty string, ["0"], so the method reads the cache under
    [content/video/0] as its first call; on a hit it returns whatever
    record is there; on a miss that ends well the record it builds has the
    identifier ["0"] and is written under [content/video/0]. *)
Theorem unmatched_url_is_not_hashed `{Host} (env : Env) (url : list Z)
    (w : World) :
  UrlPattern.group1 url = None →
  cache_key_of url = js "content/video/0" ∧
  head_call (processVideoFromUrl url) = Some (CacheGet (js "content/video/0")) ∧
  (∀ r, cache w !! js "content/video/0" = Some r →
     run env w (processVideoFromUrl url)
     = (logged (CacheGet (js "content/video/0")) w, Returned r)) ∧
  (∀ w' r, cache w !! js "content/video/0" = None →
     run env w (processVideoFromUrl url) = (w', Returned r) →
     id r = js "0" ∧ cache w' !! js "content/video/0" = Some r).
Proof.
  intros Hno.
  assert (matched_videoId url = []) as Hid
    by (unfold matched_videoId; by rewrite Hno).
  assert (cache_key_of url = js "content/video/0") as Hkey.
  { rewrite (cache_key_unmatched _ Hno). vm_compute. reflexivity. }
  split; [exact Hkey |]. split; [| split].
  - rewrite <- Hkey. reflexivity.
  - intros r Hhit. rewrite <- Hkey in *. by apply cache_hit.
  - intros w' r Hmiss Hrun. rewrite <- Hkey in *. split.
    + rewrite (built_record_id env url w w' r Hmiss Hrun), Hid.
      vm_compute. reflexivity.
    + by eapply returned_is_cached.
Qed.

Lemma unmatched_url_is_not_hashed_witness :
  let url := js "https://vimeo.com/12345" in
  let w' := (run sample_env empty_world (processVideoFromUrl url)).1 in
  let r := {| id := js "0"; url := url;
              title := JStr (js "A song"); source := JStr (js "A band");
              description := JStr (js "Official video");
              text := js "No lyrics available." |} in
  isVideoUrl url = true ∧
  getVideoId url = js "qy6f1w" ∧
  head_call (processVideoFromUrl url) = Some (CacheGet (js "content/video/0")) ∧
  run sample_env empty_world (processVideoFromUrl url) = (w', Returned r) ∧
  cache w' !! js "content/video/0" = Some r ∧
  cache w' !! js "content/video/qy6f1w" = None.
Proof.
  intros url w' r.
  assert (UrlPattern.group1 url = None) as Hno by (vm_compute; reflexivity).
  assert (run sample_env empty_world (processVideoFromUrl url)
          = (w', Returned r)) as Hrun by (vm_compute; reflexivity).
  destruct (unmatched_url_is_not_hashed sample_env url empty_world Hno)
    as (_ & Hhead & _ & Hbuilt).
  destruct (Hbuilt w' r eq_refl Hrun) as [_ Hcached].
  split; [vm_compute; reflexivity |]. split; [vm_compute; reflexivity |].
  split; [exact Hhead |]. split; [exact Hrun |]. split; [exact Hcached |].
  vm_compute. reflexivity.
Defined.

(** C9. Two distinct URLs that the pattern does not match have one and
    the same key, the namespace joined with the hash of the empty string;
    so once a resolve of the first has returned a record, a resolve of the
    second returns that record after the one [cacheManager.get], and when
    the first resolve had to build the record, it carries the first URL. *)
Theorem unmatched_urls_share_cache_entry `{Host} (url1 url2 : list Z) :
  url1 ≠ url2 →
  UrlPattern.group1 url1 = None →
  UrlPattern.group1 url2 = None →
  cache_key_of url1 = cache_key_of url2 ∧
  cache_key_of url1 = js "content/video" ++ js "/" ++ getVideoId [] ∧
  ∀ (env env' : Env) (w w1 : World) (r : TranscriptRecord),
    run env w (processVideoFromUrl url1) = (w1, Returned r) →
    run env' w1 (processVideoFromUrl url2)
    = (logged (CacheGet (cache_key_of url2)) w1, Returned r) ∧
    (cache w !! cache_key_of url1 = None → url r = url1).
Proof.
  intros _ Hno1 Hno2.
  pose proof (cache_key_unmatched _ Hno1) as Hk1.
  pose proof (cache_key_unmatched _ Hno2) as Hk2.
  split; [congruence |]. split; [exact Hk1 |].
  intros env env' w w1 r Hrun. split.
  - apply cache_hit. replace (cache_key_of url2) with (cache_key_of url1)
      by congruence.
    by eapply returned_is_cached.
  - intros Hmiss. revert Hrun. rewrite (cache_miss _ _ _ Hmiss), run_bind.
    destruct (run env _ (fetchVideoInfo url1)) as [w2 [info | e | e]]; [|done..].
    rewrite run_bind.
    destruct (run env w2 (getTranscript url1 info)) as [w3 [tr | e | e]]; [|done..].
    rewrite run_bind, run_read.
    destruct (JsValue.get (js "title") info) as [ti|]; [|done].
    rewrite run_bind, run_read.
    destruct (JsValue.get (js "channel") info) as [ch|]; [|done].
    rewrite run_bind, run_read.
    destruct (JsValue.get (js "description") info) as [de|]; [|done].
    cbv zeta. rewrite run_bind, run_cacheSet. cbn [run].
    by intros [= _ <-].
Qed.

Lemma unmatched_urls_share_cache_entry_witness :
  let url1 := js "https://vimeo.com/12345" in
  let url2 := js "https://example.com/talk" in
  let w1 := (run sample_env empty_world (processVideoFromUrl url1)).1 in
  let r := {| id := js "0"; url := url1;
              title := JStr (js "A song"); source := JStr (js "A band");
              description := JStr (js "Official video");
              text := js "No lyrics available." |} in
  cache_key_of url1 = cache_key_of url2 ∧
  run failing_env w1 (processVideoFromUrl url2)
  = (logged (CacheGet (cache_key_of url2)) w1, Returned r) ∧
  url r = url1.
Proof.
  intros url1 url2 w1 r.
  assert (url1 ≠ url2) as Hne by compute_done.
  assert (UrlPattern.group1 url1 = None) as Hno1 by (vm_compute; reflexivity).
  assert (UrlPattern.group1 url2 = None) as Hno2 by (vm_compute; reflexivity).
  pose proof (unmatched_urls_share_cache_entry url1 url2 Hne Hno1 Hno2)
    as (Hkey & _ & Hshare).
  assert (run sample_env empty_world (processVideoFromUrl url1)
          = (w1, Returned r)) as Hrun by (vm_compute; reflexivity).
  destruct (Hshare sample_env failing_env empty_world w1 r Hrun)
    as [Hsecond _].
  split; [exact Hkey |]. split; [exact Hsecond | reflexivity].
Defined.

(** ** C4: manual subtitles come first *)

(** C4. When [videoInfo] has an English manual-subtitle track and an
    English automatic-caption track, [getTranscript] fetches the subtitle
    URL, reads the body and returns [parseSRT] of it, or throws what one
    of those two calls threw; it makes no other call: no caption
    download, no transcription. *)
Theorem manual_subtitles_first `{Host} (env : Env) (url : list Z)
    (videoInfo target caption_target : jsvalue) (w : World) :
  english_track (js "subtitles") videoInfo target →
  english_track (js "automatic_captions") videoInfo caption_target →
  let w1 := logged (HttpFetch target) w in
  run env w (getTranscript url videoInfo)
  = match env_fetch env w target with
    | Err e => (w1, Thrown e)
    | Ok response =>
        (logged (ResponseText response) w1,
         match env_text env w1 response with
         | Ok srtContent => Returned (parseSRT srtContent)
         | Err e => Thrown e
         end)
    end ∧
  let calls := calls_since w (run env w (getTranscript url videoInfo)).1 in
  calls = [HttpFetch target] ∨
  ∃ response, calls = [HttpFetch target; ResponseText response].
Proof.
  intros (props & langs & tprops & rest & -> & Hsub & Hen & ->) _ w1.
  assert (run env w (getTranscript url (JObj props))
          = match env_fetch env w (default JUndefined (JsValue.own (js "url") tprops)) with
            | Err e => (w1, Thrown e)
            | Ok response =>
                (logged (ResponseText response) w1,
                 match env_text env w1 response with
                 | Ok srtContent => Returned (parseSRT srtContent)
                 | Err e => Thrown e
                 end)
            end) as Hrun.
  { unfold getTranscript.
    cbn [JsValue.get]. rewrite Hsub. cbn [from_option Datatypes.id]. rewrite bind_read_Some.
    rewrite (js_and_truthy (JObj langs)) by reflexivity.
    cbn [JsValue.get]. rewrite Hen.
    cbn [from_option Datatypes.id]. rewrite bind_read_Some.
    cbn [JsValue.truthy JsValue.first head from_option Datatypes.id].
    rewrite bind_read_Some. cbn [JsValue.get]. rewrite bind_read_Some.
    rewrite run_try_catch, run_bind. unfold downloadSRT.
    rewrite run_bind, run_fetch. fold w1.
    destruct (env_fetch env w _) as [response | e]; cbn [as_outcome run];
      [| reflexivity].
    rewrite run_responseText.
    destruct (env_text env w1 response) as [srt | e]; reflexivity. }
  split; [exact Hrun |]. rewrite Hrun. unfold calls_since.
  destruct (env_fetch env w _) as [response | e]; cbn [fst log logged w1].
  - right. exists response. rewrite <- app_assoc. by rewrite drop_app_length.
  - left. by rewrite drop_app_length.
Qed.

Lemma manual_subtitles_first_witness :
  run sample_env empty_world
    (getTranscript (js "https://youtu.be/TTTT") sample_subtitled_info)
  = (logged (ResponseText {| ok := true; statusText := js "OK"; body := 1 |})
       (logged (HttpFetch (JStr (js "https://subs.example/en.srt"))) empty_world),
     Returned (js "Hello world Second line ")).
Proof.
  refine (proj1 (manual_subtitles_first sample_env (js "https://youtu.be/TTTT")
                   sample_subtitled_info
                   (JStr (js "https://subs.example/en.srt"))
                   (JStr (js "https://subs.example/auto.json3"))
                   empty_world _ _)).
  - eexists _, _, _, _. split; [reflexivity |].
    split; [vm_compute; reflexivity |]. split; vm_compute; reflexivity.
  - eexists _, _, _, _. split; [reflexivity |].
    split; [vm_compute; reflexivity |]. split; vm_compute; reflexivity.
Defined.

(** ** C7: the temporary container of [downloadAudio] *)

Section DownloadAudio.
Context `{Host}.
Variables (env : Env) (url outputFile : list Z) (w : World).
Variables (response : Response) (buffer : list Z).

Let tempMp4File : list Z := path_join tmpdir (getVideoId url ++ js ".mp4").
Let w1 : World := logged (HttpFetch (JStr url)) w.
Let w2 : World := logged (ResponseArrayBuffer response) w1.
Let w3 : World :=
  written tempMp4File (Some buffer)
    (logged (WriteFileSync tempMp4File buffer) w2).

Hypothesis direct : is_mp4 url = true.
Hypothesis fetched : env_fetch env w (JStr url) = Ok response.
Hypothesis read : env_bytes env w1 response = Ok buffer.

(** Up to the conversion: the container is fetched and written. *)
Lemma downloadAudio_until_ffmpeg (k : result unit → proc unit) :
  run env w
    (response ← Ext.fetch (JStr url);
     buffer ← Ext.arrayBuffer response;
     _ ← Ext.writeFileSync tempMp4File buffer;
     _ ← Call (Ffmpeg tempMp4File outputFile) k;
     Ret outputFile)
  = run env w3 (_ ← Call (Ffmpeg tempMp4File outputFile) k; Ret outputFile).
Proof.
  pose proof read as Hread. unfold w1 in Hread.
  erewrite run_bind_returned by (rewrite run_fetch, fetched; reflexivity).
  erewrite run_bind_returned by (rewrite run_arrayBuffer, Hread; reflexivity).
  erewrite run_bind_returned by (rewrite run_writeFileSync; reflexivity).
  reflexivity.
Qed.

Lemma temp_file_written : files w3 !! tempMp4File = Some buffer.
Proof. unfold w3. cbn. apply lookup_insert_eq. Qed.

(** The "error" handler only rejects: the container stays. *)
Lemma downloadAudio_ffmpeg_error (e : exn) (data : option (list Z)) :
  env_ffmpeg env w3 tempMp4File outputFile = (Err e, data) →
  let w' := written outputFile data (logged (Ffmpeg tempMp4File outputFile) w3) in
  run env w (downloadAudio url (Some outputFile))
  = (w', Thrown (Error (js "Failed to download audio"))) ∧
  is_Some (files w' !! tempMp4File) ∧
  calls_since w w'
  = [HttpFetch (JStr url); ResponseArrayBuffer response;
     WriteFileSync tempMp4File buffer; Ffmpeg tempMp4File outputFile].
Proof.
  intros Hff w'. split; [| split].
  - unfold downloadAudio. rewrite direct. cbn [from_option Datatypes.id].
    erewrite run_try_catch_thrown; [reflexivity |].
    fold tempMp4File. rewrite downloadAudio_until_ffmpeg.
    apply run_bind_thrown. cbn [run perform]. by rewrite Hff.
  - unfold w'. destruct data as [d|]; cbn [written files with_files logged].
    + destruct (decide (outputFile = tempMp4File)) as [-> | Hne].
      * rewrite lookup_insert_eq. by eexists.
      * rewrite lookup_insert_ne by done. rewrite temp_file_written. by eexists.
    + rewrite temp_file_written. by eexists.
  - unfold calls_since, w'. destruct data; cbn; rewrite <- !app_assoc;
      by rewrite drop_app_length.
Qed.

(** The "end" handler unlinks it before resolving. *)
Lemma downloadAudio_ffmpeg_end (data : option (list Z)) :
  env_ffmpeg env w3 tempMp4File outputFile = (Ok tt, data) →
  outputFile ≠ tempMp4File →
  ∃ w', run env w (downloadAudio url (Some outputFile))
        = (w', Returned outputFile) ∧
        files w' !! tempMp4File = None.
Proof.
  intros Hff Hne.
  set (w4 := written outputFile data (logged (Ffmpeg tempMp4File outputFile) w3)).
  assert (files w4 !! tempMp4File = Some buffer) as Hthere.
  { unfold w4. destruct data; cbn [written files with_files logged].
    - rewrite lookup_insert_ne by done. apply temp_file_written.
    - apply temp_file_written. }
  exists (with_files (delete tempMp4File (files w4)) (logged (UnlinkSync tempMp4File) w4)).
  split.
  - unfold downloadAudio. rewrite direct. cbn [from_option Datatypes.id].
    erewrite run_try_catch_returned; [reflexivity |].
    fold tempMp4File. rewrite downloadAudio_until_ffmpeg.
    erewrite run_bind_returned; [reflexivity |].
    cbn [run perform]. rewrite Hff. fold w4. cbn [run perform].
    by rewrite Hthere.
  - cbn. apply lookup_delete_eq.
Qed.

End DownloadAudio.

(** C7. For a direct [.mp4] URL whose container is fetched and written to
    the temp directory, a conversion that ends in "error" makes
    [downloadAudio] throw ["Failed to download audio"] with the temporary
    file still there: after [ffmpeg] no further call is made, no
    [unlinkSync] in particular.  (When the conversion ends in "end", the
    file is unlinked: [downloadAudio_ffmpeg_end].) *)
Theorem failed_conversion_keeps_temp_file `{Host} (env : Env)
    (url outputFile : list Z) (w : World) (response : Response)
    (buffer : list Z) (e : exn) (data : option (list Z)) :
  let tempMp4File := path_join tmpdir (getVideoId url ++ js ".mp4") in
  let w1 := logged (HttpFetch (JStr url)) w in
  let w2 := logged (ResponseArrayBuffer response) w1 in
  let w3 := written tempMp4File (Some buffer)
              (logged (WriteFileSync tempMp4File buffer) w2) in
  let w' := written outputFile data
              (logged (Ffmpeg tempMp4File outputFile) w3) in
  is_mp4 url = true →
  env_fetch env w (JStr url) = Ok response →
  env_bytes env w1 response = Ok buffer →
  env_ffmpeg env w3 tempMp4File outputFile = (Err e, data) →
  run env w (downloadAudio url (Some outputFile))
  = (w', Thrown (Error (js "Failed to download audio"))) ∧
  is_Some (files w' !! tempMp4File) ∧
  calls_since w w'
  = [HttpFetch (JStr url); ResponseArrayBuffer response;
     WriteFileSync tempMp4File buffer; Ffmpeg tempMp4File outputFile].
Proof.
  intros tempMp4File w1 w2 w3 w' Hd Hf Hb Hff.
  exact (downloadAudio_ffmpeg_error env url outputFile w response buffer
           Hd Hf Hb e data Hff).
Qed.

Lemma failed_conversion_keeps_temp_file_witness :
  let url := js "https://example.com/clip.mp4" in
  let outputFile := js "./content_cache/clip.mp3" in
  ∃ w', run ffmpeg_failing_env empty_world (downloadAudio url (Some outputFile))
        = (w', Thrown (Error (js "Failed to download audio"))) ∧
        files w' !! js "/tmp/nvy6j0.mp4" = Some [0; 0; 0; 24].
Proof.
  intros url outputFile.
  pose proof (failed_conversion_keeps_temp_file ffmpeg_failing_env url
                outputFile empty_world
                {| ok := true; statusText := js "OK"; body := 1 |}
                [0; 0; 0; 24] (Rejection 5) None
                eq_refl eq_refl eq_refl eq_refl) as (Hrun & _ & _).
  eexists. split; [exact Hrun |]. vm_compute. reflexivity.
Defined.

(** ** The queue machine: what each move leaves alone *)

Section QueueFacts.
Context `{Host}.
Variable env : Env.

(** [processVideoFromUrl] starts with an awaited call, so calling it does
    nothing yet. *)
Lemma settle_processVideoFromUrl (url : list Z) (w : World) :
  settle env w (processVideoFromUrl url) = (w, processVideoFromUrl url).
Proof. reflexivity. Qed.

Lemma invoke_spec (who : origin) (url : list Z) (m : Machine) :
  invoke env who url m
  = ({| queue := queue m; processing := processing m; world := world m;
        tasks := tasks m; submitted := submitted m; promises := promises m;
        invoked := invoked m ++ [(who, url)]; halted := halted m |},
     processVideoFromUrl url).
Proof.
  unfold invoke. rewrite settle_processVideoFromUrl. cbn.
  by rewrite orb_false_r.
Qed.

Lemma answer_spec (p : proc TranscriptRecord) (m : Machine) :
  ∃ w h,
    answer env p m
    = ({| queue := queue m; processing := processing m; world := w;
          tasks := tasks m; submitted := submitted m; promises := promises m;
          invoked := invoked m; halted := h |},
       (resume env (world m) p).2).
Proof.
  unfold answer. destruct (resume env (world m) p) as [w p']. by eexists _, _.
Qed.

Lemma checkQueue_queued (id : nat) (url : list Z) (m : Machine) :
  url ∈ queue m → checkQueue env id url m = (m, Poll id url).
Proof. intros Hin. unfold checkQueue. by rewrite bool_decide_eq_true_2. Qed.

Lemma checkQueue_gone (id : nat) (url : list Z) (m : Machine) :
  url ∉ queue m →
  checkQueue env id url m
  = ({| queue := queue m; processing := processing m; world := world m;
        tasks := tasks m; submitted := submitted m; promises := promises m;
        invoked := invoked m ++ [(ByCaller id, url)]; halted := halted m |},
     Caller id url (processVideoFromUrl url)).
Proof.
  intros Hout. unfold checkQueue. rewrite bool_decide_eq_false_2 by done.
  by rewrite invoke_spec.
Qed.

Lemma exec_cons (ev : event) (evs : list event) (m : Machine) :
  exec env (ev :: evs) m = exec env evs (step env m ev).
Proof. reflexivity. Qed.

Lemma processQueue_busy (m : Machine) :
  processing m = true → processQueue env m = m.
Proof. intros Hp. unfold processQueue. by rewrite Hp. Qed.

End QueueFacts.

(** ** C10: who settles the promise of [processVideo] *)

Lemma turns_snoc {A} (env : Env) (ws : list World) (w : World) (p : proc A) :
  turns env (ws ++ [w]) p = (resume env w (turns env ws p)).2.
Proof.
  revert p. induction ws as [|w' ws IH]; intros p; cbn; [done | apply IH].
Qed.

Lemma snoc_split {A} (l l1 l2 : list A) (x y : A) :
  l ++ [x] = l1 ++ y :: l2 →
  (∃ l2', l2 = l2' ++ [x] ∧ l = l1 ++ y :: l2') ∨ (l2 = [] ∧ l = l1 ∧ x = y).
Proof.
  destruct l2 as [|z l2 _] using rev_ind.
  - intros Heq. right. apply app_inj_tail in Heq as [-> ->]. done.
  - intros Heq. left. exists l2.
    change (l ++ [x] = l1 ++ (y :: l2) ++ [z]) in Heq.
    rewrite app_assoc in Heq. apply app_inj_tail in Heq as [-> ->]. done.
Qed.

Lemma follows_drain_snoc_drain (l : list (origin * list Z)) (u : list Z) :
  follows_drain l → follows_drain (l ++ [(ByDrain, u)]).
Proof.
  intros Hl l1 id u' l2 Heq.
  apply snoc_split in Heq as [(l2' & -> & ->) | (_ & _ & [=])].
  by eapply Hl.
Qed.

Lemma follows_drain_snoc_caller (l : list (origin * list Z)) (id : nat)
    (u : list Z) :
  follows_drain l → (ByDrain, u) ∈ l → follows_drain (l ++ [(ByCaller id, u)]).
Proof.
  intros Hl Hin l1 id' u' l2 Heq.
  apply snoc_split in Heq as [(l2' & -> & ->) | (_ & <- & [= <- <-])].
  - by eapply Hl.
  - exact Hin.
Qed.

Section Consistency.
Context `{Host}.
Variable env : Env.

Lemma known_mono (past : list World) (sub sub' : list (list Z))
    (inv inv' : list (origin * list Z)) (t : task) :
  known env past sub inv t → known env past (sub ++ sub') (inv ++ inv') t.
Proof.
  destruct t as [p | id u | id u p |]; cbn; try done.
  - intros Hs. by apply lookup_app_l_Some.
  - intros (Hs & Hi & Hr). split; [by apply lookup_app_l_Some |].
    split; [apply elem_of_app; by left | done].
Qed.

Lemma known_more_invoked (past : list World) (sub : list (list Z))
    (inv inv' : list (origin * list Z)) (t : task) :
  known env past sub inv t → known env past sub (inv ++ inv') t.
Proof.
  intros Hk. pose proof (known_mono past sub [] inv inv' t Hk) as Hk'.
  by rewrite app_nil_r in Hk'.
Qed.

Lemma known_more_submitted (past : list World) (sub sub' : list (list Z))
    (inv : list (origin * list Z)) (t : task) :
  known env past sub inv t → known env past (sub ++ sub') inv t.
Proof.
  intros Hk. pose proof (known_mono past sub sub' inv [] t Hk) as Hk'.
  by rewrite app_nil_r in Hk'.
Qed.

Lemma known_later (past : list World) (w : World) (sub : list (list Z))
    (inv : list (origin * list Z)) (t : task) :
  known env past sub inv t → known env (past ++ [w]) sub inv t.
Proof.
  destruct t as [p | id u | id u p |]; cbn; try done.
  intros (Hs & Hi & ws & Hws & Hr). split; [done |]. split; [done |].
  exists ws. split; [by apply sublist_inserts_r | done].
Qed.

Lemma consistent_later past (w : World) q ts sub pr inv :
  consistent_of env past q ts sub pr inv →
  consistent_of env (past ++ [w]) q ts sub pr inv.
Proof.
  intros [Ha Hb Hc Hd]. split; try done.
  - eapply Forall_impl; [exact Hb |]. intros t. apply known_later.
  - intros id s Hs. destruct (Hd id s Hs) as (u & ws & Hu & Hi & Hws & Hr).
    exists u, ws. split; [done |]. split; [done |].
    split; [by apply sublist_inserts_r | done].
Qed.

Lemma consistent_push past q ts sub pr inv (u : list Z) :
  consistent_of env past q ts sub pr inv →
  consistent_of env past (q ++ [u]) ts (sub ++ [u]) pr inv.
Proof.
  intros [Ha Hb Hc Hd]. split.
  - intros u' [Hin | ->%list_elem_of_singleton]%elem_of_app; [| set_solver].
    destruct (Ha u' Hin); set_solver.
  - eapply Forall_impl; [exact Hb |]. intros t. apply known_more_submitted.
  - exact Hc.
  - intros id s Hs. destruct (Hd id s Hs) as (u' & ws & Hu & Hi & Hr).
    exists u', ws. split; [by apply lookup_app_l_Some | done].
Qed.

Lemma consistent_shift past q ts sub pr inv (u : list Z) :
  consistent_of env past (u :: q) ts sub pr inv →
  consistent_of env past q ts sub pr (inv ++ [(ByDrain, u)]).
Proof.
  intros [Ha Hb Hc Hd]. split.
  - intros u' Hin. destruct (Ha u' Hin) as [Hq | Hi]; [| set_solver].
    apply elem_of_cons in Hq as [-> | Hq]; set_solver.
  - eapply Forall_impl; [exact Hb |]. intros t. apply known_more_invoked.
  - by apply follows_drain_snoc_drain.
  - intros id s Hs. destruct (Hd id s Hs) as (u' & ws & Hu & Hi & Hr).
    exists u', ws. split; [done |]. split; [apply elem_of_app; by left | done].
Qed.

Lemma consistent_add_task past q ts sub pr inv (t : task) :
  consistent_of env past q ts sub pr inv → known env past sub inv t →
  consistent_of env past q (ts ++ [t]) sub pr inv.
Proof.
  intros [Ha Hb Hc Hd] Ht. split; try done.
  apply Forall_app. split; [done |]. by constructor.
Qed.

Lemma consistent_set_task past q ts sub pr inv (i : nat) (t : task) :
  consistent_of env past q ts sub pr inv → known env past sub inv t →
  consistent_of env past q (<[i := t]> ts) sub pr inv.
Proof.
  intros [Ha Hb Hc Hd] Ht. split; try done. by apply Forall_insert.
Qed.

Lemma consistent_caller past q ts sub pr inv (id : nat) (u : list Z) :
  consistent_of env past q ts sub pr inv → sub !! id = Some u → u ∉ q →
  consistent_of env past q ts sub pr (inv ++ [(ByCaller id, u)]) ∧
  known env past sub (inv ++ [(ByCaller id, u)])
    (Caller id u (processVideoFromUrl u)).
Proof.
  intros [Ha Hb Hc Hd] Hs Hq.
  assert ((ByDrain, u) ∈ inv) as Hdrained.
  { destruct (Ha u) as [? | ?]; [by eapply list_elem_of_lookup_2 | done | done]. }
  split; [split |].
  - intros u' Hin. destruct (Ha u' Hin); set_solver.
  - eapply Forall_impl; [exact Hb |]. intros t. apply known_more_invoked.
  - by apply follows_drain_snoc_caller.
  - intros id' s Hs'. destruct (Hd id' s Hs') as (u' & ws & Hu & Hi & Hr).
    exists u', ws. split; [done |]. split; [apply elem_of_app; by left | done].
  - cbn. split; [done |]. split; [set_solver |].
    exists []. split; [apply sublist_nil_l | done].
Qed.

Lemma consistent_settle past q ts sub pr inv (id : nat) (u : list Z)
    (s : settled) :
  consistent_of env past q ts sub pr inv →
  known env past sub inv (Caller id u (leaf s)) →
  consistent_of env past q ts sub (<[id := s]> pr) inv.
Proof.
  intros [Ha Hb Hc Hd] (Hs & Hi & ws & Hws & Hr). split; try done.
  intros id' s' Hl. destruct (decide (id = id')) as [<- | Hne].
  - rewrite lookup_insert_eq in Hl. injection Hl as <-. by exists u, ws.
  - rewrite lookup_insert_ne in Hl by done. by apply Hd.
Qed.

End Consistency.

Section ConsistentMachine.
Context `{Host}.
Variable env : Env.

Lemma consistent_init (w : World) : consistent env [] (init w).
Proof.
  split; cbn.
  - intros u Hin. by apply elem_of_nil in Hin.
  - constructor.
  - intros [|? ?] ? ? ? [=].
  - intros id s Hl. by rewrite lookup_empty in Hl.
Qed.

Lemma consistent_drain_turn (past : list World) (m : Machine) :
  consistent env past m →
  consistent env past (drain_turn env m).1 ∧
  known env past (submitted (drain_turn env m).1)
    (invoked (drain_turn env m).1) (drain_turn env m).2.
Proof.
  unfold consistent, drain_turn. intros Hm.
  destruct (queue m) as [|u rest] eqn:Hq; [by rewrite <- Hq in Hm |].
  rewrite invoke_spec. cbn. split; [| done]. by apply consistent_shift.
Qed.

Lemma consistent_processQueue (past : list World) (m : Machine) :
  consistent env past m → consistent env past (processQueue env m).
Proof.
  intros Hm. unfold processQueue.
  destruct (processing m || bool_decide (queue m = [])); [done |].
  pose proof (consistent_drain_turn past (set_processing true m) Hm)
    as [Hc Hk].
  destruct (drain_turn env (set_processing true m)) as [m' t].
  by apply consistent_add_task.
Qed.

Lemma consistent_checkQueue (past : list World) (id : nat) (u : list Z)
    (m : Machine) :
  consistent env past m → submitted m !! id = Some u →
  consistent env past (checkQueue env id u m).1 ∧
  known env past (submitted (checkQueue env id u m).1)
    (invoked (checkQueue env id u m).1) (checkQueue env id u m).2.
Proof.
  intros Hm Hs. destruct (decide (u ∈ queue m)) as [Hin | Hout].
  - by rewrite checkQueue_queued.
  - rewrite checkQueue_gone by done. by apply consistent_caller.
Qed.

Lemma processQueue_submitted (m : Machine) :
  submitted (processQueue env m) = submitted m.
Proof.
  unfold processQueue.
  destruct (processing m || bool_decide (queue m = [])); [done |].
  unfold drain_turn.
  destruct (queue (set_processing true m)) as [|u rest]; [done |].
  by rewrite invoke_spec.
Qed.

Lemma consistent_processVideo (past : list World) (u : list Z) (m : Machine) :
  consistent env past m → consistent env past (processVideo env u m).
Proof.
  intros Hm. unfold processVideo.
  set (m1 := set_submitted (submitted m ++ [u]) (set_queue (queue m ++ [u]) m)).
  assert (consistent env past m1) as Hm1 by by apply consistent_push.
  pose proof (consistent_processQueue past m1 Hm1) as Hm2.
  assert (submitted (processQueue env m1) !! length (submitted m) = Some u)
    as Hs.
  { rewrite processQueue_submitted. cbn. by rewrite list_lookup_middle. }
  pose proof (consistent_checkQueue past _ _ _ Hm2 Hs) as [Hc Hk].
  destruct (checkQueue env _ u (processQueue env m1)) as [m3 t].
  by apply consistent_add_task.
Qed.

(** A turn of a task happens in the world of the moment, which is then
    one more world gone through. *)
Lemma consistent_fire (past : list World) (i : nat) (m : Machine) :
  consistent env past m → consistent env (past ++ [world m]) (fire env i m).
Proof.
  intros Hm0.
  pose proof (consistent_later env past (world m) _ _ _ _ _ Hm0) as Hm.
  fold (consistent env (past ++ [world m]) m) in Hm.
  unfold fire.
  destruct (tasks m !! i) as [t|] eqn:Ht; [| done].
  pose proof (Forall_lookup_1 _ _ _ _ (tasks_known _ _ _ _ _ _ _ Hm) Ht) as Hk.
  pose proof (Forall_lookup_1 _ _ _ _ (tasks_known _ _ _ _ _ _ _ Hm0) Ht)
    as Hk0.
  destruct t as [p | id u | id u p |]; [| | | done].
  - destruct p as [r | e | e | o k].
    + pose proof (consistent_drain_turn _ m Hm) as [Hc Hk'].
      destruct (drain_turn env m) as [m' t]. by apply consistent_set_task.
    + done.
    + done.
    + destruct (answer_spec env (Call o k) m) as (w & h & ->).
      by apply consistent_set_task.
  - pose proof (consistent_checkQueue _ id u m Hm Hk) as [Hc Hk'].
    destruct (checkQueue env id u m) as [m' t]. by apply consistent_set_task.
  - destruct p as [r | e | e | o k].
    + apply consistent_set_task; [| done].
      by apply (consistent_settle _ _ _ _ _ _ _ id u (Resolved r)).
    + apply consistent_set_task; [| done].
      by apply (consistent_settle _ _ _ _ _ _ _ id u (Rejected e)).
    + done.
    + destruct (answer_spec env (Call o k) m) as (w & h & ->).
      apply consistent_set_task; [done |].
      destruct Hk0 as (Hs & Hi & ws & Hws & Hr). cbn.
      split; [done |]. split; [done |].
      exists (ws ++ [world m]). split; [by apply sublist_app |].
      by rewrite turns_snoc, Hr.
Qed.

Lemma consistent_step (past : list World) (ev : event) (m : Machine) :
  consistent env past m → consistent env (past ++ [world m]) (step env m ev).
Proof.
  intros Hm. unfold step.
  destruct (halted m); [by apply consistent_later |].
  destruct ev; [| by apply consistent_fire].
  by apply consistent_processVideo, consistent_later.
Qed.

Lemma consistent_exec (evs : list event) (past : list World) (m : Machine) :
  consistent env past m →
  consistent env (past ++ worlds env m evs) (exec env evs m).
Proof.
  revert past m. induction evs as [|ev evs IH]; intros past m Hm.
  - cbn. by rewrite app_nil_r.
  - cbn [worlds]. rewrite (cons_middle (world m)), app_assoc.
    apply IH. by apply consistent_step.
Qed.

End ConsistentMachine.

Lemma settle_awaiting {A} (env : Env) (w : World) (p : proc A) (o : op) :
  head_call p = Some o → is_sync o = false → settle env w p = (w, p).
Proof.
  destruct p as [a | e | e | o' k]; cbn; try done.
  intros [= ->] ->. done.
Qed.

Section CallerInvocation.
Context `{Host}.
Variable env : Env.

Lemma fetchVideoInfo_head {B} (url : list Z) (k : jsvalue → proc B) :
  head_call (fetchVideoInfo url ≫= k) = Some (metadata_call url).
Proof.
  unfold fetchVideoInfo, metadata_call. by destruct (is_mp4 url).
Qed.

Lemma metadata_call_awaited (url : list Z) : is_sync (metadata_call url) = false.
Proof. unfold metadata_call. by destruct (is_mp4 url). Qed.

(** The first answer to an invocation: the cached record, or on a miss
    the method now waits for the metadata. *)
Lemma resume_cacheGet {A} (key : list Z)
    (f : option TranscriptRecord → proc A) (w : World) :
  resume env w (Ext.cacheGet key ≫= f)
  = settle env (logged (CacheGet key) w) (f (cache w !! key)).
Proof. reflexivity. Qed.

Lemma resume_hit (url : list Z) (w : World) (r : TranscriptRecord) :
  cache w !! cache_key_of url = Some r →
  resume env w (processVideoFromUrl url)
  = (logged (CacheGet (cache_key_of url)) w, Ret r).
Proof.
  intros Hhit. unfold processVideoFromUrl. cbv zeta.
  rewrite resume_cacheGet. fold (cache_key_of url). by rewrite Hhit.
Qed.

Lemma resume_miss (url : list Z) (w : World) :
  cache w !! cache_key_of url = None →
  ∃ p, resume env w (processVideoFromUrl url)
       = (logged (CacheGet (cache_key_of url)) w, p) ∧
       head_call p = Some (metadata_call url).
Proof.
  intros Hmiss. unfold processVideoFromUrl. cbv zeta.
  rewrite resume_cacheGet. fold (cache_key_of url). rewrite Hmiss. eexists.
  split; [| apply fetchVideoInfo_head].
  eapply settle_awaiting; [apply fetchVideoInfo_head |].
  apply metadata_call_awaited.
Qed.

Lemma processVideoFromUrl_call (url : list Z) :
  ∃ k, processVideoFromUrl url = Call (CacheGet (cache_key_of url)) k.
Proof. eexists. reflexivity. Qed.

Lemma fire_poll (m : Machine) (i id : nat) (u : list Z) :
  halted m = false →
  tasks m !! i = Some (Poll id u) →
  let m' := step env m (Fire i) in
  (u ∈ queue m →
     tasks m' !! i = Some (Poll id u) ∧ invoked m' = invoked m ∧
     promises m' = promises m) ∧
  (u ∉ queue m →
     tasks m' !! i = Some (Caller id u (processVideoFromUrl u)) ∧
     invoked m' = invoked m ++ [(ByCaller id, u)] ∧
     promises m' = promises m).
Proof.
  intros Hh Ht m'. unfold m', step, fire. rewrite Hh, Ht.
  pose proof (lookup_lt_Some _ _ _ Ht) as Hlt. split; intros Hq.
  - rewrite checkQueue_queued by done. cbn.
    by rewrite list_lookup_insert_eq.
  - rewrite checkQueue_gone by done. cbn.
    by rewrite list_lookup_insert_eq.
Qed.

(** A poll whose URL is queued waits, however often it fires. *)
Lemma polls_wait (m : Machine) (i id : nat) (u : list Z) (n : nat) :
  halted m = false →
  tasks m !! i = Some (Poll id u) →
  u ∈ queue m →
  exec env (replicate n (Fire i)) m = m.
Proof.
  intros Hh Ht Hq.
  assert (step env m (Fire i) = m) as Hstep.
  { unfold step, fire. rewrite Hh, Ht, checkQueue_queued by exact Hq.
    unfold set_task, set_tasks. rewrite list_insert_id by exact Ht.
    by destruct m. }
  induction n as [|n IH]; [reflexivity |].
  cbn [replicate]. rewrite exec_cons, Hstep. exact IH.
Qed.

Lemma fire_caller_first (m : Machine) (i id : nat) (u : list Z) :
  halted m = false →
  tasks m !! i = Some (Caller id u (processVideoFromUrl u)) →
  let m' := step env m (Fire i) in
  (∀ r, cache (world m) !! cache_key_of u = Some r →
        tasks m' !! i = Some (Caller id u (Ret r))) ∧
  (cache (world m) !! cache_key_of u = None →
   ∃ p, tasks m' !! i = Some (Caller id u p) ∧
        head_call p = Some (metadata_call u)).
Proof.
  intros Hh Ht m'. unfold m', step, fire. rewrite Hh, Ht.
  pose proof (lookup_lt_Some _ _ _ Ht) as Hlt.
  destruct (processVideoFromUrl_call u) as [k Hk].
  rewrite Hk. cbv iota. rewrite <- Hk. unfold answer. split.
  - intros r Hhit. rewrite (resume_hit _ _ _ Hhit). cbn.
    by rewrite list_lookup_insert_eq.
  - intros Hmiss. destruct (resume_miss _ _ Hmiss) as (p & -> & Hp).
    exists p. cbn. by rewrite list_lookup_insert_eq.
Qed.

Lemma fire_caller_done (m : Machine) (i id : nat) (u : list Z) (s : settled) :
  halted m = false →
  tasks m !! i = Some (Caller id u (leaf s)) →
  promises (step env m (Fire i)) !! id = Some s.
Proof.
  intros Hh Ht. unfold step, fire. rewrite Hh, Ht.
  destruct s; cbn; apply lookup_insert_eq.
Qed.

Lemma fire_drain_promises (m : Machine) (i : nat) (p : proc TranscriptRecord) :
  tasks m !! i = Some (Drain p) →
  promises (step env m (Fire i)) = promises m.
Proof.
  intros Ht. unfold step, fire. destruct (halted m); [done |]. rewrite Ht.
  destruct p as [r | e | e | o k]; try done.
  - unfold drain_turn. destruct (queue m) as [|u rest]; [done |].
    by rewrite invoke_spec.
  - by destruct (answer_spec env (Call o k) m) as (w & h & ->).
Qed.

End CallerInvocation.

(** C10, as the code has it.  In every state the service can reach, a
    caller's invocation of [processVideoFromUrl] comes after a drain-loop
    invocation for the same URL, and a settled promise of [processVideo]
    holds what an invocation made by its own [checkQueue] ended in: the
    invocation for the submitted URL, its awaited calls answered by the
    outside world in worlds the schedule went through, in their order.
    Step by step: a poll invokes [processVideoFromUrl] itself when no
    copy of its URL is in the queue, and otherwise waits without invoking
    or settling anything; what the caller's invocation returns or throws
    settles the promise; a drain task never settles any promise; and the
    caller's invocation starts with the cache read, which hands over the
    record on a hit and otherwise goes on to the first call of
    [fetchVideoInfo], the whole pipeline again. *)
Theorem caller_invokes_again `{Host} (env : Env) :
  (∀ (w0 : World) (evs : list event),
     let m := exec env evs (init w0) in
     follows_drain (invoked m) ∧
     ∀ id s, promises m !! id = Some s →
       ∃ u ws, submitted m !! id = Some u ∧ (ByCaller id, u) ∈ invoked m ∧
               ws `sublist_of` worlds env (init w0) evs ∧
               turns env ws (processVideoFromUrl u) = leaf s) ∧
  (∀ m i id u,
     halted m = false → tasks m !! i = Some (Poll id u) →
     let m' := step env m (Fire i) in
     (u ∈ queue m →
        tasks m' !! i = Some (Poll id u) ∧ invoked m' = invoked m ∧
        promises m' = promises m) ∧
     (u ∉ queue m →
        tasks m' !! i = Some (Caller id u (processVideoFromUrl u)) ∧
        invoked m' = invoked m ++ [(ByCaller id, u)] ∧
        promises m' = promises m)) ∧
  (∀ m i id u s,
     halted m = false → tasks m !! i = Some (Caller id u (leaf s)) →
     promises (step env m (Fire i)) !! id = Some s) ∧
  (∀ m i p,
     tasks m !! i = Some (Drain p) →
     promises (step env m (Fire i)) = promises m) ∧
  (∀ m i id u,
     halted m = false →
     tasks m !! i = Some (Caller id u (processVideoFromUrl u)) →
     let m' := step env m (Fire i) in
     (∀ r, cache (world m) !! cache_key_of u = Some r →
           tasks m' !! i = Some (Caller id u (Ret r))) ∧
     (cache (world m) !! cache_key_of u = None →
      ∃ p, tasks m' !! i = Some (Caller id u p) ∧
           head_call p = Some (metadata_call u))).
Proof.
  split; [| split; [| split; [| split]]].
  - intros w0 evs m.
    pose proof (consistent_exec env evs [] _ (consistent_init env w0))
      as [_ _ Hc Hd].
    split; [exact Hc | exact Hd].
  - intros m i id u. apply fire_poll.
  - intros m i id u s. apply fire_caller_done.
  - intros m i p. apply fire_drain_promises.
  - intros m i id u. apply fire_caller_first.
Qed.

Lemma caller_invokes_again_witness :
  let served :=
    exec sample_env [Submit sample_urlB; Fire 0; Fire 0; Fire 0; Fire 1; Fire 1]
      (init empty_world) in
  let refused :=
    exec second_fetch_fails_env
      [Submit sample_urlB; Fire 0; Fire 1; Fire 0; Fire 1; Fire 1; Fire 0; Fire 0]
      (init empty_world) in
  invoked served = [(ByDrain, sample_urlB); (ByCaller 0, sample_urlB)] ∧
  promises served !! 0%nat = Some (Resolved sample_recordB) ∧
  (∃ ws,
     ws `sublist_of`
       worlds sample_env (init empty_world)
         [Submit sample_urlB; Fire 0; Fire 0; Fire 0; Fire 1; Fire 1] ∧
     turns sample_env ws (processVideoFromUrl sample_urlB)
     = Ret sample_recordB) ∧
  log (world served)
  = [CacheGet (cache_key_of sample_urlB); YoutubeDl sample_urlB DumpJson;
     CacheSet (cache_key_of sample_urlB) sample_recordB;
     CacheGet (cache_key_of sample_urlB)] ∧
  promises refused !! 0%nat
  = Some (Rejected (Error (js "Failed to fetch video information"))) ∧
  cache (world refused) !! cache_key_of sample_urlB = Some sample_recordB ∧
  processing refused = false ∧
  halted refused = false.
Proof.
  intros served refused.
  assert (promises served !! 0%nat = Some (Resolved sample_recordB)) as Hp
    by (vm_compute; reflexivity).
  destruct (caller_invokes_again sample_env) as [Hreach _].
  destruct (Hreach empty_world
              [Submit sample_urlB; Fire 0; Fire 0; Fire 0; Fire 1; Fire 1])
    as [_ Hfrom].
  destruct (Hfrom 0%nat (Resolved sample_recordB) Hp)
    as (u & ws & Hu & _ & Hws & Hr).
  assert (u = sample_urlB) as ->
    by (vm_compute in Hu; injection Hu as <-; vm_compute; reflexivity).
  split; [vm_compute; reflexivity |]. split; [exact Hp |].
  split; [exists ws; split; [exact Hws | exact Hr] |].
  split; [vm_compute; reflexivity |].
  split; [vm_compute; reflexivity |]. split; [vm_compute; reflexivity |].
  split; vm_compute; reflexivity.
Defined.

(** C10, as stated, fails.  URL A is submitted, then URL B; the drain
    loop finishes A and takes B off the queue; then B is submitted a
    second time.  The drain loop has removed the URL of B's first
    submission and is processing it, but a copy of it is in the queue:
    however often the poll of the first submission fires, it invokes
    nothing and its promise stays unsettled. *)
Lemma queued_copy_holds_back_poll :
  let m :=
    exec sample_env
      [Submit sample_urlA; Submit sample_urlB; Fire 0; Fire 0; Fire 0; Fire 0;
       Submit sample_urlB]
      (init empty_world) in
  submitted m = [sample_urlA; sample_urlB; sample_urlB] ∧
  invoked m
  = [(ByDrain, sample_urlA); (ByCaller 0, sample_urlA);
     (ByDrain, sample_urlB)] ∧
  queue m = [sample_urlB] ∧
  tasks m !! 2%nat = Some (Poll 1 sample_urlB) ∧
  halted m = false ∧
  ∀ n : nat,
    let m' := exec sample_env (replicate n (Fire 2)) m in
    tasks m' !! 2%nat = Some (Poll 1 sample_urlB) ∧
    invoked m' = invoked m ∧
    promises m' !! 1%nat = None.
Proof.
  intros m.
  assert (tasks m !! 2%nat = Some (Poll 1 sample_urlB)) as Ht
    by (vm_compute; reflexivity).
  assert (halted m = false) as Hh by (vm_compute; reflexivity).
  assert (queue m = [sample_urlB]) as Hq by (vm_compute; reflexivity).
  assert (promises m !! 1%nat = None) as Hp by (vm_compute; reflexivity).
  assert (sample_urlB ∈ queue m) as Hin
    by (rewrite Hq; apply list_elem_of_here).
  split; [vm_compute; reflexivity |]. split; [vm_compute; reflexivity |].
  split; [exact Hq |]. split; [exact Ht |]. split; [exact Hh |].
  intros n.
  pose proof (polls_wait sample_env m 2 1 sample_urlB n Hh Ht Hin) as Hm'.
  cbv zeta. rewrite Hm'.
  split; [exact Ht |]. split; [reflexivity | exact Hp].
Qed.

(** ** Single flight: at most one drain loop *)

Lemma lone_drain_replace (flag : bool) (ts : list task) (i : nat) (t : task) :
  is_drain t = false → lone_drain flag ts → lone_drain flag (<[i := t]> ts).
Proof.
  intros Ht [Huniq Hnone]. split.
  - intros j k p q Hj Hk.
    apply list_lookup_insert_Some in Hj as [(_ & -> & _) | [_ Hj]]; [done |].
    apply list_lookup_insert_Some in Hk as [(_ & -> & _) | [_ Hk]]; [done |].
    by eapply Huniq.
  - intros Hf j p Hj.
    apply list_lookup_insert_Some in Hj as [(_ & -> & _) | [_ Hj]]; [done |].
    by eapply Hnone.
Qed.

Lemma lone_drain_continue (flag : bool) (ts : list task) (i : nat)
    (p p' : proc TranscriptRecord) :
  ts !! i = Some (Drain p) → lone_drain flag ts →
  lone_drain flag (<[i := Drain p']> ts).
Proof.
  intros Hi [Huniq Hnone]. split.
  - intros j k q q' Hj Hk.
    assert (j = i) as ->.
    { apply list_lookup_insert_Some in Hj as [(-> & _) | [_ Hj]]; [done |].
      by eapply Huniq. }
    apply list_lookup_insert_Some in Hk as [(-> & _) | [_ Hk]]; [done |].
    symmetry. by eapply Huniq.
  - intros Hf. by destruct (Hnone Hf i p).
Qed.

Lemma lone_drain_finish (flag flag' : bool) (ts : list task) (i : nat)
    (p : proc TranscriptRecord) :
  ts !! i = Some (Drain p) → lone_drain flag ts →
  lone_drain flag' (<[i := Finished]> ts).
Proof.
  intros Hi [Huniq Hnone].
  assert (∀ j q, <[i := Finished]> ts !! j ≠ Some (Drain q)) as Hgone.
  { intros j q Hj.
    apply list_lookup_insert_Some in Hj as [(_ & [=] & _) | [Hne Hj]].
    apply Hne. by eapply Huniq. }
  split; [| done]. intros j k q q' Hj. by destruct (Hgone j q).
Qed.

Lemma lone_drain_add (flag : bool) (ts : list task) (t : task) :
  is_drain t = false → lone_drain flag ts → lone_drain flag (ts ++ [t]).
Proof.
  intros Ht [Huniq Hnone]. split.
  - intros j k p q Hj Hk.
    apply lookup_snoc_Some in Hj as [[_ Hj] | [_ ->]]; [| done].
    apply lookup_snoc_Some in Hk as [[_ Hk] | [_ ->]]; [| done].
    by eapply Huniq.
  - intros Hf j p Hj.
    apply lookup_snoc_Some in Hj as [[_ Hj] | [_ ->]]; [| done].
    by eapply Hnone.
Qed.

Lemma lone_drain_start (ts : list task) (t : task) :
  lone_drain false ts → lone_drain true (ts ++ [t]).
Proof.
  intros [_ Hnone]. split; [| done].
  intros j k p q Hj Hk.
  apply lookup_snoc_Some in Hj as [[_ Hj] | [-> _]];
    [by destruct (Hnone eq_refl j p) |].
  apply lookup_snoc_Some in Hk as [[_ Hk] | [-> _]];
    [by destruct (Hnone eq_refl k q) | done].
Qed.

Section SingleFlight.
Context `{Host}.
Variable env : Env.

Lemma single_flight_init (w : World) : single_flight (init w).
Proof. split; cbn; intros; by rewrite lookup_nil in *. Qed.

Lemma single_flight_processQueue (m : Machine) :
  single_flight m → single_flight (processQueue env m).
Proof.
  intros Hm. unfold processQueue.
  destruct (processing m) eqn:Hp; [done |]. cbn [orb].
  destruct (bool_decide (queue m = [])); [done |].
  unfold single_flight in Hm. rewrite Hp in Hm.
  unfold drain_turn. cbn [queue set_processing].
  destruct (queue m) as [|u rest].
  - cbn. apply lone_drain_add; [done |]. split; [apply Hm | apply Hm].
  - rewrite invoke_spec. cbn. by apply lone_drain_start.
Qed.

Lemma single_flight_checkQueue (id : nat) (u : list Z) (m : Machine) :
  single_flight m →
  lone_drain (processing (checkQueue env id u m).1)
    (tasks (checkQueue env id u m).1 ++ [(checkQueue env id u m).2]).
Proof.
  intros Hm. destruct (decide (u ∈ queue m)) as [Hin | Hout].
  - rewrite checkQueue_queued by done. by apply lone_drain_add.
  - rewrite checkQueue_gone by done. by apply lone_drain_add.
Qed.

Lemma single_flight_processVideo (u : list Z) (m : Machine) :
  single_flight m → single_flight (processVideo env u m).
Proof.
  intros Hm. unfold processVideo.
  set (m1 := set_submitted _ _).
  assert (single_flight (processQueue env m1)) as Hm2
    by by apply single_flight_processQueue.
  pose proof (single_flight_checkQueue (length (submitted m)) u _ Hm2) as Hc.
  by destruct (checkQueue env _ u (processQueue env m1)) as [m3 t].
Qed.

Lemma single_flight_fire (i : nat) (m : Machine) :
  single_flight m → single_flight (fire env i m).
Proof.
  intros Hm. unfold fire, single_flight in *.
  destruct (tasks m !! i) as [t|] eqn:Ht; [| done].
  destruct t as [p | id u | id u p |]; [| | | done].
  - destruct p as [r | e | e | o k].
    + unfold drain_turn. destruct (queue m) as [|u rest].
      * cbn. by eapply lone_drain_finish.
      * rewrite invoke_spec. cbn. by eapply lone_drain_continue.
    + done.
    + done.
    + destruct (answer_spec env (Call o k) m) as (w & h & ->). cbn.
      by eapply lone_drain_continue.
  - destruct (decide (u ∈ queue m)) as [Hin | Hout].
    + rewrite checkQueue_queued by done. by apply lone_drain_replace.
    + rewrite checkQueue_gone by done. by apply lone_drain_replace.
  - destruct p as [r | e | e | o k]; try done.
    + by apply lone_drain_replace.
    + by apply lone_drain_replace.
    + destruct (answer_spec env (Call o k) m) as (w & h & ->). cbn.
      by apply lone_drain_replace.
Qed.

(** In every state the service reaches, at most one drain loop is alive,
    and only while [this.processing] is set. *)
Lemma single_flight_exec (evs : list event) (m : Machine) :
  single_flight m → single_flight (exec env evs m).
Proof.
  revert m. induction evs as [|ev evs IH]; intros m Hm; [done |].
  cbn. apply IH. unfold step. destruct (halted m); [done |].
  destruct ev; auto using single_flight_processVideo, single_flight_fire.
Qed.

End SingleFlight.

(** ** C1: a failure inside the drain loop *)

Section FailedDrain.
Context `{Host}.
Variable env : Env.



End FailedDrain.




(** * Further properties

    What the code shows besides, method by method. *)

(** ** [getVideoId]: the shape of an identifier *)

Lemma digit36_base36 (d : Z) : 0 ≤ d < 36 → base36_digit (digit36 d) = true.
Proof.
  intros Hd. unfold base36_digit, digit36.
  destruct (Z.ltb_spec d 10);
    rewrite orb_true_iff, !andb_true_iff, !Z.leb_le; lia.
Qed.

Lemma to_base36_digits (fuel : nat) (n : Z) (acc : list Z) :
  0 ≤ n → forallb base36_digit acc = true →
  forallb base36_digit (to_base36 fuel n acc) = true.
Proof.
  revert n acc. induction fuel as [|fuel IH]; intros n acc Hn Hacc; [done |].
  cbn [to_base36].
  assert (forallb base36_digit (digit36 (n `mod` 36) :: acc) = true) as Hacc'.
  { cbn [forallb]. rewrite Hacc, digit36_base36; [done |].
    apply Z.mod_pos_bound. lia. }
  destruct (n `div` 36 =? 0); [exact Hacc' |].
  apply IH; [apply Z.div_pos; lia | exact Hacc'].
Qed.

Lemma to_base36_length (k fuel : nat) (n : Z) (acc : list Z) :
  0 ≤ n < 36 ^ Z.of_nat (S k) →
  (length (to_base36 fuel n acc) ≤ S k + length acc)%nat.
Proof.
  revert fuel n acc. induction k as [|k IH]; intros [|fuel] n acc Hn;
    cbn [to_base36]; try lia.
  - rewrite Z.div_small by (change (36 ^ Z.of_nat 1) with 36 in Hn; lia).
    cbn. lia.
  - destruct (n `div` 36 =? 0); [cbn; lia |].
    etransitivity; [apply IH | cbn; lia].
    split; [apply Z.div_pos; lia |].
    apply Z.div_lt_upper_bound; [lia |].
    rewrite <- Z.pow_succ_r by lia. rewrite <- Nat2Z.inj_succ. apply Hn.
Qed.

Lemma to_base36_grows (fuel : nat) (n : Z) (acc : list Z) :
  (length acc ≤ length (to_base36 fuel n acc))%nat ∧
  (fuel ≠ 0%nat → length acc < length (to_base36 fuel n acc))%nat.
Proof.
  revert n acc. induction fuel as [|fuel IH]; intros n acc; [cbn; lia |].
  cbn [to_base36]. destruct (n `div` 36 =? 0); [cbn; lia |].
  destruct (IH (n `div` 36) (digit36 (n `mod` 36) :: acc)) as [Hle _].
  cbn [length] in Hle. lia.
Qed.

(** X1. Whatever the string, [getVideoId] gives between one and six
    characters, each a digit or a lower-case letter: no separator of a
    path or of a cache key can occur in an identifier. *)
Theorem getVideoId_is_base36 (url : jsstring) :
  (1 ≤ length (getVideoId url) ≤ 6)%nat ∧
  forallb base36_digit (getVideoId url) = true.
Proof.
  pose proof (hash_range url) as Hr. unfold getVideoId, toString36.
  split; [split |].
  - destruct (to_base36_grows 7 (Z.abs (fold_left hash_step url 0)) [])
      as [_ Hlt].
    specialize (Hlt ltac:(done)). cbn [length] in Hlt. lia.
  - pose proof (to_base36_length 5 7 (Z.abs (fold_left hash_step url 0)) [])
      as Hlen.
    cbn [length] in Hlen. rewrite Nat.add_0_r in Hlen. apply Hlen.
    change (36 ^ Z.of_nat 6) with 2176782336. lia.
  - apply to_base36_digits; [lia | done].
Qed.

(** ** [getVideoId]: what the loop computes *)

Lemma toInt32_shape (z : Z) : ∃ k, toInt32 z = z + k * 2 ^ 32.
Proof.
  exists (- ((z + 2 ^ 31) `div` 2 ^ 32)). unfold toInt32.
  pose proof (Z.div_mod (z + 2 ^ 31) (2 ^ 32)). lia.
Qed.

Lemma toInt32_mod (a b : Z) :
  a `mod` 2 ^ 32 = b `mod` 2 ^ 32 → toInt32 a = toInt32 b.
Proof.
  intros Hab. unfold toInt32.
  by rewrite (Z.add_mod a), Hab, <- Z.add_mod.
Qed.

Lemma toInt32_fixed (z : Z) : - 2 ^ 31 ≤ z < 2 ^ 31 → toInt32 z = z.
Proof. intros Hz. unfold toInt32. rewrite Z.mod_small; lia. Qed.

Lemma hash_step_toInt32 (hash char : Z) :
  hash_step hash char = toInt32 (toInt32 (toInt32 hash * 32) - hash + char).
Proof.
  unfold hash_step, int32_and, int32_shl.
  by rewrite Z.land_diag, Z.shiftl_mul_pow2.
Qed.

Lemma hash_step_mod (h h' c : Z) :
  h `mod` 2 ^ 32 = h' `mod` 2 ^ 32 →
  hash_step h c `mod` 2 ^ 32 = (31 * h' + c) `mod` 2 ^ 32.
Proof.
  intros Hh. rewrite hash_step_toInt32.
  destruct (toInt32_shape h) as [k1 ->].
  destruct (toInt32_shape ((h + k1 * 2 ^ 32) * 32)) as [k2 ->].
  destruct (toInt32_shape ((h + k1 * 2 ^ 32) * 32 + k2 * 2 ^ 32 - h + c))
    as [k3 ->].
  assert (∃ j, h = h' + j * 2 ^ 32) as [j ->].
  { exists (h `div` 2 ^ 32 - h' `div` 2 ^ 32).
    pose proof (Z.div_mod h (2 ^ 32)). pose proof (Z.div_mod h' (2 ^ 32)).
    lia. }
  replace (_ + k3 * 2 ^ 32)
    with (31 * h' + c + (31 * j + 32 * k1 + k2 + k3) * 2 ^ 32) by lia.
  apply Z_mod_plus_full.
Qed.

Lemma fold_hash_step_mod (url : list Z) (h h' : Z) :
  h `mod` 2 ^ 32 = h' `mod` 2 ^ 32 →
  fold_left hash_step url h `mod` 2 ^ 32
  = fold_left (λ hash char, 31 * hash + char) url h' `mod` 2 ^ 32.
Proof.
  revert h h'. induction url as [|c url IH]; intros h h' Hh; [done |].
  cbn [fold_left]. by apply IH, hash_step_mod.
Qed.

Lemma fold_hash_step_range (url : list Z) (h : Z) :
  - 2 ^ 31 ≤ h < 2 ^ 31 → - 2 ^ 31 ≤ fold_left hash_step url h < 2 ^ 31.
Proof.
  revert h. induction url as [|c url IH]; intros h Hh; [done |].
  cbn [fold_left]. apply IH. rewrite hash_step_toInt32. apply toInt32_range.
Qed.

Lemma hash_wraps_polynomial (url : list Z) :
  fold_left hash_step url 0 = toInt32 (polynomial31 url).
Proof.
  rewrite <- (toInt32_fixed (fold_left hash_step url 0))
    by (apply fold_hash_step_range; lia).
  apply toInt32_mod. by apply fold_hash_step_mod.
Qed.

(** X2. The shift, the subtraction and the [&] of the loop add up to
    Horner's rule with multiplier 31, wrapped to 32 bits once at the end:
    the identifier is [Math.abs] of that number, printed in base 36. *)
Theorem getVideoId_is_polynomial (url : jsstring) :
  fold_left hash_step url 0 = toInt32 (polynomial31 url) ∧
  getVideoId url = toString36 (Z.abs (toInt32 (polynomial31 url))).
Proof.
  split; [apply hash_wraps_polynomial |].
  unfold getVideoId. by rewrite hash_wraps_polynomial.
Qed.

(** ** The pattern: what a match is *)

Lemma strip_Some (p s r : list Z) : UrlPattern.strip p s = Some r → s = p ++ r.
Proof.
  revert s. induction p as [|a p IH]; intros [|b s]; cbn; try done.
  - by intros [= ->].
  - by intros [= ->].
  - destruct (Z.eqb_spec a b) as [-> |]; [| done].
    intros Hs. f_equal. by apply IH.
Qed.

Lemma id_run_spec (s : list Z) :
  forallb UrlPattern.id_char (UrlPattern.id_run s) = true ∧
  ∃ t, s = UrlPattern.id_run s ++ t.
Proof.
  induction s as [|c s [IHa [t IHt]]]; cbn; [split; [done | by exists []] |].
  destruct (UrlPattern.id_char c) eqn:Hc; cbn.
  - rewrite Hc, IHa. split; [done |]. exists t. by rewrite <- IHt.
  - split; [done |]. by exists (c :: s).
Qed.

Lemma group_Some (s g : list Z) :
  UrlPattern.group s = Some g →
  forallb UrlPattern.id_char g = true ∧ ∃ t, s = g ++ t.
Proof.
  unfold UrlPattern.group. pose proof (id_run_spec s) as Hs.
  destruct (UrlPattern.id_run s); [done |]. by intros [= <-].
Qed.

Lemma dots_then_Some {A} (k : list Z → option A) (s : list Z) (x : A) :
  UrlPattern.dots_then k s = Some x → ∃ a r, s = a ++ r ∧ k r = Some x.
Proof.
  induction s as [|c s IH]; cbn; [done |].
  destruct (UrlPattern.line_terminator c); [done |].
  destruct (UrlPattern.dots_then k s) as [y|].
  - intros [= ->]. destruct (IH eq_refl) as (a & r & -> & Hk).
    by exists (c :: a), r.
  - intros Hk. by exists [c], s.
Qed.

Lemma strip_group_Some (p s g : list Z) :
  UrlPattern.strip p s ≫= UrlPattern.group = Some g →
  forallb UrlPattern.id_char g = true ∧ ∃ t, s = p ++ g ++ t.
Proof.
  intros (r & Hr%strip_Some & Hg%group_Some)%bind_Some.
  destruct Hg as [Hid [t ->]]. split; [done |]. by exists t.
Qed.

Lemma match_here_Some (s g : list Z) :
  UrlPattern.match_here s = Some g →
  (JsString.startsWith (js "youtu.be") s = true ∨
   JsString.startsWith (js "youtube.com") s = true) ∧
  forallb UrlPattern.id_char g = true ∧
  ∃ a b, s = a ++ g ++ b.
Proof.
  unfold UrlPattern.match_here. intros Hm.
  apply or_else_Some in Hm as [Hm | Hm].
  { apply strip_group_Some in Hm as [Hid [t ->]].
    split; [by left |]. split; [done |]. by eexists _, _. }
  apply bind_Some in Hm as (rest & ->%strip_Some & Hm).
  split; [by right |].
  assert (∀ p, UrlPattern.strip p rest ≫= UrlPattern.group = Some g →
               forallb UrlPattern.id_char g = true ∧
               ∃ a b, js "youtube.com" ++ rest = a ++ g ++ b) as Hshape.
  { intros p [Hid [t ->]]%strip_group_Some. split; [done |].
    exists (js "youtube.com" ++ p), t. by rewrite <- !app_assoc. }
  repeat (apply or_else_Some in Hm as [Hm | Hm]; [by eapply Hshape |]).
  apply bind_Some in Hm as (r & ->%strip_Some & Hm).
  apply dots_then_Some in Hm as (a & r' & -> & [Hid [t ->]]%strip_group_Some).
  split; [done |].
  exists (js "youtube.com" ++ js "/watch?" ++ a ++ js "&v="), t.
  by rewrite <- !app_assoc.
Qed.

Lemma group1_Some (url g : list Z) :
  UrlPattern.group1 url = Some g →
  ∃ before s, url = before ++ s ∧ UrlPattern.match_here s = Some g.
Proof.
  induction url as [|c url IH]; rewrite group1_unfold; intros Hg;
    apply or_else_Some in Hg as [Hg | Hg]; try done.
  - by exists [], (c :: url).
  - destruct (IH Hg) as (before & s & -> & Hs). by exists (c :: before), s.
Qed.

Lemma includes_startsWith (p s : list Z) :
  JsString.startsWith p s = true → JsString.includes p s = true.
Proof. intros Hp. destruct s; cbn in *; by rewrite Hp. Qed.

Lemma includes_later (p before s : list Z) :
  JsString.includes p s = true → JsString.includes p (before ++ s) = true.
Proof.
  intros Hp. induction before as [|c before IH]; [done |].
  cbn [app JsString.includes]. rewrite IH. apply orb_true_r.
Qed.

Lemma startsWith_prefix (p r : list Z) : JsString.startsWith p (p ++ r) = true.
Proof.
  induction p as [|a p IH]; [by destruct r |]. cbn. by rewrite Z.eqb_refl.
Qed.

Lemma includes_middle (p a b : list Z) :
  JsString.includes p (a ++ p ++ b) = true.
Proof. apply includes_later, includes_startsWith, startsWith_prefix. Qed.

(** X3. What the pattern captures is never empty, holds none of [/], [&]
    and [?], and is a piece of the URL; and a URL the pattern matches is
    one [isVideoUrl] accepts. *)
Theorem matched_id_is_clean (url videoId : jsstring) :
  UrlPattern.group1 url = Some videoId →
  is_video_id videoId = true ∧
  JsString.includes videoId url = true ∧
  isVideoUrl url = true.
Proof.
  intros Hg. pose proof (group1_nonempty _ _ Hg) as Hne.
  apply group1_Some in Hg as (before & s & -> & Hs).
  apply match_here_Some in Hs as (Hhost & Hid & a & b & ->).
  split; [| split].
  - unfold is_video_id, jsstring_eqb. by rewrite bool_decide_eq_false_2, Hid.
  - apply includes_later, includes_middle.
  - unfold isVideoUrl.
    destruct Hhost as [Hh | Hh]; apply includes_startsWith in Hh;
      rewrite (includes_later _ before _ Hh); by rewrite ?orb_true_r.
Qed.

Lemma matched_id_is_clean_witness :
  is_video_id (js "dQw4w9WgXcQ") = true ∧
  JsString.includes (js "dQw4w9WgXcQ")
    (js "https://www.youtube.com/watch?app=desktop&v=dQw4w9WgXcQ&t=3") = true ∧
  isVideoUrl (js "https://www.youtube.com/watch?app=desktop&v=dQw4w9WgXcQ&t=3")
  = true.
Proof.
  apply (matched_id_is_clean
           (js "https://www.youtube.com/watch?app=desktop&v=dQw4w9WgXcQ&t=3")).
  vm_compute. reflexivity.
Defined.

(** ** The pattern: the URLs of one video *)

Lemma id_run_app (g tail : list Z) :
  forallb UrlPattern.id_char g = true → ends_id tail = true →
  UrlPattern.id_run (g ++ tail) = g.
Proof.
  intros Hg Ht. induction g as [|c g IH]; cbn in *.
  - destruct tail as [|c tail]; [done |]. cbn in *.
    by destruct (UrlPattern.id_char c).
  - apply andb_prop in Hg as [-> Hg]. by rewrite IH.
Qed.

Lemma group_app (g tail : list Z) :
  is_video_id g = true → ends_id tail = true →
  UrlPattern.group (g ++ tail) = Some g.
Proof.
  intros [Hne Hg]%andb_prop Ht. unfold UrlPattern.group.
  rewrite id_run_app by done. destruct g; [done | reflexivity].
Qed.

Lemma group1_skip (c : Z) (s : list Z) :
  UrlPattern.match_here (c :: s) = None →
  UrlPattern.group1 (c :: s) = UrlPattern.group1 s.
Proof. intros Hm. cbn [UrlPattern.group1]. by rewrite Hm. Qed.

Lemma group1_here (s g : list Z) :
  UrlPattern.match_here s = Some g → UrlPattern.group1 s = Some g.
Proof. intros Hm. rewrite group1_unfold. by rewrite Hm. Qed.

Lemma match_here_short (r : list Z) :
  UrlPattern.match_here (js "youtu.be/" ++ r) = UrlPattern.group r.
Proof.
  unfold UrlPattern.match_here.
  change (UrlPattern.strip (js "youtu.be/") (js "youtu.be/" ++ r))
    with (Some r).
  change (UrlPattern.strip (js "youtube.com") (js "youtu.be/" ++ r))
    with (@None (list Z)).
  cbn. by destruct (UrlPattern.group r).
Qed.

Lemma match_here_long (path r g : list Z) :
  path ∈ [js "/embed/"; js "/v/"; js "/watch?v="] →
  UrlPattern.group r = Some g →
  UrlPattern.match_here (js "youtube.com" ++ path ++ r) = Some g.
Proof.
  intros Hpath Hg. unfold UrlPattern.match_here.
  change (UrlPattern.strip (js "youtu.be/") (js "youtube.com" ++ path ++ r))
    with (@None (list Z)).
  change (UrlPattern.strip (js "youtube.com") (js "youtube.com" ++ path ++ r))
    with (Some (path ++ r)).
  cbn [UrlPattern.or_else mbind option_bind].
  repeat (apply elem_of_cons in Hpath as [-> | Hpath]);
    [| | | by apply elem_of_nil in Hpath].
  - change (UrlPattern.strip (js "/embed/") (js "/embed/" ++ r)) with (Some r).
    cbn. by rewrite Hg.
  - change (UrlPattern.strip (js "/embed/") (js "/v/" ++ r))
      with (@None (list Z)).
    change (UrlPattern.strip (js "/v/") (js "/v/" ++ r)) with (Some r).
    cbn. by rewrite Hg.
  - change (UrlPattern.strip (js "/embed/") (js "/watch?v=" ++ r))
      with (@None (list Z)).
    change (UrlPattern.strip (js "/v/") (js "/watch?v=" ++ r))
      with (@None (list Z)).
    change (UrlPattern.strip (js "/watch?v=") (js "/watch?v=" ++ r))
      with (Some r).
    cbn. by rewrite Hg.
Qed.

Ltac skip_to_host :=
  repeat (rewrite group1_skip by reflexivity).

Lemma group1_short_url (videoId tail : list Z) :
  is_video_id videoId = true → ends_id tail = true →
  UrlPattern.group1 (short_url videoId ++ tail) = Some videoId.
Proof.
  intros Hid Ht. unfold short_url. rewrite <- app_assoc.
  change (js "https://youtu.be/" ++ videoId ++ tail)
    with (js "https://" ++ js "youtu.be/" ++ videoId ++ tail).
  change (js "https://") with [104; 116; 116; 112; 115; 58; 47; 47].
  cbn [app]. skip_to_host.
  apply group1_here. rewrite match_here_short. by apply group_app.
Qed.

Lemma group1_long_url (path videoId tail : list Z) :
  path ∈ [js "/embed/"; js "/v/"; js "/watch?v="] →
  is_video_id videoId = true → ends_id tail = true →
  UrlPattern.group1
    (js "https://www." ++ js "youtube.com" ++ path ++ videoId ++ tail)
  = Some videoId.
Proof.
  intros Hpath Hid Ht.
  change (js "https://www.")
    with [104; 116; 116; 112; 115; 58; 47; 47; 119; 119; 119; 46].
  cbn [app]. skip_to_host.
  apply group1_here, match_here_long; [done |]. by apply group_app.
Qed.

(** X4. The short, watch, embed and [/v/] URLs of one video, whatever
    follows the ID in them, all have the key of that ID: the cache does
    not tell the shapes apart. *)
Theorem url_shapes_share_cache_key (videoId tail url : jsstring) :
  is_video_id videoId = true → ends_id tail = true →
  url ∈ [short_url videoId ++ tail; watch_url videoId ++ tail;
         embed_url videoId ++ tail; v_url videoId ++ tail] →
  UrlPattern.group1 url = Some videoId ∧
  cache_key_of url = js "content/video/" ++ getVideoId videoId.
Proof.
  intros Hid Ht Hurl.
  assert (UrlPattern.group1 url = Some videoId) as Hg.
  { repeat (apply elem_of_cons in Hurl as [-> | Hurl]);
      [| | | | by apply elem_of_nil in Hurl].
    - by apply group1_short_url.
    - unfold watch_url. rewrite <- app_assoc.
      apply (group1_long_url (js "/watch?v=")); [set_solver | done..].
    - unfold embed_url. rewrite <- app_assoc.
      apply (group1_long_url (js "/embed/")); [set_solver | done..].
    - unfold v_url. rewrite <- app_assoc.
      apply (group1_long_url (js "/v/")); [set_solver | done..]. }
  split; [exact Hg |]. by rewrite (cache_key_matched _ _ Hg).
Qed.

Lemma url_shapes_share_cache_key_witness :
  UrlPattern.group1 (js "https://www.youtube.com/watch?v=dQw4w9WgXcQ&t=3")
  = Some (js "dQw4w9WgXcQ") ∧
  cache_key_of (js "https://www.youtube.com/watch?v=dQw4w9WgXcQ&t=3")
  = js "content/video/x4j3nu".
Proof.
  apply (url_shapes_share_cache_key (js "dQw4w9WgXcQ") (js "&t=3")).
  - vm_compute. reflexivity.
  - vm_compute. reflexivity.
  - compute_done.
Defined.

(** ** Identifiers collide *)

Lemma polynomial31_collision (p s : list Z) :
  polynomial31 (p ++ js "Aa" ++ s) = polynomial31 (p ++ js "BB" ++ s).
Proof.
  unfold polynomial31. rewrite !fold_left_app.
  change (js "Aa") with [65; 97]. change (js "BB") with [66; 66].
  cbn [fold_left]. f_equal. lia.
Qed.

Lemma getVideoId_collision (p s : list Z) :
  getVideoId (p ++ js "Aa" ++ s) = getVideoId (p ++ js "BB" ++ s).
Proof.
  unfold getVideoId. by rewrite !hash_wraps_polynomial, polynomial31_collision.
Qed.

(** X5. Identifiers are not unique: two video IDs that differ only in
    having [Aa] where the other has [BB] get the same identifier, so the
    short URLs of the two videos have one cache key, and once a resolve of
    the first has returned a record, a resolve of the second returns that
    record after the one [cacheManager.get]. *)
Theorem distinct_videos_share_cache_key `{Host} (p s : jsstring) :
  forallb UrlPattern.id_char p = true →
  forallb UrlPattern.id_char s = true →
  let id1 := p ++ js "Aa" ++ s in
  let id2 := p ++ js "BB" ++ s in
  id1 ≠ id2 ∧
  UrlPattern.group1 (short_url id1) = Some id1 ∧
  UrlPattern.group1 (short_url id2) = Some id2 ∧
  cache_key_of (short_url id1) = cache_key_of (short_url id2) ∧
  ∀ (env env' : Env) (w w1 : World) (r : TranscriptRecord),
    run env w (processVideoFromUrl (short_url id1)) = (w1, Returned r) →
    run env' w1 (processVideoFromUrl (short_url id2))
    = (logged (CacheGet (cache_key_of (short_url id2))) w1, Returned r).
Proof.
  intros Hp Hs id1 id2. subst id1 id2.
  assert (∀ mid, forallb UrlPattern.id_char mid = true → mid ≠ [] →
                 UrlPattern.group1 (short_url (p ++ mid ++ s))
                 = Some (p ++ mid ++ s)) as Hgroup.
  { intros mid Hmid Hne.
    rewrite <- (app_nil_r (short_url _)). apply group1_short_url; [| done].
    unfold is_video_id, jsstring_eqb.
    rewrite bool_decide_eq_false_2 by (by destruct p, mid).
    by rewrite !forallb_app, Hp, Hmid, Hs. }
  pose proof (Hgroup (js "Aa") eq_refl ltac:(done)) as Hg1.
  pose proof (Hgroup (js "BB") eq_refl ltac:(done)) as Hg2.
  assert (cache_key_of (short_url (p ++ js "Aa" ++ s))
          = cache_key_of (short_url (p ++ js "BB" ++ s))) as Hkey.
  { rewrite (cache_key_matched _ _ Hg1), (cache_key_matched _ _ Hg2).
    by rewrite getVideoId_collision. }
  split; [| split; [exact Hg1 | split; [exact Hg2 | split; [exact Hkey |]]]].
  - intros Heq. by apply app_inv_head in Heq.
  - intros env env' w w1 r Hrun. apply cache_hit. rewrite <- Hkey.
    by eapply returned_is_cached.
Qed.

Lemma distinct_videos_share_cache_key_witness :
  let url1 := js "https://youtu.be/dQw4w9WAaXc" in
  let url2 := js "https://youtu.be/dQw4w9WBBXc" in
  cache_key_of url1 = cache_key_of url2 ∧
  let w1 := (run sample_env empty_world (processVideoFromUrl url1)).1 in
  ∃ r, run failing_env w1 (processVideoFromUrl url2)
       = (logged (CacheGet (cache_key_of url2)) w1, Returned r) ∧
       url r = url1.
Proof.
  intros url1 url2.
  destruct (distinct_videos_share_cache_key (js "dQw4w9W") (js "Xc")
              eq_refl eq_refl) as (_ & _ & _ & Hkey & Hshare).
  split; [exact Hkey |]. intros w1.
  destruct (run sample_env empty_world (processVideoFromUrl url1))
    as [w1' [r | e | e]] eqn:Hrun; [| vm_compute in Hrun; discriminate..].
  exists r. split.
  - exact (Hshare sample_env failing_env empty_world _ r Hrun).
  - vm_compute in Hrun. by injection Hrun as _ <-.
Defined.

(** ** [parseSRT]: line feeds and cues *)

Lemma not_elem_of_rev (c : Z) (l : list Z) : c ∉ l → c ∉ rev l.
Proof.
  intros Hl Hin. apply Hl.
  by apply list_elem_of_In, in_rev, list_elem_of_In.
Qed.

Lemma split_line_feed_scan (cur s : list Z) :
  10 ∉ cur → Forall (λ piece, 10 ∉ piece) (JsString.split_scan [10] 0 cur s).
Proof.
  revert cur. induction s as [|c s IH]; intros cur Hcur;
    cbn [JsString.split_scan JsString.startsWith length Nat.sub].
  - constructor; [by apply not_elem_of_rev | constructor].
  - destruct (Z.eqb_spec 10 c) as [<- | Hne]; cbn [andb].
    + constructor; [by apply not_elem_of_rev |]. apply IH. apply not_elem_of_nil.
    + apply IH. by apply not_elem_of_cons.
Qed.

Lemma join_without (c : Z) (sep : list Z) (parts : list (list Z)) :
  c ∉ sep → Forall (λ piece, c ∉ piece) parts → c ∉ JsString.join sep parts.
Proof.
  intros Hsep. induction 1 as [|x parts Hx Hparts IH]; [apply not_elem_of_nil |].
  destruct parts as [|y rest]; [done |].
  rewrite join_cons by done. rewrite !not_elem_of_app. auto.
Qed.

Lemma parseSRT_without_line_feed (srtContent : list Z) :
  10 ∉ parseSRT srtContent.
Proof.
  unfold parseSRT. apply join_without; [compute_done |].
  apply Forall_forall. intros text (block & <- & _)%list_elem_of_In%in_map_iff.
  apply join_without; [compute_done |]. apply Forall_drop.
  change (js "\n") with [10]. apply split_line_feed_scan, not_elem_of_nil.
Qed.

(** X6. The text [parseSRT] returns has no line feed in it, whatever it
    was given: every line break of the input has become a space or has
    gone with a dropped line. *)
Theorem parseSRT_has_no_line_feed (srtContent : jsstring) :
  Forall (λ c, c ≠ 10) (parseSRT srtContent).
Proof.
  apply Forall_forall. intros c Hin ->.
  by apply (parseSRT_without_line_feed srtContent).
Qed.

Lemma srt_line_spec (line : list Z) :
  srt_line line = true →
  line ≠ [] ∧ (10 ∉ line) ∧ ∃ c rest, line = c :: rest ∧ c ≠ 10.
Proof.
  unfold srt_line, jsstring_eqb. intros [Hne Hall]%andb_prop.
  apply negb_true_iff, bool_decide_eq_false in Hne.
  assert (10 ∉ line) as Hno.
  { intros Hin. rewrite forallb_forall in Hall.
    apply list_elem_of_In, Hall in Hin. done. }
  split; [done |]. split; [done |].
  destruct line as [|c rest]; [done |]. exists c, rest. split; [done |].
  intros ->. apply Hno. by left.
Qed.

(** The scan walks over a stretch without line feed, one code unit at a
    time. *)
Lemma scan_stretch (sep l cur t : list Z) :
  10 ∉ l →
  JsString.split_scan (10 :: sep) 0 cur (l ++ t)
  = JsString.split_scan (10 :: sep) 0 (rev l ++ cur) t.
Proof.
  revert cur. induction l as [|c l IH]; intros cur Hl; [done |].
  apply not_elem_of_cons in Hl as [Hc Hl].
  cbn [app JsString.split_scan JsString.startsWith].
  destruct (Z.eqb_spec 10 c) as [? | _]; [done |]. cbn [andb].
  rewrite IH by done. cbn [rev]. by rewrite <- app_assoc.
Qed.

(** Splitting at line feeds undoes joining lines with them. *)
Lemma split_join_lines (ls : list (list Z)) (cur : list Z) :
  ls ≠ [] → Forall (λ l, 10 ∉ l) ls →
  JsString.split_scan [10] 0 cur (JsString.join [10] ls)
  = match ls with
    | [] => []
    | l :: rest => (rev cur ++ l) :: rest
    end.
Proof.
  intros Hne Hls. revert cur.
  induction Hls as [|l ls Hl Hls IH]; intros cur; [done |].
  destruct ls as [|l' rest].
  - cbn [JsString.join]. rewrite <- (app_nil_r l) at 1.
    rewrite scan_stretch by done. cbn.
    by rewrite rev_app_distr, rev_involutive.
  - rewrite join_cons by done. rewrite scan_stretch by done.
    cbn [app JsString.split_scan JsString.startsWith length].
    rewrite Z.eqb_refl. cbn [andb Nat.sub].
    rewrite IH by done. by rewrite rev_app_distr, rev_involutive.
Qed.

Lemma split_scan_step (sep cur s : list Z) (c : Z) :
  JsString.split_scan sep 0 cur (c :: s)
  = if JsString.startsWith sep (c :: s)
    then rev cur :: JsString.split_scan sep (length sep - 1) [] s
    else JsString.split_scan sep 0 (c :: cur) s.
Proof. reflexivity. Qed.

(** Inside a block the scan for a blank line finds none. *)
Lemma scan_block (ls : list (list Z)) (cur t : list Z) :
  ls ≠ [] → Forall (λ l, srt_line l = true) ls →
  JsString.split_scan [10; 10] 0 cur (JsString.join [10] ls ++ t)
  = JsString.split_scan [10; 10] 0 (rev (JsString.join [10] ls) ++ cur) t.
Proof.
  intros Hne Hls. revert cur.
  induction Hls as [|l ls Hl Hls IH]; intros cur; [done |].
  apply srt_line_spec in Hl as (_ & Hl & _).
  destruct ls as [|l' rest]; [by apply scan_stretch |].
  rewrite join_cons by done. rewrite <- !app_assoc.
  rewrite scan_stretch by done.
  pose proof (Forall_inv Hls) as (_ & _ & c & l'' & -> & Hc)%srt_line_spec.
  assert (∃ t', JsString.join [10] ((c :: l'') :: rest) ++ t = c :: t')
    as [t' Ht'].
  { destruct rest; cbn; by eexists. }
  specialize (IH ltac:(done)). rewrite Ht' in IH |- *.
  cbn [app]. rewrite split_scan_step. cbn [JsString.startsWith].
  rewrite Z.eqb_refl. destruct (Z.eqb_spec 10 c) as [? | _]; [done |].
  cbn [andb]. rewrite IH. f_equal.
  rewrite !rev_app_distr. cbn [rev]. by rewrite <- !app_assoc.
Qed.

Lemma cue_lines (c : Cue) :
  well_formed_cue c = true →
  Forall (λ l, srt_line l = true) (counter c :: timing c :: captions c).
Proof.
  intros [[Hc Ht]%andb_prop Hls]%andb_prop.
  repeat constructor; try done.
  apply Forall_forall. intros l Hin. rewrite forallb_forall in Hls.
  by apply Hls, list_elem_of_In.
Qed.

Lemma split_blocks (cues : list Cue) :
  cues ≠ [] → forallb well_formed_cue cues = true →
  JsString.split_scan [10; 10] 0 [] (srt_of cues) = cue_block <$> cues ∧
  JsString.split_scan [10; 10] 0 [] (srt_of cues ++ [10; 10])
  = (cue_block <$> cues) ++ [[]].
Proof.
  intros Hne Hall. induction cues as [|c cues IH]; [done |].
  apply andb_prop in Hall as [Hc Hall].
  pose proof (cue_lines c Hc) as Hlines.
  assert (∀ t, JsString.split_scan [10; 10] 0 [] (cue_block c ++ [10; 10] ++ t)
               = cue_block c :: JsString.split_scan [10; 10] 0 [] t) as Hstep.
  { intros t. unfold cue_block. change (js "\n") with [10].
    rewrite scan_block by done. cbn.
    by rewrite app_nil_r, rev_involutive. }
  assert (JsString.split_scan [10; 10] 0 [] (cue_block c) = [cue_block c])
    as Hlast.
  { rewrite <- (app_nil_r (cue_block c)) at 1.
    unfold cue_block. change (js "\n") with [10].
    rewrite scan_block by done. cbn.
    by rewrite app_nil_r, rev_involutive. }
  unfold srt_of in *. change (js "\n\n") with [10; 10] in *.
  destruct cues as [|c' cues].
  - cbn [fmap list_fmap JsString.join]. split; [exact Hlast |].
    rewrite <- (app_nil_r [10; 10]). by rewrite Hstep.
  - destruct (IH ltac:(done) Hall) as [IH1 IH2].
    rewrite fmap_cons, join_cons by done.
    rewrite <- !app_assoc. by rewrite !Hstep, IH1, IH2.
Qed.

Lemma parseSRT_block (c : Cue) :
  well_formed_cue c = true →
  JsString.join (js " ") (drop 2 (JsString.split (js "\n") (cue_block c)))
  = JsString.join (js " ") (captions c).
Proof.
  intros Hc. unfold cue_block. change (js "\n") with [10].
  unfold JsString.split. rewrite split_join_lines; [done | done |].
  eapply Forall_impl; [by apply cue_lines |].
  by intros l (_ & Hl & _)%srt_line_spec.
Qed.

Lemma join_snoc_empty (sep : list Z) (parts : list (list Z)) :
  parts ≠ [] → JsString.join sep (parts ++ [[]]) = JsString.join sep parts ++ sep.
Proof.
  induction parts as [|x parts IH]; [done |]. intros _.
  destruct parts as [|y rest].
  - cbn. by rewrite app_nil_r.
  - change ((x :: y :: rest) ++ [[]]) with (x :: ((y :: rest) ++ [[]])).
    rewrite (join_cons sep x) by done. rewrite (join_cons sep x) by done.
    rewrite IH by done. by rewrite <- !app_assoc.
Qed.

Lemma split_blank_line (s : list Z) :
  JsString.split (js "\n\n") s = JsString.split_scan [10; 10] 0 [] s.
Proof. reflexivity. Qed.

Lemma map_fmap {A B} (f : A → B) (l : list A) : map f l = f <$> l.
Proof. reflexivity. Qed.

(** X7. For a file of well-formed cues, a blank line between two of
    them, [parseSRT] gives the text lines of all cues, in order, with a
    single space between two lines and between two cues; counters and
    timings are gone.  With a blank line after the last cue, as files
    usually end, the text ends with one more space. *)
Theorem parseSRT_cues (cues : list Cue) :
  forallb well_formed_cue cues = true →
  let text :=
    JsString.join (js " ")
      ((λ c, JsString.join (js " ") (captions c)) <$> cues) in
  parseSRT (srt_of cues) = text ∧
  parseSRT (srt_of cues ++ js "\n\n") = text ++ js " ".
Proof.
  intros Hall text. destruct cues as [|c cues]; [by vm_compute |].
  destruct (split_blocks (c :: cues) ltac:(done) Hall) as [Hs1 Hs2].
  assert ((λ block, JsString.join (js " ")
                      (drop 2 (JsString.split (js "\n") block)))
            <$> (cue_block <$> c :: cues)
          = (λ c, JsString.join (js " ") (captions c)) <$> c :: cues) as Hmap.
  { rewrite <- list_fmap_compose. apply list_fmap_ext.
    intros i c' Hc'. cbn. apply parseSRT_block.
    rewrite forallb_forall in Hall. apply Hall, list_elem_of_In.
    by eapply list_elem_of_lookup_2. }
  unfold parseSRT. rewrite !map_fmap, !split_blank_line.
  change (js "\n\n") with [10; 10]. split.
  - by rewrite Hs1, Hmap.
  - rewrite Hs2, fmap_app, Hmap. by rewrite join_snoc_empty.
Qed.

Lemma parseSRT_cues_witness :
  parseSRT (js "7\n00:01 --> 00:02\nfirst\nsecond\n\n8\n00:03 --> 00:04\nthird\n\n")
  = js "first second third ".
Proof.
  refine (proj2 (parseSRT_cues
            [{| counter := js "7"; timing := js "00:01 --> 00:02";
                captions := [js "first"; js "second"] |};
             {| counter := js "8"; timing := js "00:03 --> 00:04";
                captions := [js "third"] |}] _)).
  vm_compute. reflexivity.
Defined.

(** ** [parseCaption]: payloads that do not parse *)

Lemma filter_segs_throws (items : list jsvalue) (event : jsvalue) :
  event ∈ items → JsValue.get (js "segs") event = None →
  filter_segs items = None.
Proof.
  intros Hin Hget. induction items as [|x items IH];
    [by apply elem_of_nil in Hin |].
  cbn [filter_segs]. apply elem_of_cons in Hin as [<- | Hin].
  - by rewrite Hget.
  - destruct (JsValue.get (js "segs") x); [| done]. cbn. by rewrite IH.
Qed.

Lemma filter_segs_keeps (items kept : list jsvalue) (event segs : jsvalue) :
  filter_segs items = Some kept → event ∈ items →
  JsValue.get (js "segs") event = Some segs → JsValue.truthy segs = true →
  event ∈ kept.
Proof.
  intros Hk Hin Hget Htruthy. revert kept Hk.
  induction items as [|x items IH]; intros kept Hk;
    [by apply elem_of_nil in Hin |].
  cbn [filter_segs] in Hk.
  destruct (JsValue.get (js "segs") x) as [sx|] eqn:Hx; [| done].
  destruct (filter_segs items) as [kept'|]; [| done].
  cbn in Hk. injection Hk as <-.
  apply elem_of_cons in Hin as [-> | Hin].
  - rewrite Hget in Hx. injection Hx as <-. rewrite Htruthy. by left.
  - specialize (IH Hin kept' eq_refl).
    destruct (JsValue.truthy sx); [by right | done].
Qed.

Lemma event_text_throws (event : jsvalue) :
  malformed_segs event → event_text event = None.
Proof.
  intros (segs & Hget & _ & Hbad). unfold event_text. rewrite Hget. cbn.
  destruct Hbad as [-> | (items & -> & Hitems)]; [done |]. cbn.
  rewrite (mapM_None_2 (JsValue.get (js "utf8")) items); [done |].
  apply Exists_exists. destruct Hitems as [Hin | Hin]; eauto.
Qed.

(** X8. A caption text that parses, but whose [events] is falsy, or is
    no array, or holds a [null] or [undefined] event, or an event whose
    segments are no array or hold a [null] or [undefined] segment, makes
    [parseCaption] return ["Error: Unable to parse captions"]: the
    exception of the property read or of the array method is caught. *)
Theorem parseCaption_malformed_events `{Host} (captionContent : jsstring)
    (v events : jsvalue) :
  JSON_parse captionContent = Some v →
  JsValue.get (js "events") v = Some events →
  malformed_events events →
  parseCaption captionContent = js "Error: Unable to parse captions".
Proof.
  intros Hv Hev Hbad. unfold parseCaption, parseCaption_try.
  rewrite Hv. cbn -[JsValue.get]. rewrite Hev. cbn.
  destruct Hbad as [Hf | [Hna | (items & -> & Hitems)]].
  - by rewrite Hf.
  - destruct (JsValue.truthy events); [| done]. by rewrite Hna.
  - cbn. destruct Hitems as [Hnull | [Hundef | (event & Hin & Hmal)]].
    + by rewrite (filter_segs_throws items JNull).
    + by rewrite (filter_segs_throws items JUndefined).
    + destruct (filter_segs items) as [kept|] eqn:Hk; [| done]. cbn.
      destruct Hmal as (segs & Hget & Htruthy & Hshape).
      pose proof (filter_segs_keeps _ _ _ _ Hk Hin Hget Htruthy) as Hkept.
      rewrite (mapM_None_2 event_text kept); [done |].
      apply Exists_exists. exists event. split; [done |].
      apply event_text_throws. by exists segs.
Qed.

Lemma parseCaption_malformed_events_witness :
  @parseCaption malformed_host (js "{events:[{segs:[{utf8:a}]},{segs:b}]}")
  = js "Error: Unable to parse captions".
Proof.
  eapply (@parseCaption_malformed_events malformed_host);
    [reflexivity | reflexivity |].
  right. right. eexists. split; [reflexivity |]. right. right.
  exists (JObj [(js "segs", JStr (js "b"))]).
  split; [apply list_elem_of_further, list_elem_of_here |].
  exists (JStr (js "b")). split; [reflexivity |]. split; [reflexivity |].
  by left.
Defined.

(** ** [fetchVideoInfo] *)

Lemma run_youtubeDl_dump (env : Env) (url : list Z) (w : World) :
  run env w (Ext.youtubeDl url DumpJson)
  = (logged (YoutubeDl url DumpJson) w,
     as_outcome (env_youtubeDl env w url DumpJson).1).
Proof.
  unfold Ext.youtubeDl. simpl.
  by destruct (env_youtubeDl env w url DumpJson) as [[info | e] data].
Qed.

Lemma run_metadata `{Host} (env : Env) (url : list Z) (w : World) :
  run env w
    (Proc.try_catch (Ext.youtubeDl url DumpJson)
       (λ _, Throw (Error (js "Failed to fetch video information"))))
  = (logged (YoutubeDl url DumpJson) w,
     match (env_youtubeDl env w url DumpJson).1 with
     | Ok info => Returned info
     | Err _ => Thrown (Error (js "Failed to fetch video information"))
     end).
Proof.
  rewrite run_try_catch, run_youtubeDl_dump.
  by destruct (env_youtubeDl env w url DumpJson).1.
Qed.

(** X9. For a direct [.mp4] link that [fetch] answers with [ok],
    [fetchVideoInfo] makes that one call and returns a title, the base
    name of the URL, with an empty description and channel.  In every
    other case (no direct link, a [fetch] that throws, an answer that is
    not [ok]) it asks [youtubeDl] for the metadata and returns what it
    gets, and whatever [youtubeDl] throws is replaced by the error
    ["Failed to fetch video information"]. *)
Theorem fetchVideoInfo_outcomes `{Host} (env : Env) (url : jsstring)
    (w : World) :
  let w1 := if is_mp4 url then logged (HttpFetch (JStr url)) w else w in
  run env w (fetchVideoInfo url)
  = if fetched_directly env w url then (w1, Returned (direct_info url))
    else (logged (YoutubeDl url DumpJson) w1,
          match (env_youtubeDl env w1 url DumpJson).1 with
          | Ok info => Returned info
          | Err _ => Thrown (Error (js "Failed to fetch video information"))
          end).
Proof.
  unfold fetchVideoInfo, fetched_directly.
  destruct (is_mp4 url); cbn [andb]; cbv zeta.
  - rewrite run_bind, run_try_catch, run_bind, run_fetch.
    destruct (env_fetch env w (JStr url)) as [response | e];
      cbn [as_outcome run].
    + destruct (ok response); cbn [run]; [reflexivity | apply run_metadata].
    + apply run_metadata.
  - rewrite run_bind. cbn [run]. apply run_metadata.
Qed.

(** ** The two track downloads *)

(** X10. A response that is not [ok] stops [downloadCaption], which
    throws ["Failed to download caption: "] followed by the status text
    and does not read the body; [downloadSRT] does not look at the status
    and reads and returns the body of that same response. *)
Theorem status_is_checked_for_captions_only `{Host} (env : Env)
    (target : jsvalue) (w : World) (response : Response) :
  env_fetch env w target = Ok response →
  ok response = false →
  let w1 := logged (HttpFetch target) w in
  run env w (downloadCaption target)
  = (w1, Thrown (Error (js "Failed to download caption: "
                        ++ statusText response))) ∧
  run env w (downloadSRT target)
  = (logged (ResponseText response) w1, as_outcome (env_text env w1 response)).
Proof.
  intros Hf Hok w1. unfold downloadCaption, downloadSRT.
  rewrite !run_bind, run_fetch, Hf. cbn [as_outcome]. rewrite Hok.
  split; [reflexivity |]. apply run_responseText.
Qed.

Lemma status_is_checked_for_captions_only_witness :
  let env := {|
    env_fetch := λ _ _, Ok {| ok := false; statusText := js "Not Found"; body := 4 |};
    env_text := λ _ _, Ok (js "<html>404</html>");
    env_bytes := env_bytes sample_env;
    env_youtubeDl := env_youtubeDl sample_env;
    env_ffmpeg := env_ffmpeg sample_env;
    env_service := env_service sample_env;
    env_transcribe := env_transcribe sample_env |} in
  (run env empty_world (downloadCaption (JStr (js "https://subs.example/en")))).2
  = Thrown (Error (js "Failed to download caption: Not Found")) ∧
  (run env empty_world (downloadSRT (JStr (js "https://subs.example/en")))).2
  = Returned (js "<html>404</html>").
Proof.
  intros env.
  destruct (status_is_checked_for_captions_only env
              (JStr (js "https://subs.example/en")) empty_world
              {| ok := false; statusText := js "Not Found"; body := 4 |}
              eq_refl eq_refl) as [-> ->].
  split; reflexivity.
Defined.

(** ** [getTranscript]: the states after the manual subtitles *)

Lemma run_rethrow {A} (env : Env) (p : proc A) (w : World) :
  run env w (Proc.try_catch p (λ error, Throw error)) = run env w p.
Proof.
  rewrite run_try_catch. by destruct (run env w p) as [w' [a | e | e]].
Qed.

Lemma js_and_falsy (a : jsvalue) (b : proc jsvalue) :
  JsValue.truthy a = false → js_and a b = Ret a.
Proof. unfold js_and. by intros ->. Qed.

Lemma bind_Ret {A B} (x : A) (f : A → proc B) : Ret x ≫= f = f x.
Proof. reflexivity. Qed.

(** With no English track, [videoInfo[field] && videoInfo[field].en] is
    read without a TypeError and is falsy: the method goes on to its next
    state. *)
Ltac skip_track Hno :=
  let tracks := fresh "tracks" in
  let Hget := fresh "Hget" in
  let Htracks := fresh "Htracks" in
  let en := fresh "en" in
  let Hen := fresh "Hen" in
  let Hfalsy := fresh "Hfalsy" in
  destruct Hno as (tracks & Hget & Hno);
  rewrite Hget, bind_read_Some;
  destruct (JsValue.truthy tracks) eqn:Htracks;
  [ destruct Hno as [Hno | (en & Hen & Hfalsy)]; [congruence |];
    rewrite (js_and_truthy tracks) by exact Htracks;
    rewrite Hen, bind_read_Some, Hfalsy
  | clear Hno; rewrite (js_and_falsy tracks) by exact Htracks;
    rewrite bind_Ret, Htracks ].

(** X11. When [videoInfo] has no English manual subtitles but has an
    English automatic-caption track, [getTranscript] fetches the caption
    URL: it throws what [fetch] threw, or ["Failed to download caption:
    ..."] for an answer that is not [ok], and otherwise reads the body and
    returns [parseCaption] of it.  No other call is made. *)
Theorem automatic_captions_second `{Host} (env : Env) (url : jsstring)
    (videoInfo target : jsvalue) (w : World) :
  no_english_track (js "subtitles") videoInfo →
  english_track (js "automatic_captions") videoInfo target →
  let w1 := logged (HttpFetch target) w in
  run env w (getTranscript url videoInfo)
  = match env_fetch env w target with
    | Err e => (w1, Thrown e)
    | Ok response =>
        if ok response then
          (logged (ResponseText response) w1,
           match env_text env w1 response with
           | Ok captionContent => Returned (parseCaption captionContent)
           | Err e => Thrown e
           end)
        else
          (w1, Thrown (Error (js "Failed to download caption: "
                              ++ statusText response)))
    end.
Proof.
  intros Hmanual (props & langs & tprops & rest & Hinfo & Hcap & Htrack & ->) w1.
  unfold getTranscript. rewrite run_rethrow. skip_track Hmanual.
  all: subst videoInfo; cbn [JsValue.get]; rewrite Hcap.
  all: cbn [from_option Datatypes.id]; rewrite bind_read_Some.
  all: rewrite (js_and_truthy (JObj langs)) by reflexivity.
  all: cbn [JsValue.get]; rewrite Htrack.
  all: cbn [from_option Datatypes.id]; rewrite bind_read_Some.
  all: cbn [JsValue.truthy JsValue.first head from_option Datatypes.id].
  all: rewrite bind_read_Some; cbn [JsValue.get]; rewrite bind_read_Some.
  all: rewrite run_bind; unfold downloadCaption; rewrite run_bind, run_fetch.
  all: fold w1.
  all: destruct (env_fetch env w _) as [response | e]; cbn [as_outcome run];
    [| reflexivity].
  all: destruct (ok response); cbn [negb]; [| reflexivity].
  all: rewrite run_responseText.
  all: by destruct (env_text env w1 response) as [text | e].
Qed.

Lemma automatic_captions_second_witness :
  let videoInfo :=
    JObj [(js "subtitles", JObj []);
          (js "automatic_captions",
           JObj [(js "en",
                  JArr [JObj [(js "url", JStr (js "https://subs.example/auto.json3"))]])])] in
  let env := {|
    env_fetch := env_fetch sample_env;
    env_text := λ _ _, Ok sample_caption_text;
    env_bytes := env_bytes sample_env;
    env_youtubeDl := env_youtubeDl sample_env;
    env_ffmpeg := env_ffmpeg sample_env;
    env_service := env_service sample_env;
    env_transcribe := env_transcribe sample_env |} in
  (run env empty_world (getTranscript (js "https://youtu.be/TTTT") videoInfo)).2
  = Returned (js "Hello big\nworld!").
Proof.
  intros videoInfo env.
  rewrite (automatic_captions_second env (js "https://youtu.be/TTTT")
             videoInfo (JStr (js "https://subs.example/auto.json3"))
             empty_world).
  - vm_compute. reflexivity.
  - exists (JObj []). split; [reflexivity |]. right.
    exists JUndefined. split; reflexivity.
  - eexists _, _, _, _. split; [reflexivity |].
    split; [vm_compute; reflexivity |]. split; vm_compute; reflexivity.
Defined.

(** X12. With no English track of either kind, a [videoInfo] whose
    categories include ["Music"] makes [getTranscript] return
    ["No lyrics available."] at once: no call is made, nothing is
    downloaded or transcribed. *)
Theorem music_video_has_no_lyrics `{Host} (env : Env) (url : jsstring)
    (videoInfo : jsvalue) (w : World) :
  no_english_track (js "subtitles") videoInfo →
  no_english_track (js "automatic_captions") videoInfo →
  music_video videoInfo →
  run env w (getTranscript url videoInfo)
  = (w, Returned (js "No lyrics available.")).
Proof.
  intros Hmanual Hauto (categories & Hcat & Htruthy & Hmusic).
  unfold getTranscript. rewrite run_rethrow.
  skip_track Hmanual; skip_track Hauto.
  all: by rewrite Hcat, bind_read_Some, Htruthy, Hmusic, bind_read_Some.
Qed.

Lemma music_video_has_no_lyrics_witness :
  run failing_env empty_world
    (getTranscript (js "https://youtu.be/MMMM") sample_music_info)
  = (empty_world, Returned (js "No lyrics available.")).
Proof.
  apply music_video_has_no_lyrics.
  - exists JUndefined. split; [reflexivity | by left].
  - exists JUndefined. split; [reflexivity | by left].
  - eexists. split; [reflexivity |]. split; reflexivity.
Defined.

(** X13. With no English track of either kind and no ["Music"] among
    the categories, [getTranscript] is [transcribeAudio]: it does what
    that does and ends as that ends. *)
Theorem transcription_is_the_last_resort `{Host} (env : Env)
    (url : jsstring) (videoInfo : jsvalue) (w : World) :
  no_english_track (js "subtitles") videoInfo →
  no_english_track (js "automatic_captions") videoInfo →
  no_music_video videoInfo →
  run env w (getTranscript url videoInfo) = run env w (transcribeAudio url).
Proof.
  intros Hmanual Hauto (categories & Hcat & Hno).
  unfold getTranscript. rewrite run_rethrow.
  skip_track Hmanual; skip_track Hauto.
  all: rewrite Hcat, bind_read_Some.
  all: destruct (JsValue.truthy categories) eqn:Htruthy; [| reflexivity].
  all: destruct Hno as [? | Hmusic]; [done |].
  all: by rewrite Hmusic, bind_read_Some.
Qed.

Lemma transcription_is_the_last_resort_witness :
  (run sample_env empty_world
     (getTranscript (js "https://youtu.be/TTTT")
        (JObj [(js "title", JStr (js "A talk"));
               (js "categories", JArr [JStr (js "Education")])]))).2
  = Returned (js "spoken words").
Proof.
  rewrite transcription_is_the_last_resort.
  - vm_compute. reflexivity.
  - exists JUndefined. split; [reflexivity | by left].
  - exists JUndefined. split; [reflexivity | by left].
  - eexists. split; [reflexivity |]. right. reflexivity.
Defined.

(** X14. An English track list with nothing in it is still truthy, so
    [getTranscript] reads the URL of its first element, which is
    [undefined]: it throws a TypeError, and makes no call.  This holds
    for an empty manual list, and for an empty automatic list when there
    are no manual subtitles. *)
Theorem empty_track_list_throws `{Host} (env : Env) (url : jsstring)
    (videoInfo : jsvalue) (w : World) :
  empty_english_track (js "subtitles") videoInfo ∨
  (no_english_track (js "subtitles") videoInfo ∧
   empty_english_track (js "automatic_captions") videoInfo) →
  run env w (getTranscript url videoInfo) = (w, Thrown TypeError).
Proof.
  intros [(props & langs & -> & Htracks & Hen)
         | [Hmanual (props & langs & -> & Htracks & Hen)]].
  - unfold getTranscript. rewrite run_rethrow.
    cbn [JsValue.get]. rewrite Htracks. cbn [from_option Datatypes.id].
    rewrite bind_read_Some.
    rewrite (js_and_truthy (JObj langs)) by reflexivity.
    cbn [JsValue.get]. rewrite Hen. cbn [from_option Datatypes.id].
    by rewrite bind_read_Some.
  - unfold getTranscript. rewrite run_rethrow. skip_track Hmanual.
    all: cbn [JsValue.get]; rewrite Htracks.
    all: cbn [from_option Datatypes.id]; rewrite bind_read_Some.
    all: rewrite (js_and_truthy (JObj langs)) by reflexivity.
    all: cbn [JsValue.get]; rewrite Hen; cbn [from_option Datatypes.id].
    all: by rewrite bind_read_Some.
Qed.

Lemma empty_track_list_throws_witness :
  run sample_env empty_world
    (getTranscript (js "https://youtu.be/TTTT")
       (JObj [(js "subtitles", JObj [(js "en", JArr [])])]))
  = (empty_world, Thrown TypeError).
Proof.
  apply empty_track_list_throws. left.
  eexists _, _. split; [reflexivity |]. split; reflexivity.
Defined.

(** ** [transcribeAudio] *)

Lemma run_existsSync (env : Env) (path : list Z) (w : World) :
  run env w (Ext.existsSync path)
  = (logged (ExistsSync path) w,
     Returned (bool_decide (is_Some (files w !! path)))).
Proof. reflexivity. Qed.

Lemma run_readFileSync (env : Env) (path : list Z) (w : World) :
  run env w (Ext.readFileSync path)
  = (logged (ReadFileSync path) w,
     match files w !! path with
     | Some data => Returned data
     | None => Thrown ENOENT
     end).
Proof.
  unfold Ext.readFileSync. simpl. by destruct (files w !! path).
Qed.

Lemma run_getService (env : Env) (name : list Z) (w : World) :
  run env w (Ext.getService name)
  = (logged (GetService name) w, Returned (env_service env w name)).
Proof. reflexivity. Qed.

Lemma run_transcribe (env : Env) (audio : list Z) (w : World) :
  run env w (Ext.transcribe audio)
  = (logged (Transcribe audio) w, as_outcome (env_transcribe env w audio)).
Proof.
  unfold Ext.transcribe. simpl. by destruct (env_transcribe env w audio).
Qed.

Lemma run_convertMp4ToMp3 `{Host} (env : Env) (input output : list Z)
    (w : World) :
  run env w (convertMp4ToMp3 input output)
  = (written output (env_ffmpeg env w input output).2
       (logged (Ffmpeg input output) w),
     as_outcome (env_ffmpeg env w input output).1).
Proof.
  unfold convertMp4ToMp3. simpl.
  by destruct (env_ffmpeg env w input output) as [[[] | e] data].
Qed.

(** From the read of the audio file on. *)
Lemma run_transcription `{Host} (env : Env) (path audio : list Z) (w : World) :
  files w !! path = Some audio →
  let w1 := logged (ReadFileSync path) w in
  let w2 := logged (GetService (js "TRANSCRIPTION")) w1 in
  run env w
    (audioBuffer ← Ext.readFileSync path;
     transcriptionService ← Ext.getService (js "TRANSCRIPTION");
     if negb transcriptionService then
       Throw (Error (js "Transcription service not found"))
     else
       transcript ← Ext.transcribe audioBuffer;
       Ret (match transcript with
            | Some t => if JsValue.truthy (JStr t) then t
                        else js "Transcription failed"
            | None => js "Transcription failed"
            end))
  = if env_service env w1 (js "TRANSCRIPTION") then
      (logged (Transcribe audio) w2,
       match env_transcribe env w2 audio with
       | Ok (Some (c :: t)) => Returned (c :: t)
       | Ok _ => Returned (js "Transcription failed")
       | Err e => Thrown e
       end)
    else (w2, Thrown (Error (js "Transcription service not found"))).
Proof.
  intros Hfile w1 w2.
  rewrite run_bind, run_readFileSync, Hfile.
  rewrite run_bind, run_getService. fold w1 w2.
  destruct (env_service env w1 (js "TRANSCRIPTION")); cbn [negb];
    [| reflexivity].
  rewrite run_bind, run_transcribe.
  by destruct (env_transcribe env w2 audio) as [[[|c t] |] | e].
Qed.

(** X15. When the audio of the URL is already in the data directory,
    [transcribeAudio] neither downloads nor converts: it checks for the
    file, reads it, asks for the transcription service and hands it the
    audio.  Without the service it throws ["Transcription service not
    found"]; a transcript that is empty or missing is replaced by
    ["Transcription failed"]. *)
Theorem cached_audio_is_transcribed `{Host} (env : Env) (url : jsstring)
    (w : World) (audio : list Z) :
  let mp3FilePath := path_join dataDir (getVideoId url ++ js ".mp3") in
  files w !! mp3FilePath = Some audio →
  let w1 := logged (ExistsSync mp3FilePath) w in
  let w2 := logged (ReadFileSync mp3FilePath) w1 in
  let w3 := logged (GetService (js "TRANSCRIPTION")) w2 in
  run env w (transcribeAudio url)
  = if env_service env w2 (js "TRANSCRIPTION") then
      (logged (Transcribe audio) w3,
       match env_transcribe env w3 audio with
       | Ok (Some (c :: t)) => Returned (c :: t)
       | Ok _ => Returned (js "Transcription failed")
       | Err e => Thrown e
       end)
    else (w3, Thrown (Error (js "Transcription service not found"))).
Proof.
  intros mp3FilePath Hfile w1 w2 w3. unfold transcribeAudio. cbv zeta.
  fold mp3FilePath. rewrite run_bind, run_existsSync, Hfile.
  rewrite bool_decide_eq_true_2 by (by eexists). cbn [negb].
  rewrite run_bind. cbn [run]. fold w1.
  by rewrite (run_transcription env mp3FilePath audio w1).
Qed.

Lemma cached_audio_is_transcribed_witness :
  let w := {| cache := ∅;
              files := {[ js "./content_cache/16vy8.mp3" := [73; 68; 51] ]};
              log := [] |} in
  calls_since w (run sample_env w (transcribeAudio (js "AAAA"))).1
  = [ExistsSync (js "./content_cache/16vy8.mp3");
     ReadFileSync (js "./content_cache/16vy8.mp3");
     GetService (js "TRANSCRIPTION"); Transcribe [73; 68; 51]] ∧
  (run sample_env w (transcribeAudio (js "AAAA"))).2
  = Returned (js "spoken words").
Proof.
  intros w.
  rewrite (cached_audio_is_transcribed sample_env (js "AAAA") w [73; 68; 51]).
  - split; vm_compute; reflexivity.
  - vm_compute. reflexivity.
Defined.

Lemma run_bind_Returned {A B} (env : Env) (p : proc A) (f : A → proc B)
    (w w' : World) (b : B) :
  run env w (p ≫= f) = (w', Returned b) →
  ∃ w1 a, run env w p = (w1, Returned a) ∧ run env w1 (f a) = (w', Returned b).
Proof.
  rewrite run_bind. destruct (run env w p) as [w1 [a | e | e]]; [| done..].
  intros Hf. by exists w1, a.
Qed.

(** X16. Whatever the outside world answers, a transcript that
    [transcribeAudio] returns is never the empty string. *)
Theorem transcript_is_never_empty `{Host} (env : Env) (url : jsstring)
    (w w' : World) (transcript : jsstring) :
  run env w (transcribeAudio url) = (w', Returned transcript) →
  transcript ≠ [].
Proof.
  unfold transcribeAudio. cbv zeta. intros Hrun.
  apply run_bind_Returned in Hrun as (w1 & has_mp3 & _ & Hrun).
  apply run_bind_Returned in Hrun as (w2 & [] & _ & Hrun).
  apply run_bind_Returned in Hrun as (w3 & audioBuffer & _ & Hrun).
  apply run_bind_Returned in Hrun as (w4 & service & _ & Hrun).
  destruct service; cbn [negb] in Hrun; [| done].
  apply run_bind_Returned in Hrun as (w5 & answer & _ & Hrun).
  cbn [run] in Hrun. injection Hrun as _ <-.
  destruct answer as [[|c t] |]; done.
Qed.

Lemma transcript_is_never_empty_witness :
  let env := {|
    env_fetch := env_fetch sample_env;
    env_text := env_text sample_env;
    env_bytes := env_bytes sample_env;
    env_youtubeDl := env_youtubeDl sample_env;
    env_ffmpeg := env_ffmpeg sample_env;
    env_service := env_service sample_env;
    env_transcribe := λ _ _, Ok (Some []) |} in
  (run env empty_world (transcribeAudio (js "https://youtu.be/TTTT"))).2
  = Returned (js "Transcription failed") ∧
  js "Transcription failed" ≠ [].
Proof.
  intros env.
  assert ((run env empty_world (transcribeAudio (js "https://youtu.be/TTTT"))).2
          = Returned (js "Transcription failed")) as Hout
    by (vm_compute; reflexivity).
  split; [exact Hout |].
  destruct (run env empty_world (transcribeAudio (js "https://youtu.be/TTTT")))
    as [w' out] eqn:Hrun.
  cbn [snd] in Hout. subst out.
  exact (transcript_is_never_empty env _ _ _ _ Hrun).
Defined.

Lemma transcribeAudio_converts `{Host} (env : Env) (url : jsstring)
    (w : World) (video : list Z) :
  let mp4FilePath := path_join dataDir (getVideoId url ++ js ".mp4") in
  let mp3FilePath := path_join dataDir (getVideoId url ++ js ".mp3") in
  files w !! mp3FilePath = None →
  files w !! mp4FilePath = Some video →
  let w2 := logged (ExistsSync mp4FilePath) (logged (ExistsSync mp3FilePath) w) in
  let calls := calls_since w (run env w (transcribeAudio url)).1 in
  take 3 calls
  = [ExistsSync mp3FilePath; ExistsSync mp4FilePath;
     Ffmpeg mp4FilePath mp3FilePath] ∧
  (∃ audio,
     calls `prefix_of`
       [ExistsSync mp3FilePath; ExistsSync mp4FilePath;
        Ffmpeg mp4FilePath mp3FilePath; ReadFileSync mp3FilePath;
        GetService (js "TRANSCRIPTION"); Transcribe audio]) ∧
  ∀ e, (env_ffmpeg env w2 mp4FilePath mp3FilePath).1 = Err e →
       (run env w (transcribeAudio url)).2 = Thrown e.
Proof.
  intros mp4FilePath mp3FilePath Hmp3 Hmp4 w2 calls.
  set (w3 := written mp3FilePath (env_ffmpeg env w2 mp4FilePath mp3FilePath).2
               (logged (Ffmpeg mp4FilePath mp3FilePath) w2)).
  pose (rest :=
          audioBuffer ← Ext.readFileSync mp3FilePath;
          transcriptionService ← Ext.getService (js "TRANSCRIPTION");
          if negb transcriptionService then
            Throw (Error (js "Transcription service not found"))
          else
            transcript ← Ext.transcribe audioBuffer;
            Ret (match transcript with
                 | Some t => if JsValue.truthy (JStr t) then t
                             else js "Transcription failed"
                 | None => js "Transcription failed"
                 end)).
  assert (log w3 = log w ++ [ExistsSync mp3FilePath; ExistsSync mp4FilePath;
                              Ffmpeg mp4FilePath mp3FilePath]) as Hlog.
  { unfold w3, w2. destruct (env_ffmpeg env _ _ _).2; cbn;
      by rewrite <- !app_assoc. }
  assert (run env w (transcribeAudio url)
          = match (env_ffmpeg env w2 mp4FilePath mp3FilePath).1 with
            | Err e => (w3, Thrown e)
            | Ok _ => run env w3 rest
            end) as Hrun.
  { unfold transcribeAudio. cbv zeta. fold mp3FilePath mp4FilePath.
    rewrite run_bind, run_existsSync, Hmp3.
    rewrite bool_decide_eq_false_2 by (by intros [? ?]). cbn [negb].
    rewrite run_bind, run_bind, run_existsSync. cbn [files logged].
    rewrite Hmp4. rewrite bool_decide_eq_true_2 by (by eexists).
    rewrite run_convertMp4ToMp3. fold w2 w3.
    by destruct (env_ffmpeg env w2 mp4FilePath mp3FilePath).1 as [[] | e]. }
  assert (∃ later audio,
            log (run env w3 rest).1 = log w3 ++ later ∧
            later `prefix_of`
              [ReadFileSync mp3FilePath; GetService (js "TRANSCRIPTION");
               Transcribe audio]) as (later & audio & Hlater & Hprefix).
  { unfold rest. destruct (files w3 !! mp3FilePath) as [audio|] eqn:Hfile.
    - rewrite (run_transcription env mp3FilePath audio w3 Hfile).
      destruct (env_service env _ _).
      + exists [ReadFileSync mp3FilePath; GetService (js "TRANSCRIPTION");
                Transcribe audio], audio.
        split; [cbn; by rewrite <- !app_assoc | done].
      + exists [ReadFileSync mp3FilePath; GetService (js "TRANSCRIPTION")],
          audio.
        split; [cbn; by rewrite <- !app_assoc |]. by eexists.
    - rewrite run_bind, run_readFileSync, Hfile.
      exists [ReadFileSync mp3FilePath], []. split; [done |]. by eexists. }
  unfold calls, calls_since. rewrite Hrun.
  destruct (env_ffmpeg env w2 mp4FilePath mp3FilePath).1 as [[] | e].
  - rewrite Hlater, Hlog, <- app_assoc, drop_app_length.
    split; [done |]. split; [| done].
    exists audio. destruct Hprefix as [k Hk]. exists k.
    by rewrite <- app_assoc, <- Hk.
  - cbn [fst snd]. rewrite Hlog, drop_app_length.
    split; [done |]. split; [| by intros e' [= <-]].
    exists []. by eexists.
Qed.

(** X17. When the data directory holds the video of the URL but not its
    audio, [transcribeAudio] downloads nothing: after the two checks it
    converts the video file, and goes on to read the audio, to ask for
    the service and to transcribe, as far as it gets.  An error of the
    conversion is thrown as it is. *)
Theorem downloaded_video_is_converted `{Host} (env : Env) (url : jsstring)
    (w : World) (video : list Z) :
  let mp4FilePath := path_join dataDir (getVideoId url ++ js ".mp4") in
  let mp3FilePath := path_join dataDir (getVideoId url ++ js ".mp3") in
  files w !! mp3FilePath = None →
  files w !! mp4FilePath = Some video →
  let w2 := logged (ExistsSync mp4FilePath) (logged (ExistsSync mp3FilePath) w) in
  let calls := calls_since w (run env w (transcribeAudio url)).1 in
  take 3 calls
  = [ExistsSync mp3FilePath; ExistsSync mp4FilePath;
     Ffmpeg mp4FilePath mp3FilePath] ∧
  (∃ audio,
     calls `prefix_of`
       [ExistsSync mp3FilePath; ExistsSync mp4FilePath;
        Ffmpeg mp4FilePath mp3FilePath; ReadFileSync mp3FilePath;
        GetService (js "TRANSCRIPTION"); Transcribe audio]) ∧
  ∀ e, (env_ffmpeg env w2 mp4FilePath mp3FilePath).1 = Err e →
       (run env w (transcribeAudio url)).2 = Thrown e.
Proof. apply transcribeAudio_converts. Qed.

Lemma downloaded_video_is_converted_witness :
  let w := {| cache := ∅;
              files := {[ js "./content_cache/16vy8.mp4" := [0; 0; 0; 24] ]};
              log := [] |} in
  take 3 (calls_since w (run ffmpeg_failing_env w (transcribeAudio (js "AAAA"))).1)
  = [ExistsSync (js "./content_cache/16vy8.mp3");
     ExistsSync (js "./content_cache/16vy8.mp4");
     Ffmpeg (js "./content_cache/16vy8.mp4") (js "./content_cache/16vy8.mp3")] ∧
  (run ffmpeg_failing_env w (transcribeAudio (js "AAAA"))).2
  = Thrown (Rejection 5).
Proof.
  intros w.
  destruct (downloaded_video_is_converted ffmpeg_failing_env (js "AAAA") w
              [0; 0; 0; 24]) as (Hcalls & _ & Herr).
  - vm_compute. reflexivity.
  - vm_compute. reflexivity.
  - split; [exact Hcalls |]. apply Herr. reflexivity.
Defined.

(** ** [downloadAudio] *)

(** X18. Run on its own, from its call to its end with no other
    activation of the service in between, [downloadAudio] ends in one of
    two ways, whatever the outside world answers: it returns the output
    path (the one given, or by default the [.mp3] of the URL's identifier
    in the data directory), or it throws the error ["Failed to download
    audio"], which stands for every failure of [fetch], of reading the
    body, of the conversion and of [youtubeDl].  Interleaved with other
    activations it can end a third way: for a direct [.mp4] link, when
    the temporary file is no longer there as the conversion ends (a twin
    invocation for the same URL, as the two of one [processVideo]
    submission are, has unlinked it), [unlinkSync] throws [ENOENT] inside
    the "end" handler, outside the [try], and the exception escapes. *)
Theorem downloadAudio_outcomes `{Host} (env : Env) (url : jsstring)
    (outputFile : option jsstring) (w : World) :
  let output :=
    default (path_join dataDir (getVideoId url ++ js ".mp3")) outputFile in
  let temp := path_join tmpdir (getVideoId url ++ js ".mp4") in
  let outcome := (run env w (downloadAudio url outputFile)).2 in
  (outcome = Returned output ∨
   outcome = Thrown (Error (js "Failed to download audio"))) ∧
  (∀ (w1 w2 w3 : World) (response : Response) (buffer : list Z)
     (data : option (list Z)),
     is_mp4 url = true →
     env_fetch env w1 (JStr url) = Ok response →
     env_bytes env w2 response = Ok buffer →
     env_ffmpeg env w3 temp output = (Ok tt, data) →
     output ≠ temp →
     files w3 !! temp = None →
     turns env [w1; w2; w3] (downloadAudio url outputFile) = Crash ENOENT).
Proof.
  intros output0 temp0. split.
  { subst output0 temp0.
  unfold downloadAudio. cbv zeta.
    set (output := default _ outputFile).
    set (temp := path_join tmpdir (getVideoId url ++ js ".mp4")).
    rewrite run_try_catch. destruct (is_mp4 url).
    - rewrite run_bind, run_fetch.
      destruct (env_fetch env w (JStr url)) as [response | e];
        cbn [as_outcome]; [| by right].
      rewrite run_bind, run_arrayBuffer.
      destruct (env_bytes env _ response) as [buffer | e];
        cbn [as_outcome]; [| by right].
      rewrite run_bind, run_writeFileSync, run_bind.
      cbn [run perform].
      destruct (env_ffmpeg env _ temp output) as [[[] | e] data];
        [| by right].
      cbn [run perform].
      match goal with
      | |- context [files ?w4 !! temp] =>
          assert (is_Some (files w4 !! temp)) as [kept Hkept]
      end.
      { destruct data as [d|]; cbn [written files with_files logged].
        - destruct (decide (output = temp)) as [-> | Hne].
          + rewrite lookup_insert_eq. by eexists.
          + rewrite lookup_insert_ne by done. rewrite lookup_insert_eq.
            by eexists.
        - rewrite lookup_insert_eq. by eexists. }
      rewrite Hkept. by left.
    - rewrite run_bind. unfold Ext.youtubeDl. cbn [Proc.call run perform].
      destruct (env_youtubeDl env w url (ExtractAudio output))
        as [[info | e] data]; [by left | by right]. }
  intros w1 w2 w3 response buffer data Hd Hf Hb Hff Hne Hgone.
  unfold downloadAudio. rewrite Hd. cbv zeta. fold output0 temp0.
  cbn [turns].
  unfold Ext.fetch, Ext.arrayBuffer, Ext.writeFileSync, Proc.call.
  cbn [Proc.try_catch Proc.bind mbind proc_bind resume perform settle
       is_sync fst snd].
  rewrite Hf.
  cbn [Proc.try_catch Proc.bind mbind proc_bind resume perform settle
       is_sync fst snd].
  rewrite Hb.
  cbn [Proc.try_catch Proc.bind mbind proc_bind resume perform settle
       is_sync fst snd].
  rewrite Hff.
  cbn [Proc.try_catch Proc.bind mbind proc_bind resume perform settle
       is_sync fst snd].
  assert (files (written output0 data (logged (Ffmpeg temp0 output0) w3))
            !! temp0 = None) as ->; [| reflexivity].
  destruct data as [d|]; cbn [written files with_files logged];
    [| exact Hgone].
  by rewrite lookup_insert_ne.
Qed.

Lemma downloadAudio_outcomes_witness :
  let outputFile := js "./content_cache/nvy6j0.mp3" in
  let twins :=
    exec sample_env
      [Submit sample_clip; Fire 0; Fire 1; Fire 0; Fire 1; Fire 0; Fire 1;
       Fire 0; Fire 1; Fire 0; Fire 1]
      (init empty_world) in
  turns sample_env [empty_world; empty_world; empty_world]
    (downloadAudio sample_clip (Some outputFile))
  = Crash ENOENT ∧
  invoked twins = [(ByDrain, sample_clip); (ByCaller 0, sample_clip)] ∧
  tasks twins !! 1%nat = Some (Caller 0 sample_clip (Crash ENOENT)) ∧
  halted twins = true ∧
  promises twins = ∅.
Proof.
  intros outputFile twins.
  destruct (downloadAudio_outcomes sample_env sample_clip (Some outputFile)
              empty_world) as [_ Hthird].
  split.
  - apply (Hthird empty_world empty_world empty_world
             {| ok := true; statusText := js "OK"; body := 1 |}
             [0; 0; 0; 24] (Some [73; 68; 51]));
      try reflexivity.
    compute_done.
  - split; [vm_compute; reflexivity |]. split; [vm_compute; reflexivity |].
    split; vm_compute; reflexivity.
Defined.

(** X19. For a direct [.mp4] link whose container is fetched and written
    to the temp directory, a conversion that ends in "end" makes
    [downloadAudio] unlink the temporary file, as its last call, and
    return the output path: the file is gone when the method returns. *)
Theorem successful_conversion_removes_temp_file `{Host} (env : Env)
    (url outputFile : jsstring) (w : World) (response : Response)
    (buffer : list Z) (data : option (list Z)) :
  let tempMp4File := path_join tmpdir (getVideoId url ++ js ".mp4") in
  let w1 := logged (HttpFetch (JStr url)) w in
  let w2 := logged (ResponseArrayBuffer response) w1 in
  let w3 := written tempMp4File (Some buffer)
              (logged (WriteFileSync tempMp4File buffer) w2) in
  let w4 := written outputFile data
              (logged (Ffmpeg tempMp4File outputFile) w3) in
  let w' := with_files (delete tempMp4File (files w4))
              (logged (UnlinkSync tempMp4File) w4) in
  is_mp4 url = true →
  env_fetch env w (JStr url) = Ok response →
  env_bytes env w1 response = Ok buffer →
  env_ffmpeg env w3 tempMp4File outputFile = (Ok tt, data) →
  outputFile ≠ tempMp4File →
  run env w (downloadAudio url (Some outputFile)) = (w', Returned outputFile) ∧
  files w' !! tempMp4File = None ∧
  calls_since w w'
  = [HttpFetch (JStr url); ResponseArrayBuffer response;
     WriteFileSync tempMp4File buffer; Ffmpeg tempMp4File outputFile;
     UnlinkSync tempMp4File].
Proof.
  intros tempMp4File w1 w2 w3 w4 w' Hd Hf Hb Hff Hne.
  assert (files w4 !! tempMp4File = Some buffer) as Hthere.
  { unfold w4, w3. destruct data; cbn [written files with_files logged].
    - rewrite lookup_insert_ne by done. apply lookup_insert_eq.
    - apply lookup_insert_eq. }
  split; [| split].
  - unfold downloadAudio. rewrite Hd. cbn [from_option Datatypes.id].
    erewrite run_try_catch_returned; [reflexivity |].
    rewrite (downloadAudio_until_ffmpeg env url outputFile w response buffer)
      by done.
    erewrite run_bind_returned; [reflexivity |].
    fold tempMp4File w1 w2 w3.
    cbn [run perform]. rewrite Hff. fold w4. cbn [run perform].
    by rewrite Hthere.
  - unfold w'. cbn [files with_files]. apply lookup_delete_eq.
  - unfold calls_since, w', w4, w3, w2, w1.
    destruct data; cbn; rewrite <- !app_assoc; by rewrite drop_app_length.
Qed.

Lemma successful_conversion_removes_temp_file_witness :
  let url := js "https://example.com/clip.mp4" in
  let outputFile := js "./content_cache/clip.mp3" in
  ∃ w', run sample_env empty_world (downloadAudio url (Some outputFile))
        = (w', Returned outputFile) ∧
        files w' !! js "/tmp/nvy6j0.mp4" = None ∧
        files w' !! outputFile = Some [73; 68; 51].
Proof.
  intros url outputFile.
  pose proof (successful_conversion_removes_temp_file sample_env url
                outputFile empty_world
                {| ok := true; statusText := js "OK"; body := 1 |}
                [0; 0; 0; 24] (Some [73; 68; 51])
                eq_refl eq_refl eq_refl eq_refl ltac:(compute_done))
    as (Hrun & Hgone & _).
  eexists. split; [exact Hrun |]. split; [exact Hgone |].
  vm_compute. reflexivity.
Defined.

(** ** What [processVideoFromUrl] does to the cache *)

Lemma perform_keeps_cache (env : Env) (o : op) (w : World) :
  match o with
  | CacheSet _ _ => False
  | _ => True
  end →
  cache (perform env o w).2 = cache w.
Proof.
  destruct o; cbn; try done.
  - by destruct (env_youtubeDl env w target options) as [answer [d|]], options.
  - by destruct (env_ffmpeg env w input output) as [answer [d|]].
  - by destruct (files w !! path).
  - by destruct (files w !! path).
Qed.

Lemma run_keeps_cache {A} (env : Env) (p : proc A) (w : World) :
  cache_free p → cache (run env w p).1 = cache w.
Proof.
  revert w. induction p as [a | e | e | o k IH]; intros w Hp; try done.
  destruct Hp as [Ho Hk]. cbn [run].
  pose proof (perform_keeps_cache env o w Ho) as Hw.
  destruct (perform env o w) as [r w1]. rewrite IH by done. exact Hw.
Qed.

Lemma cache_free_bind {A B} (p : proc A) (f : A → proc B) :
  cache_free p → (∀ a, cache_free (f a)) → cache_free (p ≫= f).
Proof.
  intros Hp Hf. induction p as [a | e | e | o k IH]; try done.
  - apply Hf.
  - destruct Hp as [Ho Hk]. split; [exact Ho |]. intros r. by apply IH.
Qed.

Lemma cache_free_try_catch {A} (p : proc A) (h : exn → proc A) :
  cache_free p → (∀ e, cache_free (h e)) → cache_free (Proc.try_catch p h).
Proof.
  intros Hp Hh. induction p as [a | e | e | o k IH]; try done.
  - apply Hh.
  - destruct Hp as [Ho Hk]. split; [exact Ho |]. intros r. by apply IH.
Qed.

Lemma cache_free_call (o : op) :
  match o with
  | CacheSet _ _ => False
  | _ => True
  end →
  cache_free (Proc.call o).
Proof. intros Ho. split; [exact Ho |]. by intros [x | e]. Qed.

Lemma cache_free_read {A} (x : option A) : cache_free (Proc.read x).
Proof. by destruct x. Qed.

Ltac cache_free_step :=
  first
    [ apply cache_free_bind; [| intros ?]
    | apply cache_free_try_catch; [| intros ?]
    | apply cache_free_call; exact I
    | apply cache_free_read
    | exact I
    | match goal with
      | |- cache_free (if ?b then _ else _) => destruct b
      | |- cache_free (match ?x with _ => _ end) => destruct x
      | |- cache_free (Call _ _) => split; [exact I | intros ?]
      end ].

Section CacheFree.
Context `{Host}.

Lemma fetchVideoInfo_cache_free (url : list Z) : cache_free (fetchVideoInfo url).
Proof.
  unfold fetchVideoInfo, Ext.fetch, Ext.youtubeDl. repeat cache_free_step.
Qed.

Lemma downloadAudio_cache_free (url : list Z) (outputFile : option (list Z)) :
  cache_free (downloadAudio url outputFile).
Proof.
  unfold downloadAudio, Ext.fetch, Ext.arrayBuffer, Ext.writeFileSync,
    Ext.youtubeDl.
  cbv zeta. repeat cache_free_step.
Qed.

Lemma transcribeAudio_cache_free (url : list Z) : cache_free (transcribeAudio url).
Proof.
  unfold transcribeAudio, convertMp4ToMp3, Ext.existsSync, Ext.readFileSync,
    Ext.getService, Ext.transcribe.
  cbv zeta.
  repeat first [exact (downloadAudio_cache_free _ _) | cache_free_step].
Qed.

Lemma getTranscript_cache_free (url : list Z) (videoInfo : jsvalue) :
  cache_free (getTranscript url videoInfo).
Proof.
  unfold getTranscript, js_and, downloadSRT, downloadCaption, Ext.fetch,
    Ext.responseText.
  repeat first [exact (transcribeAudio_cache_free url) | cache_free_step].
Qed.

End CacheFree.

(** X20. A resolve changes the cache at its own key only, and only when
    it returns: on a miss that ends well the record it returns is written
    under the key of the URL; when it throws, the cache is as it was, so
    nothing is remembered of a failure. *)
Theorem resolve_writes_one_cache_entry `{Host} (env : Env) (url : jsstring)
    (w : World) :
  let w' := (run env w (processVideoFromUrl url)).1 in
  match (run env w (processVideoFromUrl url)).2 with
  | Returned record => cache w' = <[cache_key_of url := record]> (cache w)
  | Thrown _ | Crashed _ => cache w' = cache w
  end.
Proof.
  cbv zeta. destruct (cache w !! cache_key_of url) as [r0|] eqn:Hc.
  { rewrite (cache_hit _ _ _ _ Hc). cbn. symmetry. by apply insert_id. }
  rewrite (cache_miss _ _ _ Hc).
  set (w0 := logged (CacheGet (cache_key_of url)) w).
  assert (cache w0 = cache w) as H0 by reflexivity.
  rewrite run_bind.
  pose proof (run_keeps_cache env (fetchVideoInfo url) w0
                (fetchVideoInfo_cache_free url)) as H2.
  destruct (run env w0 (fetchVideoInfo url)) as [w2 [info | e | e]];
    cbn [fst snd] in *; [| congruence..].
  rewrite run_bind.
  pose proof (run_keeps_cache env (getTranscript url info) w2
                (getTranscript_cache_free url info)) as H3.
  destruct (run env w2 (getTranscript url info)) as [w3 [tr | e | e]];
    cbn [fst snd] in *; [| congruence..].
  rewrite run_bind, run_read.
  destruct (JsValue.get (js "title") info) as [ti|]; [| cbn; congruence].
  rewrite run_bind, run_read.
  destruct (JsValue.get (js "channel") info) as [ch|]; [| cbn; congruence].
  rewrite run_bind, run_read.
  destruct (JsValue.get (js "description") info) as [de|]; [| cbn; congruence].
  rewrite run_bind, run_cacheSet. cbn. congruence.
Qed.

(** ** The queue: order, and one loop at a time *)

Lemma drained_snoc_drain (inv : list (origin * list Z)) (u : list Z) :
  drained (inv ++ [(ByDrain, u)]) = drained inv ++ [u].
Proof. unfold drained. by rewrite omap_app. Qed.

Lemma drained_snoc_caller (inv : list (origin * list Z)) (id : nat)
    (u : list Z) :
  drained (inv ++ [(ByCaller id, u)]) = drained inv.
Proof. unfold drained. rewrite omap_app. cbn. by rewrite app_nil_r. Qed.

Section Fifo.
Context `{Host}.
Variable env : Env.

Lemma fifo_drain_turn (m : Machine) : fifo m → fifo (drain_turn env m).1.
Proof.
  unfold fifo, drain_turn. destruct (queue m) as [|u rest] eqn:Hq.
  - cbn. by rewrite Hq.
  - rewrite invoke_spec. cbn. intros ->.
    by rewrite drained_snoc_drain, <- app_assoc.
Qed.

Lemma fifo_processQueue (m : Machine) : fifo m → fifo (processQueue env m).
Proof.
  intros Hm. unfold processQueue.
  destruct (processing m || bool_decide (queue m = [])); [done |].
  pose proof (fifo_drain_turn (set_processing true m) Hm) as Hm'.
  by destruct (drain_turn env (set_processing true m)) as [m' t].
Qed.

Lemma fifo_checkQueue (id : nat) (u : list Z) (m : Machine) :
  fifo m → fifo (checkQueue env id u m).1.
Proof.
  intros Hm. destruct (decide (u ∈ queue m)) as [Hin | Hout].
  - by rewrite checkQueue_queued.
  - rewrite checkQueue_gone by done. unfold fifo in *. cbn.
    by rewrite drained_snoc_caller.
Qed.

Lemma fifo_processVideo (u : list Z) (m : Machine) :
  fifo m → fifo (processVideo env u m).
Proof.
  intros Hm. unfold processVideo.
  set (m1 := set_submitted _ _).
  assert (fifo m1) as Hm1.
  { unfold fifo in *. cbn. by rewrite Hm, <- app_assoc. }
  pose proof (fifo_checkQueue (length (submitted m)) u _
                (fifo_processQueue m1 Hm1)) as Hc.
  by destruct (checkQueue env _ u (processQueue env m1)) as [m3 t].
Qed.

Lemma fifo_fire (i : nat) (m : Machine) : fifo m → fifo (fire env i m).
Proof.
  intros Hm. unfold fire.
  destruct (tasks m !! i) as [[p | id u | id u p |]|]; [| | | done..].
  - destruct p as [r | e | e | o k]; try done.
    + pose proof (fifo_drain_turn m Hm) as Hm'.
      by destruct (drain_turn env m) as [m' t].
    + by destruct (answer_spec env (Call o k) m) as (w & h & ->).
  - pose proof (fifo_checkQueue id u m Hm) as Hm'.
    by destruct (checkQueue env id u m) as [m' t].
  - destruct p as [r | e | e | o k]; try done.
    by destruct (answer_spec env (Call o k) m) as (w & h & ->).
Qed.

Lemma fifo_exec (evs : list event) (m : Machine) :
  fifo m → fifo (exec env evs m).
Proof.
  revert m. induction evs as [|ev evs IH]; intros m Hm; [done |].
  cbn. apply IH. unfold step. destruct (halted m); [done |].
  destruct ev; auto using fifo_processVideo, fifo_fire.
Qed.

End Fifo.

(** X21. In every state the service reaches, the URLs submitted so far
    are, in their order, those the drain loop has taken followed by those
    still in the queue: the loop takes URLs first in, first out, and none
    is lost or taken twice. *)
Theorem queue_is_first_in_first_out `{Host} (env : Env) (w0 : World)
    (evs : list event) :
  let m := exec env evs (init w0) in
  submitted m = drained (invoked m) ++ queue m.
Proof. by apply fifo_exec. Qed.

(** X22. In every state the service reaches, at most one [processQueue]
    loop is alive, and none is while [this.processing] is [false]:
    however submissions and answers interleave, two loops never drain the
    queue side by side. *)
Theorem one_drain_loop_at_a_time `{Host} (env : Env) (w0 : World)
    (evs : list event) :
  let m := exec env evs (init w0) in
  (∀ i j p q, tasks m !! i = Some (Drain p) → tasks m !! j = Some (Drain q) →
              i = j) ∧
  (processing m = false → ∀ i p, tasks m !! i ≠ Some (Drain p)).
Proof. exact (single_flight_exec env evs _ (single_flight_init w0)). Qed.

(** ** A submission to an idle service *)

Section Idle.
Context `{Host}.
Variable env : Env.

Lemma answer_first_hit (u : list Z) (m : Machine) (r : TranscriptRecord) :
  halted m = false →
  cache (world m) !! cache_key_of u = Some r →
  answer env (processVideoFromUrl u) m
  = ({| queue := queue m; processing := processing m;
        world := logged (CacheGet (cache_key_of u)) (world m);
        tasks := tasks m; submitted := submitted m; promises := promises m;
        invoked := invoked m; halted := false |}, Ret r).
Proof.
  intros Hh Hhit. unfold answer. by rewrite (resume_hit _ _ _ _ Hhit), Hh.
Qed.

Lemma answer_first_miss (u : list Z) (m : Machine) :
  halted m = false →
  cache (world m) !! cache_key_of u = None →
  ∃ p, answer env (processVideoFromUrl u) m
       = ({| queue := queue m; processing := processing m;
             world := logged (CacheGet (cache_key_of u)) (world m);
             tasks := tasks m; submitted := submitted m;
             promises := promises m; invoked := invoked m;
             halted := false |}, p) ∧
       head_call p = Some (metadata_call u).
Proof.
  intros Hh Hmiss. unfold answer.
  destruct (resume_miss env _ _ Hmiss) as (p & -> & Hp).
  exists p. split; [| done]. rewrite Hh. by destruct p.
Qed.

Lemma processVideo_idle (url : list Z) (m : Machine) :
  queue m = [] → processing m = false →
  processVideo env url m
  = {| queue := []; processing := true; world := world m;
       tasks := tasks m ++ [Drain (processVideoFromUrl url);
                            Caller (length (submitted m)) url
                              (processVideoFromUrl url)];
       submitted := submitted m ++ [url]; promises := promises m;
       invoked := invoked m ++ [(ByDrain, url);
                                (ByCaller (length (submitted m)), url)];
       halted := halted m |}.
Proof.
  intros Hq Hp. unfold processVideo, processQueue. cbn.
  rewrite Hq, Hp. cbn. unfold drain_turn. cbn. rewrite invoke_spec. cbn.
  rewrite checkQueue_gone by (cbn; apply not_elem_of_nil). cbn.
  by rewrite <- !app_assoc.
Qed.

End Idle.

(** X23. On an idle service (nothing queued, no loop running)
    [processVideo] starts two invocations of [processVideoFromUrl] for the
    URL before it returns its promise: [processQueue] sets the flag,
    takes the URL off the queue and invokes the method, and [checkQueue],
    run next, no longer finds the URL in the queue and invokes the method
    again.  No call has been answered yet. *)
Theorem idle_submission_invokes_twice `{Host} (env : Env) (url : jsstring)
    (m : Machine) :
  queue m = [] → processing m = false →
  let id := length (submitted m) in
  processVideo env url m
  = {| queue := []; processing := true; world := world m;
       tasks := tasks m ++ [Drain (processVideoFromUrl url);
                            Caller id url (processVideoFromUrl url)];
       submitted := submitted m ++ [url]; promises := promises m;
       invoked := invoked m ++ [(ByDrain, url); (ByCaller id, url)];
       halted := halted m |}.
Proof. apply processVideo_idle. Qed.

Lemma idle_submission_invokes_twice_witness :
  invoked (processVideo sample_env sample_urlA (init empty_world))
  = [(ByDrain, sample_urlA); (ByCaller 0, sample_urlA)].
Proof.
  by rewrite (idle_submission_invokes_twice sample_env sample_urlA
                (init empty_world) eq_refl eq_refl).
Defined.

Section IdleSteps.
Context `{Host}.
Variable env : Env.

Lemma step_caller_hit (m : Machine) (i id : nat) (u : list Z)
    (r : TranscriptRecord) :
  halted m = false →
  tasks m !! i = Some (Caller id u (processVideoFromUrl u)) →
  cache (world m) !! cache_key_of u = Some r →
  step env m (Fire i)
  = {| queue := queue m; processing := processing m;
       world := logged (CacheGet (cache_key_of u)) (world m);
       tasks := <[i := Caller id u (Ret r)]> (tasks m);
       submitted := submitted m; promises := promises m;
       invoked := invoked m; halted := false |}.
Proof.
  intros Hh Ht Hhit. unfold step, fire. rewrite Hh, Ht.
  destruct (processVideoFromUrl_call u) as [k Hk].
  rewrite Hk. cbv iota. rewrite <- Hk.
  by rewrite (answer_first_hit env u m r Hh Hhit).
Qed.

Lemma step_caller_miss (m : Machine) (i id : nat) (u : list Z) :
  halted m = false →
  tasks m !! i = Some (Caller id u (processVideoFromUrl u)) →
  cache (world m) !! cache_key_of u = None →
  ∃ p, step env m (Fire i)
       = {| queue := queue m; processing := processing m;
            world := logged (CacheGet (cache_key_of u)) (world m);
            tasks := <[i := Caller id u p]> (tasks m);
            submitted := submitted m; promises := promises m;
            invoked := invoked m; halted := false |} ∧
       head_call p = Some (metadata_call u).
Proof.
  intros Hh Ht Hmiss. unfold step, fire. rewrite Hh, Ht.
  destruct (processVideoFromUrl_call u) as [k Hk].
  rewrite Hk. cbv iota. rewrite <- Hk.
  destruct (answer_first_miss env u m Hh Hmiss) as (p & -> & Hp).
  by exists p.
Qed.

Lemma step_drain_miss (m : Machine) (i : nat) (u : list Z) :
  halted m = false →
  tasks m !! i = Some (Drain (processVideoFromUrl u)) →
  cache (world m) !! cache_key_of u = None →
  ∃ p, step env m (Fire i)
       = {| queue := queue m; processing := processing m;
            world := logged (CacheGet (cache_key_of u)) (world m);
            tasks := <[i := Drain p]> (tasks m);
            submitted := submitted m; promises := promises m;
            invoked := invoked m; halted := false |} ∧
       head_call p = Some (metadata_call u).
Proof.
  intros Hh Ht Hmiss. unfold step, fire. rewrite Hh, Ht.
  destruct (processVideoFromUrl_call u) as [k Hk].
  rewrite Hk. cbv iota. rewrite <- Hk.
  destruct (answer_first_miss env u m Hh Hmiss) as (p & -> & Hp).
  by exists p.
Qed.

Lemma step_submit_idle (url : list Z) (m : Machine) :
  halted m = false → queue m = [] → processing m = false →
  step env m (Submit url)
  = {| queue := []; processing := true; world := world m;
       tasks := tasks m ++ [Drain (processVideoFromUrl url);
                            Caller (length (submitted m)) url
                              (processVideoFromUrl url)];
       submitted := submitted m ++ [url]; promises := promises m;
       invoked := invoked m ++ [(ByDrain, url);
                                (ByCaller (length (submitted m)), url)];
       halted := false |}.
Proof.
  intros Hh Hq Hp. unfold step. rewrite Hh.
  by rewrite processVideo_idle, Hh.
Qed.

End IdleSteps.

Lemma lookup_first_added {A} (l : list A) (x y : A) :
  (l ++ [x; y]) !! length l = Some x.
Proof. by rewrite lookup_app_r, Nat.sub_diag. Qed.

Lemma lookup_second_added {A} (l : list A) (x y : A) :
  (l ++ [x; y]) !! S (length l) = Some y.
Proof.
  rewrite lookup_app_r by lia.
  by replace (S (length l) - length l)%nat with 1%nat by lia.
Qed.

(** X24. On an idle service, a submission whose record is in the cache
    is resolved with that record as soon as its own [checkQueue] has had
    its cache read answered: two turns of that task.  The only call
    answered by then is that [cacheManager.get] (the read of the drain
    loop is still waiting), and nothing of the outside world is asked. *)
Theorem cached_submission_resolves `{Host} (env : Env) (url : jsstring)
    (m : Machine) (record : TranscriptRecord) :
  halted m = false → queue m = [] → processing m = false →
  cache (world m) !! cache_key_of url = Some record →
  let id := length (submitted m) in
  let caller := S (length (tasks m)) in
  let m' := exec env [Submit url; Fire caller; Fire caller] m in
  promises m' !! id = Some (Resolved record) ∧
  calls_since (world m) (world m') = [CacheGet (cache_key_of url)].
Proof.
  intros Hh Hq Hp Hhit id caller m'. unfold m'.
  rewrite !exec_cons. cbn [exec fold_left].
  pose proof (step_submit_idle env url m Hh Hq Hp) as Hm1.
  set (m1 := step env m (Submit url)) in *.
  rewrite (step_caller_hit env m1 caller id url record)
    by (rewrite Hm1; first [reflexivity | apply lookup_second_added | exact Hhit]).
  rewrite Hm1. unfold step, fire. cbn [halted tasks].
  rewrite list_lookup_insert_eq
    by (rewrite length_app; cbn; unfold caller; lia).
  cbn. split.
  - apply lookup_insert_eq.
  - unfold calls_since. cbn. by rewrite drop_app_length.
Qed.

Lemma cached_submission_resolves_witness :
  let w := {| cache := {[ cache_key_of sample_urlB := sample_recordB ]};
              files := ∅; log := [] |} in
  let m' := exec failing_env [Submit sample_urlB; Fire 1; Fire 1] (init w) in
  promises m' !! 0%nat = Some (Resolved sample_recordB) ∧
  calls_since w (world m') = [CacheGet (cache_key_of sample_urlB)].
Proof.
  intros w.
  apply (cached_submission_resolves failing_env sample_urlB (init w)
           sample_recordB eq_refl eq_refl eq_refl).
  vm_compute. reflexivity.
Defined.

(** X25. On an idle service, a submission whose record is not in the
    cache is worked on twice at the same time: once the drain loop and
    the submission's own [checkQueue] have each had their cache read
    answered, both have missed and both wait for the answer to the first
    call of [fetchVideoInfo]; the cache is written only at the end of an
    invocation, too late to spare the second one. *)
Theorem uncached_submission_is_processed_twice `{Host} (env : Env)
    (url : jsstring) (m : Machine) :
  halted m = false → queue m = [] → processing m = false →
  cache (world m) !! cache_key_of url = None →
  let id := length (submitted m) in
  let drain := length (tasks m) in
  let caller := S (length (tasks m)) in
  let m' := exec env [Submit url; Fire drain; Fire caller] m in
  ∃ p q,
    tasks m' !! drain = Some (Drain p) ∧
    tasks m' !! caller = Some (Caller id url q) ∧
    head_call p = Some (metadata_call url) ∧
    head_call q = Some (metadata_call url) ∧
    calls_since (world m) (world m')
    = [CacheGet (cache_key_of url); CacheGet (cache_key_of url)].
Proof.
  intros Hh Hq Hp Hmiss id drain caller m'. unfold m'.
  rewrite !exec_cons. cbn [exec fold_left].
  pose proof (step_submit_idle env url m Hh Hq Hp) as Hm1.
  set (m1 := step env m (Submit url)) in *.
  destruct (step_drain_miss env m1 drain url) as (p & Hm2 & Hhead_p);
    [rewrite Hm1; first [reflexivity | apply lookup_first_added | exact Hmiss]..
    |].
  set (m2 := step env m1 (Fire drain)) in *.
  destruct (step_caller_miss env m2 caller id url) as (q & Hm3 & Hhead_q).
  { by rewrite Hm2. }
  { rewrite Hm2, Hm1. cbn [tasks].
    rewrite list_lookup_insert_ne by (unfold drain, caller; lia).
    apply lookup_second_added. }
  { by rewrite Hm2, Hm1. }
  rewrite Hm3, Hm2, Hm1.
  exists p, q. cbn [tasks world].
  assert (drain < length (tasks m ++ [Drain (processVideoFromUrl url);
                                       Caller id url (processVideoFromUrl url)]))%nat
    as Hlt by (rewrite length_app; cbn; unfold drain; lia).
  split; [| split; [| split; [done | split; [done |]]]].
  - rewrite list_lookup_insert_ne by (unfold drain, caller; lia).
    by rewrite list_lookup_insert_eq.
  - rewrite list_lookup_insert_eq; [done |].
    rewrite length_insert, length_app. cbn. unfold caller. lia.
  - unfold calls_since. cbn. rewrite <- app_assoc. by rewrite drop_app_length.
Qed.

Lemma uncached_submission_is_processed_twice_witness :
  let m' := exec sample_env [Submit sample_urlB; Fire 0; Fire 1]
              (init empty_world) in
  ∃ p q,
    tasks m' !! 0%nat = Some (Drain p) ∧
    tasks m' !! 1%nat = Some (Caller 0 sample_urlB q) ∧
    head_call p = Some (YoutubeDl sample_urlB DumpJson) ∧
    head_call q = Some (YoutubeDl sample_urlB DumpJson) ∧
    calls_since empty_world (world m')
    = [CacheGet (cache_key_of sample_urlB); CacheGet (cache_key_of sample_urlB)].
Proof.
  exact (uncached_submission_is_processed_twice sample_env sample_urlB
           (init empty_world) eq_refl eq_refl eq_refl eq_refl).
Defined.

(** ** [downloadMedia] *)

(** X26. Once [downloadMedia] has returned with its file in place, a
    second call for the same URL returns the same path, the [.mp4] of the
    URL's identifier in the data directory, and does not call [youtubeDl]
    again; and [transcribeAudio] for that URL, finding no audio yet,
    starts by converting that very file. *)
Theorem downloadMedia_downloads_once `{Host} (youtubeDl : Downloader)
    (url path : jsstring) (fs fs' : gmap (list Z) (list Z)) :
  downloadMedia youtubeDl url fs = (fs', Returned path) →
  is_Some (fs' !! path) →
  path = path_join dataDir (getVideoId url ++ js ".mp4") ∧
  (∀ other : Downloader, downloadMedia other url fs' = (fs', Returned path)) ∧
  ∀ (env : Env) (w : World),
    files w = fs' →
    let mp3FilePath := path_join dataDir (getVideoId url ++ js ".mp3") in
    files w !! mp3FilePath = None →
    take 3 (calls_since w (run env w (transcribeAudio url)).1)
    = [ExistsSync mp3FilePath; ExistsSync path; Ffmpeg path mp3FilePath].
Proof.
  intros Hrun Hfile.
  assert (path = path_join dataDir (getVideoId url ++ js ".mp4")) as ->.
  { revert Hrun. unfold downloadMedia. cbv zeta.
    destruct (bool_decide _); [by intros [= _ <-] |].
    destruct (youtubeDl fs url _) as [[info | e] data]; [| done].
    by intros [= _ <-]. }
  split; [done |]. split.
  - intros other. unfold downloadMedia. cbv zeta.
    by rewrite bool_decide_eq_true_2.
  - intros env w <- mp3FilePath Hmp3. destruct Hfile as [video Hvideo].
    by destruct (transcribeAudio_converts env url w video Hmp3 Hvideo)
      as [Hcalls _].
Qed.

Lemma downloadMedia_downloads_once_witness :
  let fs' := (downloadMedia sample_downloader (js "AAAA") ∅).1 in
  fs' !! js "./content_cache/16vy8.mp4" = Some [0; 0; 0; 24] ∧
  downloadMedia failing_downloader (js "AAAA") fs'
  = (fs', Returned (js "./content_cache/16vy8.mp4")).
Proof.
  intros fs'. split; [vm_compute; reflexivity |].
  refine (proj1 (proj2 (downloadMedia_downloads_once sample_downloader
            (js "AAAA") (js "./content_cache/16vy8.mp4") ∅ fs' _ _))
          failing_downloader).
  - vm_compute. reflexivity.
  - vm_compute. by eexists.
Defined.

(** ** The pattern: [v] among other parameters *)

Lemma strip_None (p s : list Z) :
  JsString.startsWith p s = false → UrlPattern.strip p s = None.
Proof.
  revert s. induction p as [|a p IH]; intros [|b s]; cbn; try done.
  destruct (a =? b); cbn; [apply IH | done].
Qed.

(** Where ["&v="] does not occur, [.+] finds no way to go on. *)
Lemma dots_then_nowhere (s : list Z) :
  JsString.includes (js "&v=") s = false →
  UrlPattern.dots_then
    (λ r, UrlPattern.strip (js "&v=") r ≫= UrlPattern.group) s = None.
Proof.
  induction s as [|c s IH]; [done |]. cbn [JsString.includes].
  intros [_ Hs]%orb_false_elim. cbn [UrlPattern.dots_then].
  destruct (UrlPattern.line_terminator c); [done |]. rewrite IH by done.
  destruct s as [|d s]; [done |]. cbn [JsString.includes] in Hs.
  apply orb_false_elim in Hs as [Hhere _]. by rewrite strip_None.
Qed.

(** [.+] is greedy: of the places where the rest of the pattern matches,
    the last one is taken. *)
Lemma dots_then_last {A} (k : list Z → option A) (a r : list Z) (x : A) :
  a ≠ [] → forallb (λ c, negb (UrlPattern.line_terminator c)) a = true →
  UrlPattern.dots_then k r = None → k r = Some x →
  UrlPattern.dots_then k (a ++ r) = Some x.
Proof.
  intros Hne Ha Hlater Hk. induction a as [|c a IH]; [done |].
  cbn [forallb] in Ha. apply andb_prop in Ha as [Hc Ha].
  apply negb_true_iff in Hc. cbn [app UrlPattern.dots_then]. rewrite Hc.
  destruct a as [|c' a].
  - cbn [app]. by rewrite Hlater.
  - by rewrite IH.
Qed.

Lemma includes_skip (p x y : list Z) (c : Z) :
  c ∉ x →
  JsString.includes (c :: p) (x ++ y) = JsString.includes (c :: p) y.
Proof.
  intros Hx. induction x as [|d x IH]; [done |].
  apply not_elem_of_cons in Hx as [Hd Hx].
  cbn [app JsString.includes JsString.startsWith].
  destruct (Z.eqb_spec c d); [done |]. cbn [andb orb]. by apply IH.
Qed.

Lemma id_chars_no_ampersand (videoId : list Z) :
  forallb UrlPattern.id_char videoId = true → 38 ∉ videoId.
Proof.
  intros Hall Hin. rewrite forallb_forall in Hall.
  apply list_elem_of_In, Hall in Hin. done.
Qed.

(** X27. In a watch URL where [v] is not the first parameter, the
    pattern captures the value of the last [&v=]: whatever the parameters
    before it hold, another [&v=] among them too, the video ID is the one
    after which no [&v=] comes. *)
Theorem last_v_parameter_wins (params videoId tail : jsstring) :
  params ≠ [] →
  forallb (λ c, negb (UrlPattern.line_terminator c)) params = true →
  JsString.startsWith (js "v=") params = false →
  is_video_id videoId = true →
  ends_id tail = true →
  JsString.includes (js "&v=") tail = false →
  UrlPattern.group1
    (js "https://www.youtube.com/watch?" ++ params ++ js "&v=" ++ videoId ++ tail)
  = Some videoId.
Proof.
  intros Hne Hparams Hfirst Hid Htail Hnone.
  change (js "https://www.youtube.com/watch?" ++ params ++ js "&v=" ++ videoId ++ tail)
    with (js "https://www." ++ js "youtube.com" ++ js "/watch?" ++
          params ++ js "&v=" ++ videoId ++ tail).
  change (js "https://www.")
    with [104; 116; 116; 112; 115; 58; 47; 47; 119; 119; 119; 46].
  cbn [app]. skip_to_host. apply group1_here.
  set (rest := params ++ js "&v=" ++ videoId ++ tail).
  assert (UrlPattern.strip (js "/watch?v=") (js "/watch?" ++ rest) = None)
    as Hthird.
  { apply strip_None.
    change (JsString.startsWith (js "/watch?v=") (js "/watch?" ++ rest))
      with (JsString.startsWith (js "v=") rest).
    unfold rest. destruct params as [|c [|d params]]; [done | |].
    - cbn in *. by destruct (118 =? c).
    - exact Hfirst. }
  unfold UrlPattern.match_here.
  change (UrlPattern.strip (js "youtu.be/") (js "youtube.com" ++ js "/watch?" ++ rest))
    with (@None (list Z)).
  change (UrlPattern.strip (js "youtube.com") (js "youtube.com" ++ js "/watch?" ++ rest))
    with (Some (js "/watch?" ++ rest)).
  cbn [UrlPattern.or_else mbind option_bind].
  change (UrlPattern.strip (js "/embed/") (js "/watch?" ++ rest))
    with (@None (list Z)).
  change (UrlPattern.strip (js "/v/") (js "/watch?" ++ rest))
    with (@None (list Z)).
  rewrite Hthird.
  change (UrlPattern.strip (js "/watch?") (js "/watch?" ++ rest))
    with (Some rest).
  cbn [UrlPattern.or_else mbind option_bind].
  unfold rest. apply dots_then_last; [done | done | |].
  - change (js "&v=" ++ videoId ++ tail) with (38 :: js "v=" ++ videoId ++ tail).
    cbn [UrlPattern.dots_then].
    change (UrlPattern.line_terminator 38) with false. cbv iota.
    apply andb_prop in Hid as [_ Hchars].
    assert (JsString.includes (js "&v=") (js "v=" ++ videoId ++ tail) = false)
      as Hin.
    { change (js "&v=") with (38 :: js "v=").
      rewrite (includes_skip (js "v=") (js "v=") _ 38) by compute_done.
      rewrite includes_skip by (by apply id_chars_no_ampersand).
      exact Hnone. }
    rewrite dots_then_nowhere by done.
    rewrite strip_None; [done |].
    destruct (js "v=" ++ videoId ++ tail) eqn:Heq; [done |].
    cbn [JsString.includes] in Hin. by apply orb_false_elim in Hin as [? _].
  - change (UrlPattern.strip (js "&v=") (js "&v=" ++ videoId ++ tail))
      with (Some (videoId ++ tail)).
    cbn. by apply group_app.
Qed.

Lemma last_v_parameter_wins_witness :
  UrlPattern.group1
    (js "https://www.youtube.com/watch?feature=share&v=first&v=last&t=5")
  = Some (js "last").
Proof.
  apply (last_v_parameter_wins (js "feature=share&v=first") (js "last")
           (js "&t=5")); vm_compute; first [reflexivity | discriminate].
Defined.

(** ** The drain loop after a success *)



(** ** The record of a resolve *)

Lemma getTranscript_reads_videoInfo `{Host} (env : Env) (url : list Z)
    (videoInfo : jsvalue) (w w' : World) (transcript : list Z) :
  run env w (getTranscript url videoInfo) = (w', Returned transcript) →
  ∀ name, JsValue.get name videoInfo
          = Some (default JUndefined (JsValue.get name videoInfo)).
Proof.
  unfold getTranscript. rewrite run_rethrow, run_bind, run_read.
  by destruct videoInfo.
Qed.

(** X29. On a miss, when [fetchVideoInfo] has returned the metadata and
    [getTranscript] the transcript, [processVideoFromUrl] builds the
    record from them: the identifier of the matched video ID, the URL as
    given, the title, channel and description of the metadata
    ([undefined] where the metadata has none) and the transcript; it
    writes the record under the key of the URL, as its last call, and
    returns it. *)
Theorem resolve_builds_record `{Host} (env : Env) (url : jsstring)
    (w w2 w3 : World) (videoInfo : jsvalue) (transcript : jsstring) :
  cache w !! cache_key_of url = None →
  run env (logged (CacheGet (cache_key_of url)) w) (fetchVideoInfo url)
  = (w2, Returned videoInfo) →
  run env w2 (getTranscript url videoInfo) = (w3, Returned transcript) →
  let record :=
    {| id := getVideoId (matched_videoId url);
       url := url;
       title := default JUndefined (JsValue.get (js "title") videoInfo);
       source := default JUndefined (JsValue.get (js "channel") videoInfo);
       description :=
         default JUndefined (JsValue.get (js "description") videoInfo);
       text := transcript |} in
  run env w (processVideoFromUrl url)
  = (with_cache (<[cache_key_of url := record]> (cache w3))
       (logged (CacheSet (cache_key_of url) record) w3),
     Returned record).
Proof.
  intros Hmiss Hinfo Htranscript record.
  pose proof (getTranscript_reads_videoInfo _ _ _ _ _ _ Htranscript) as Hget.
  rewrite (cache_miss _ _ _ Hmiss).
  erewrite run_bind_returned by exact Hinfo.
  erewrite run_bind_returned by exact Htranscript.
  rewrite (Hget (js "title")), bind_read_Some.
  rewrite (Hget (js "channel")), bind_read_Some.
  rewrite (Hget (js "description")), bind_read_Some.
  cbv zeta. by rewrite run_bind, run_cacheSet.
Qed.

Lemma resolve_builds_record_witness :
  let w2 := logged (YoutubeDl sample_urlB DumpJson)
              (logged (CacheGet (cache_key_of sample_urlB)) empty_world) in
  run sample_env empty_world (processVideoFromUrl sample_urlB)
  = (with_cache {[ cache_key_of sample_urlB := sample_recordB ]}
       (logged (CacheSet (cache_key_of sample_urlB) sample_recordB) w2),
     Returned sample_recordB).
Proof.
  intros w2.
  refine (eq_trans (resolve_builds_record sample_env sample_urlB empty_world
                      w2 w2 sample_music_info (js "No lyrics available.")
                      _ _ _) _);
    vm_compute; reflexivity.
Defined.

(** ** A poll *)

(** X30. As long as its URL is in the queue, a turn of a submission's
    [checkQueue] changes nothing and calls nothing: it only sets its
    timer again.  Any copy of the URL keeps it waiting, also one that a
    later submission has put there after the drain loop took its own. *)
Theorem poll_waits_while_url_is_queued `{Host} (env : Env) (m : Machine)
    (i id : nat) (url : jsstring) :
  halted m = false →
  tasks m !! i = Some (Poll id url) →
  url ∈ queue m →
  step env m (Fire i) = m.
Proof.
  intros Hh Ht Hq. unfold step, fire. rewrite Hh, Ht.
  rewrite checkQueue_queued by done.
  unfold set_task, set_tasks. rewrite list_insert_id by done.
  by destruct m.
Qed.

Lemma poll_waits_while_url_is_queued_witness :
  let m := exec sample_env
             [Submit sample_urlA; Submit sample_urlB;
              Fire 0; Fire 0; Fire 0; Fire 0; Submit sample_urlB]
             (init empty_world) in
  tasks m !! 2%nat = Some (Poll 1 sample_urlB) ∧
  (ByDrain, sample_urlB) ∈ invoked m ∧
  queue m = [sample_urlB] ∧
  step sample_env m (Fire 2) = m.
Proof.
  intros m.
  assert (tasks m !! 2%nat = Some (Poll 1 sample_urlB)) as Ht
    by (vm_compute; reflexivity).
  assert (queue m = [sample_urlB]) as Hq by (vm_compute; reflexivity).
  split; [exact Ht |]. split; [compute_done |]. split; [exact Hq |].
  apply (poll_waits_while_url_is_queued sample_env m 2 1 sample_urlB).
  - vm_compute. reflexivity.
  - exact Ht.
  - rewrite Hq. by left.
Defined.
